(** * BIONIC-analyses, Fig. 6 d): adaptive complex-threshold clustering

    A shallow embedding of the two routines of the circle-packing notebook
    ([get_first_level_clusters] and [create_data_structure]) together with
    the NumPy / SciPy primitives they call, and the properties of the
    natural-language specification that concern them. The cells that call
    the two routines, the node subsampling of the scaling experiment and
    the train / test splits of the evaluation standards follow, with the
    properties their code shows.

    Conventions of the embedding.
    - Python floats that hold distances, thresholds and Jaccard scores are
      exact rationals ([Q]); arrays are lists; integer-valued float arrays
      ([gene_assignments], the returned labels) are lists of [nat]. Where
      the rounding of [np.linspace] matters, module [Float64] computes the
      grid in binary64 and module [GridMatcher] runs the scan on any grid.
    - A Python exception is [None] in the error monad [option]; every
      indexing operation that NumPy bounds-checks is bounds-checked here.
    - The dict [assignments] is an insertion-ordered association list.
    - [fcluster] and [maxdists] are library functions: the matcher is
      written over them as section variables, and module [SciPy] gives an
      executable model of both on which concrete linkages are run. *)

From Stdlib Require Import String.
From Stdlib Require Import List Arith Bool Lia QArith Qround Permutation Sorted.
From Stdlib Require PrimFloat FloatOps SpecFloat.
Import ListNotations.
Close Scope Q_scope.
Local Open Scope nat_scope.

Set Implicit Arguments.

(** ** Exceptions as an error monad *)

Definition bind {A B : Type} (m : option A) (k : A -> option B) : option B :=
  match m with
  | Some a => k a
  | None => None
  end.

Notation "x <- m ;; k" := (bind m (fun x => k))
  (at level 61, m at next level, right associativity).

(** A [for] loop whose body may raise. *)
Fixpoint foldM {A S : Type} (body : S -> A -> option S) (l : list A) (st : S)
  : option S :=
  match l with
  | [] => Some st
  | a :: l' => st' <- body st a ;; foldM body l' st'
  end.

Fixpoint mapM {A B : Type} (f : A -> option B) (l : list A) : option (list B) :=
  match l with
  | [] => Some []
  | a :: l' => b <- f a ;; bs <- mapM f l' ;; Some (b :: bs)
  end.

(** ** Rational comparisons *)

Definition Qlt_bool (a b : Q) : bool := negb (Qle_bool b a).

Definition Qmax_bool (a b : Q) : Q := if Qle_bool a b then b else a.

(** ** NumPy primitives *)

Module Np.

Section Sort.
Variable A : Type.
Variable leb : A -> A -> bool.

Fixpoint insert_sorted (x : A) (l : list A) : list A :=
  match l with
  | [] => [x]
  | y :: l' => if leb x y then x :: l else y :: insert_sorted x l'
  end.

Definition sort (l : list A) : list A := fold_right insert_sorted [] l.
End Sort.

(** [np.unique] on an integer array: the sorted distinct values. *)
Definition unique (a : list nat) : list nat :=
  sort Nat.leb (nodup Nat.eq_dec a).

(** [np.unique] on an array of strings. *)
Definition unique_str (a : list string) : list string :=
  sort String.leb (nodup string_dec a).

Definition mem_str (g : string) (a : list string) : bool :=
  existsb (String.eqb g) a.

(** [np.intersect1d(ar1, ar2)]: the sorted distinct values found in both. *)
Definition intersect1d (ar1 ar2 : list string) : list string :=
  unique_str (filter (fun g => mem_str g ar2) ar1).

(** [np.union1d(ar1, ar2)]: the sorted distinct values of the concatenation. *)
Definition union1d (ar1 ar2 : list string) : list string :=
  unique_str (ar1 ++ ar2).

(** [np.argwhere(a == v).flatten()]: the ascending indices holding [v]. *)
Definition argwhere_eq (a : list nat) (v : nat) : list nat :=
  map fst (filter (fun p => snd p =? v) (combine (seq 0 (length a)) a)).

(** [np.nonzero(a)]: the ascending indices holding a nonzero value. *)
Definition nonzero (a : list nat) : list nat :=
  map fst (filter (fun p => negb (snd p =? 0)) (combine (seq 0 (length a)) a)).

(** [a[idxs]] with an index array: raises when an index is out of range. *)
Definition take {A : Type} (a : list A) (idxs : list nat) : option (list A) :=
  mapM (nth_error a) idxs.

(** [a[i] = v]: raises when [i] is out of range. *)
Fixpoint set_item (a : list nat) (i v : nat) : option (list nat) :=
  match a, i with
  | [], _ => None
  | _ :: a', O => Some (v :: a')
  | x :: a', S i' => a'' <- set_item a' i' v ;; Some (x :: a'')
  end.

(** [a[idxs] = v] with an index array and a scalar. *)
Definition put (a : list nat) (idxs : list nat) (v : nat) : option (list nat) :=
  foldM (fun a i => set_item a i v) idxs a.

(** [a[idxs] = vals] with an index array and an array of the same length. *)
Definition put_many (a : list nat) (idxs vals : list nat) : option (list nat) :=
  foldM (fun a iv => set_item a (fst iv) (snd iv)) (combine idxs vals) a.

Definition zeros (n : nat) : list nat := repeat 0 n.

(** [np.max] raises on an empty array. *)
Definition max (a : list nat) : option nat :=
  match a with
  | [] => None
  | x :: a' => Some (fold_left Nat.max a' x)
  end.

Definition maxQ (a : list Q) : option Q :=
  match a with
  | [] => None
  | x :: a' => Some (fold_left Qmax_bool a' x)
  end.

(** [np.linspace(start, stop, num)] for [num >= 2]: [num - 1] points
    [start + i * step] with [step = (stop - start) / (num - 1)], and the
    last point set to [stop] itself. The arithmetic is exact here;
    [Float64.linspace] is the same grid with NumPy's rounding. *)
Definition linspace (start stop : Q) (num : nat) : list Q :=
  let step := ((stop - start) / inject_Z (Z.of_nat (num - 1)))%Q in
  map (fun i => (start + inject_Z (Z.of_nat i) * step)%Q) (seq 0 (num - 1))
  ++ [stop].

End Np.

(** ** The dict [assignments] *)

Definition dict : Type := list (string * list nat).

(** [d[k] = v]: an existing key keeps its position, a new key goes last. *)
Fixpoint dict_set (k : string) (v : list nat) (d : dict) : dict :=
  match d with
  | [] => [(k, v)]
  | (k', v') :: d' =>
      if String.eqb k k' then (k', v) :: d' else (k', v') :: dict_set k v d'
  end.

Fixpoint dict_get (k : string) (d : dict) : option (list nat) :=
  match d with
  | [] => None
  | (k', v') :: d' => if String.eqb k k' then Some v' else dict_get k d'
  end.

Definition dict_keys (d : dict) : list string := map fst d.

(** [enumerate(l)] *)
Definition enumerate {A : Type} (l : list A) : list (nat * A) :=
  combine (seq 0 (length l)) l.

(** ** Adaptive threshold matcher *)

Module Matching.

(** The local variables of [get_first_level_clusters] that the nested loops
    update. *)
Record locals : Type := mkLocals {
  assignments : dict;
  highest_thresh : Q;
  best_jaccard : Q
}.

(** [if denom == 0: jaccard = 0 else: jaccard = numer / denom] *)
Definition jaccard_score (numer denom : nat) : Q :=
  if denom =? 0 then 0%Q
  else (inject_Z (Z.of_nat numer) / inject_Z (Z.of_nat denom))%Q.

Definition cluster_jaccard (cluster_genes comp_genes : list string) : Q :=
  let numer := length (Np.intersect1d cluster_genes comp_genes) in
  let denom := length (Np.union1d cluster_genes comp_genes) in
  jaccard_score numer denom.

(** The guarded update at the end of the innermost loop body. *)
Definition record_match (complex : string) (cluster : list nat) (thresh : Q)
    (jaccard : Q) (st : locals) : locals :=
  if Qlt_bool (best_jaccard st) jaccard && Qle_bool (1 # 2) jaccard then
    {| assignments := dict_set complex cluster (assignments st);
       highest_thresh :=
         if Qlt_bool (highest_thresh st) thresh then thresh
         else highest_thresh st;
       best_jaccard := jaccard |}
  else st.

Definition num_thresholds : nat := 1000.

Section Matcher.
Variable Linkage : Type.
(** [fcluster(link, t, criterion="distance")] *)
Variable fcluster : Linkage -> Q -> list nat.
Variable maxdists : Linkage -> list Q.
(** The notebook's globals. *)
Variable link : Linkage.
Variable common_genes : list string.

(** Body of [for label in labels]. *)
Definition label_body (complex : string) (comp_genes : list string)
    (thresh : Q) (clusters : list nat) (st : locals) (label : nat)
  : option locals :=
  let cluster := Np.argwhere_eq clusters label in
  if length cluster <? 2 then Some st
  else
    cluster_genes <- Np.take common_genes cluster ;;
    Some (record_match complex cluster thresh
            (cluster_jaccard cluster_genes comp_genes) st).

(** Body of [for thresh in np.linspace(0, max_thresh, num=1000)]. *)
Definition thresh_body (complex : string) (comp_genes : list string)
    (st : locals) (thresh : Q) : option locals :=
  let clusters := fcluster link thresh in
  let labels := Np.unique clusters in
  foldM (label_body complex comp_genes thresh clusters) labels st.

Definition thresholds (max_thresh : Q) : list Q :=
  Np.linspace 0 max_thresh num_thresholds.

(** Body of [for complex, comp_genes in complexes.items()]. *)
Definition complex_body (max_thresh : Q) (st : locals)
    (item : string * list string) : option locals :=
  let complex := fst item in
  let comp_genes := snd item in
  if length (Np.intersect1d comp_genes common_genes) <? 2 then Some st
  else
    foldM (thresh_body complex comp_genes) (thresholds max_thresh)
      {| assignments := assignments st;
         highest_thresh := highest_thresh st;
         best_jaccard := 0 |}.

Definition init_locals : locals :=
  {| assignments := []; highest_thresh := 0; best_jaccard := 0 |}.

(** The first half of the function: everything up to the end of the loop
    over complexes. *)
Definition scan_complexes (complexes : list (string * list string))
  : option locals :=
  max_thresh <- Np.maxQ (maxdists link) ;;
  foldM (complex_body max_thresh) complexes init_locals.

(** [for i, (complex, idxs) in enumerate(assignments.items()):
       gene_assignments[idxs] = i + 1] *)
Definition label_captured (asg : dict) : option (list nat) :=
  foldM (fun ga e => Np.put ga (snd (snd e)) (fst e + 1))
    (enumerate asg) (Np.zeros (length common_genes)).

(** The second half: fallback clustering and the final merge. *)
Definition combine_with_fallback (gene_assignments : list nat)
    (highest : Q) : option (list nat) :=
  m <- Np.max gene_assignments ;;
  let final_clusters :=
    map (fun c => m + 1 + c) (fcluster link (highest + (1 # 10))%Q) in
  let nz := Np.nonzero gene_assignments in
  vals <- Np.take gene_assignments nz ;;
  Np.put_many final_clusters nz vals.

Definition get_first_level_clusters (complexes : list (string * list string))
  : option (list nat) :=
  st <- scan_complexes complexes ;;
  gene_assignments <- label_captured (assignments st) ;;
  combine_with_fallback gene_assignments (highest_thresh st).

End Matcher.

Arguments thresholds max_thresh : simpl never.

(** ** Vocabulary of the specification

    The clusters the scan looks at, in the order it looks at them, and the
    score the code gives each of them. *)

Section Vocabulary.
Variable Linkage : Type.
Variable fcluster : Linkage -> Q -> list nat.
Variable link : Linkage.
Variable common_genes : list string.

(** [cl] is a cluster with at least two members of the flat clustering
    obtained by cutting the linkage at [t]. *)
Definition cluster_at (t : Q) (cl : list nat) : Prop :=
  exists label,
    In label (fcluster link t) /\
    cl = Np.argwhere_eq (fcluster link t) label /\
    2 <= length cl.

(** The Jaccard score the code computes for the cluster [cl] against the
    complex [comp_genes]. *)
Definition cand_jaccard (comp_genes : list string) (cl : list nat)
  : option Q :=
  cluster_genes <- Np.take common_genes cl ;;
  Some (cluster_jaccard cluster_genes comp_genes).

(** The clusters compared at one threshold, in label order. *)
Definition clusters_at (t : Q) : list (list nat) :=
  filter (fun cl => negb (length cl <? 2))
    (map (Np.argwhere_eq (fcluster link t)) (Np.unique (fcluster link t))).

(** Every (threshold, cluster) comparison of one complex, in scan order. *)
Definition candidates (ts : list Q) : list (Q * list nat) :=
  flat_map (fun t => map (pair t) (clusters_at t)) ts.

(** One comparison: the body of the innermost loop once the cluster is
    known to have two members. *)
Definition cand_body (complex : string) (comp_genes : list string)
    (st : locals) (c : Q * list nat) : option locals :=
  j <- cand_jaccard comp_genes (snd c) ;;
  Some (record_match complex (snd c) (fst c) j st).

(** The 0.5 gate, decided over a list of comparisons. *)
Definition gate_fails (comp_genes : list string) (cs : list (Q * list nat))
  : bool :=
  forallb
    (fun c =>
       match cand_jaccard comp_genes (snd c) with
       | Some j => Qlt_bool j (1 # 2)
       | None => true
       end)
    cs.

(** The comparison of [cl] at threshold [t] is the first of the list to
    reach the score [j], no comparison of the list scores higher, and [j]
    clears the gate. *)
Definition first_best (comp_genes : list string) (cs : list (Q * list nat))
    (t : Q) (cl : list nat) (j : Q) : Prop :=
  exists pre post,
    cs = pre ++ (t, cl) :: post /\
    cand_jaccard comp_genes cl = Some j /\
    (1 # 2 <= j)%Q /\
    (forall c j', In c pre ->
       cand_jaccard comp_genes (snd c) = Some j' -> (j' < j)%Q) /\
    (forall c j', In c post ->
       cand_jaccard comp_genes (snd c) = Some j' -> (j' <= j)%Q).

(** What one complex leaves in [assignments] when it is processed alone:
    [Some (Some cl)] when it is captured with cluster [cl], [Some None]
    when it is not, [None] when its scan raises. *)
Definition capture (max_thresh : Q) (item : string * list string)
  : option (option (list nat)) :=
  st <- complex_body fcluster link common_genes max_thresh init_locals item ;;
  Some (dict_get (fst item) (assignments st)).

(** The entries the captured complexes of a list leave, in list order. *)
Definition captured_entries (max_thresh : Q)
    (complexes : list (string * list string)) : dict :=
  flat_map
    (fun item =>
       match capture max_thresh item with
       | Some (Some cl) => [(fst item, cl)]
       | _ => []
       end)
    complexes.

(** The value [highest_thresh] reaches when one complex is processed
    alone. *)
Definition peak (max_thresh : Q) (item : string * list string) : Q :=
  match
    complex_body fcluster link common_genes max_thresh init_locals item
  with
  | Some st => highest_thresh st
  | None => 0%Q
  end.

End Vocabulary.

Arguments candidates {Linkage} fcluster link ts : simpl never.

(** [highest_thresh] does not decrease from [st] to [st'] and stays below
    [bound] if it was. *)
Definition hi_step (bound : Q) (st st' : locals) : Prop :=
  (highest_thresh st <= highest_thresh st')%Q /\
  ((highest_thresh st <= bound)%Q -> (highest_thresh st' <= bound)%Q).

(** The value [gene_assignments] ends with at item [k] when the entries of
    [asg] are numbered from [s + 1]: the number of the last entry whose
    index set holds [k], and 0 when there is none. *)
Fixpoint winner_from (s : nat) (asg : dict) (k : nat) : nat :=
  match asg with
  | [] => 0
  | (_, idxs) :: rest =>
      let w := winner_from (S s) rest k in
      if w =? 0 then (if existsb (Nat.eqb k) idxs then s + 1 else 0) else w
  end.

Definition winner (asg : dict) (k : nat) : nat := winner_from 0 asg k.

(** [h] is the largest of the values [ys]. *)
Definition largest_of (h : Q) (ys : list Q) : Prop :=
  (forall y, In y ys -> (y <= h)%Q) /\ exists y, In y ys /\ (h == y)%Q.

(** Every recorded index set is a cluster of at least two items of the
    item set. *)
Definition recorded_ok (n : nat) (asg : dict) : Prop :=
  Forall (fun e => 2 <= length (snd e) /\ forall i, In i (snd e) -> i < n) asg.

(** [(complex, label)] for every captured complex, as [enumerate] numbers
    them. *)
Definition captured_labels (asg : dict) : list (string * nat) :=
  map (fun e => (fst (snd e), fst e + 1)) (enumerate asg).

End Matching.

Import Matching.

(** ** [np.linspace] in binary64

    NumPy computes the thresholds in doubles. A double is a rational, so the
    grid it computes is again a list of [Q]: the arithmetic is done on the
    kernel's binary64 numbers and the results are read back exactly. *)

Module Float64.

(** A small natural number as a double (exact below 2^53). *)
Definition of_nat (n : nat) : PrimFloat.float :=
  FloatOps.SF2Prim
    (SpecFloat.binary_normalize FloatOps.prec FloatOps.emax (Z.of_nat n) 0
       false).

(** The double nearest to [q], ties to even; [q] itself when [q] is a
    double. The quotient is taken with more than 1080 fractional bits and
    a sticky last bit, which the final rounding to 53 bits cannot tell from
    [q]. *)
Definition to_double (q : Q) : PrimFloat.float :=
  let d := Z.pos (Qden q) in
  let k := (1081 + Z.log2 d)%Z in
  let a := (Z.abs (Qnum q) * 2 ^ k)%Z in
  let sticky := if (a mod d =? 0)%Z then 0%Z else 1%Z in
  let m := (2 * (a / d) + sticky)%Z in
  FloatOps.SF2Prim
    (SpecFloat.binary_normalize FloatOps.prec FloatOps.emax
       (Z.sgn (Qnum q) * m) (- k - 1) false).

(** The rational a finite double is (an infinity or a NaN, which the grid
    of a finite [stop] does not hold, reads as 0). *)
Definition of_double (x : PrimFloat.float) : Q :=
  match FloatOps.Prim2SF x with
  | SpecFloat.S754_finite s m e =>
      let n := if s then Z.neg m else Z.pos m in
      if (0 <=? e)%Z then inject_Z (n * 2 ^ e)
      else n # Z.to_pos (2 ^ (- e))
  | _ => 0%Q
  end.

(** [np.linspace(start, stop, num)] for [num >= 2], as NumPy computes it:
    [step = (stop - start) / (num - 1)] rounded, the points
    [i * step + start] rounded after each operation (or
    [(i / (num - 1)) * (stop - start) + start] when [step] underflows to
    0), and the last point set to [stop] itself. *)
Definition linspace (start stop : Q) (num : nat) : list Q :=
  let start_ := to_double start in
  let stop_ := to_double stop in
  let div := of_nat (num - 1) in
  let delta := PrimFloat.sub stop_ start_ in
  let step := PrimFloat.div delta div in
  let point (i : nat) : PrimFloat.float :=
    if PrimFloat.eqb step PrimFloat.zero
    then PrimFloat.add
           (PrimFloat.mul (PrimFloat.div (of_nat i) div) delta) start_
    else PrimFloat.add (PrimFloat.mul (of_nat i) step) start_ in
  map (fun i => of_double (point i)) (seq 0 (num - 1)) ++ [of_double stop_].

End Float64.

(** ** The scan over any grid of thresholds

    The matcher with [np.linspace] as a parameter; with [Np.linspace] for
    it, this is [scan_complexes]. *)

Module GridMatcher.

Section OnGrid.
Variable linspace : Q -> Q -> nat -> list Q.
Variable Linkage : Type.
Variable fcluster : Linkage -> Q -> list nat.
Variable maxdists : Linkage -> list Q.
Variable link : Linkage.
Variable common_genes : list string.

Definition thresholds_on (max_thresh : Q) : list Q :=
  linspace 0%Q max_thresh num_thresholds.

(** Body of [for complex, comp_genes in complexes.items()]. *)
Definition complex_body_on (max_thresh : Q) (st : locals)
    (item : string * list string) : option locals :=
  let complex := fst item in
  let comp_genes := snd item in
  if length (Np.intersect1d comp_genes common_genes) <? 2 then Some st
  else
    foldM (thresh_body fcluster link common_genes complex comp_genes)
      (thresholds_on max_thresh)
      {| assignments := assignments st;
         highest_thresh := highest_thresh st;
         best_jaccard := 0 |}.

Definition scan_complexes_on (complexes : list (string * list string))
  : option locals :=
  max_thresh <- Np.maxQ (maxdists link) ;;
  foldM (complex_body_on max_thresh) complexes init_locals.


End OnGrid.

Arguments thresholds_on linspace max_thresh : simpl never.

End GridMatcher.

(** What the numbering loop leaves in [gene_assignments]: an item of no
    recorded cluster keeps 0; an item of the cluster of entry [i] (counted
    from 0) carries a number from [i + 1] up to the number of entries, and
    it carries [i + 1] exactly when no later entry holds it. *)
Definition written_by_last (asg : dict) (ga : list nat) : Prop :=
  (forall k,
     nth k ga 0 = 0 <-> forall c idxs, In (c, idxs) asg -> ~ In k idxs) /\
  (forall i c idxs k,
     nth_error asg i = Some (c, idxs) -> In k idxs ->
     i + 1 <= nth k ga 0 <= length asg /\
     (nth k ga 0 = i + 1 <->
      forall i' c' idxs',
        nth_error asg i' = Some (c', idxs') -> In k idxs' -> i' <= i)).

(** ** Nested-grouping serializer *)

Module Grouping.

#[warnings="-register-all"]
Inductive tree : Type :=
| Leaf (name : string) (value : nat)
| Node (name : string) (children : list tree).

(** The recursive builder returns a list of leaves at the bottom and a dict
    everywhere else. *)
Inductive py_value : Type :=
| PyList (items : list tree)
| PyDict (node : tree).

Fixpoint leaves (t : tree) : list (string * nat) :=
  match t with
  | Leaf name value => [(name, value)]
  | Node _ children => flat_map leaves children
  end.

Section Serializer.
Variable mapped_genes : list string.

(** [create_data_structure_recursive(clusters, subset, idx)] with
    [levels = clusters[idx:]]: [idx + 1 > len(clusters)] is [levels = []]
    and [clusters[idx]] is the head of [levels]. *)
Fixpoint build_levels (levels : list (list nat)) (subset : list nat)
  : option py_value :=
  match levels with
  | [] =>
      names <- Np.take mapped_genes subset ;;
      Some (PyList (map (fun name => Leaf name 1) names))
  | cluster :: rest =>
      cluster_ <- Np.take cluster subset ;;
      let labels := Np.unique cluster_ in
      children <-
        foldM
          (fun children label =>
             let new_subset := Np.argwhere_eq cluster label in
             child <- build_levels rest new_subset ;;
             match child with
             | PyList items => Some (children ++ items)
             | PyDict node => Some (children ++ [node])
             end)
          labels [] ;;
      Some (PyDict (Node "" children))
  end.

Definition create_data_structure_recursive (clusters : list (list nat))
    (subset : list nat) (idx : nat) : option py_value :=
  build_levels (skipn idx clusters) subset.

(** [clusters = clusters[::-1]], then the recursion from
    [np.arange(len(clusters[0]))] at index 0. *)
Definition create_data_structure (clusters : list (list nat))
  : option py_value :=
  let clusters := rev clusters in
  first <- nth_error clusters 0 ;;
  create_data_structure_recursive clusters (seq 0 (length first)) 0.
End Serializer.

(** Every level labels the same [n] items. *)
Definition same_shape (n : nat) (levels : list (list nat)) : Prop :=
  Forall (fun level => length level = n) levels.

(** [fine] refines [coarse]: items sharing a label in [fine] share one in
    [coarse]. *)
Definition refines (fine coarse : list nat) : Prop :=
  forall i j a b,
    nth_error fine i = Some a -> nth_error fine j = Some a ->
    nth_error coarse i = Some b -> nth_error coarse j = Some b.

(** The levels, read from coarsest to finest, form a hierarchy: each level
    refines the one before it. *)
Fixpoint hierarchy (levels : list (list nat)) : Prop :=
  match levels with
  | coarse :: ((fine :: _) as rest) => refines fine coarse /\ hierarchy rest
  | _ => True
  end.

(** The leaf of item [i]. *)
Definition item_leaf (mapped_genes : list string) (i : nat) : string * nat :=
  (nth i mapped_genes ""%string, 1).

Definition leaves_of (r : py_value) : list (string * nat) :=
  match r with
  | PyList items => flat_map leaves items
  | PyDict node => leaves node
  end.

(** C7 as the specification words it: in the tree built from any list of
    levels, every item is exactly one leaf, which carries the item's name
    and the value 1. *)
Definition each_item_one_leaf (mapped_genes : list string)
    (clusters : list (list nat)) : Prop :=
  forall r,
    create_data_structure mapped_genes clusters = Some r ->
    Permutation (leaves_of r) (map (fun name => (name, 1)) mapped_genes).

End Grouping.

Import Grouping.

(** ** The grouping of C7, as the specification words it

    The items of a group are split by their label at the next finer level,
    one sub-group per label in ascending order, each holding the items of
    the group that carry the label; below the finest level the items of a
    group are its leaves. [levels] is read from coarsest to finest. *)

Module GroupingSpec.

Fixpoint children_of (mapped_genes : list string) (levels : list (list nat))
    (items : list nat) : list tree :=
  match levels with
  | [] => map (fun i => Leaf (nth i mapped_genes ""%string) 1) items
  | level :: rest =>
      flat_map
        (fun label =>
           let members := filter (fun i => nth i level 0 =? label) items in
           let below := children_of mapped_genes rest members in
           match rest with
           | [] => below
           | _ :: _ => [Node "" below]
           end)
        (Np.unique (map (fun i => nth i level 0) items))
  end.

(** The value for the group [items] above the levels [levels]: the leaves
    themselves below the finest level, a node over the sub-groups
    everywhere else. *)
Definition group_value (mapped_genes : list string)
    (levels : list (list nat)) (items : list nat) : py_value :=
  match levels with
  | [] => PyList (children_of mapped_genes levels items)
  | _ :: _ => PyDict (Node "" (children_of mapped_genes levels items))
  end.

(** The tree of all items. *)
Definition grouped_tree (mapped_genes : list string)
    (levels : list (list nat)) : tree :=
  Node "" (children_of mapped_genes levels (seq 0 (length mapped_genes))).

End GroupingSpec.

(** C3 as the specification words it: when no cluster at any scanned
    threshold reaches 0.5 for a complex, none of the complex's genes
    receives a captured-complex label in the returned array. *)
Definition uncaptured_genes_fall_back (Linkage : Type)
    (fcluster : Linkage -> Q -> list nat) (maxdists : Linkage -> list Q)
    (link : Linkage) (common_genes : list string)
    (complexes : list (string * list string)) : Prop :=
  forall st out max_thresh complex comp_genes,
    Np.maxQ (maxdists link) = Some max_thresh ->
    scan_complexes fcluster maxdists link common_genes complexes = Some st ->
    get_first_level_clusters fcluster maxdists link common_genes complexes =
      Some out ->
    In (complex, comp_genes) complexes ->
    (forall t cl j,
       In t (thresholds max_thresh) -> cluster_at fcluster link t cl ->
       cand_jaccard common_genes comp_genes cl = Some j -> (j < 1 # 2)%Q) ->
    forall k gene,
      nth_error common_genes k = Some gene -> In gene comp_genes ->
      ~ In (nth k out 0) (map snd (captured_labels (assignments st))).

(** C4 as the specification words it: every item recorded for a captured
    complex carries that complex's label in the returned array. *)
Definition recorded_items_keep_label (Linkage : Type)
    (fcluster : Linkage -> Q -> list nat) (maxdists : Linkage -> list Q)
    (link : Linkage) (common_genes : list string)
    (complexes : list (string * list string)) : Prop :=
  forall st out complex label idxs k,
    scan_complexes fcluster maxdists link common_genes complexes = Some st ->
    get_first_level_clusters fcluster maxdists link common_genes complexes =
      Some out ->
    In (complex, label) (captured_labels (assignments st)) ->
    dict_get complex (assignments st) = Some idxs ->
    In k idxs ->
    nth k out 0 = label.

(** ** An executable model of the SciPy functions

    [maxdists] and [fcluster] of [scipy.cluster.hierarchy], after the
    library's documentation and its [cluster_monocrit] routine. A linkage
    over [n] items is [n - 1] rows [(left, right, distance, size)]; ids
    below [n] are items, id [n + i] is the cluster made by row [i]. The
    matcher and its theorems take the two functions as parameters; this
    model is what the concrete linkages below are run on. *)

Module SciPy.

Definition linkage : Type := list (nat * nat * Q * nat).

(** [maxdists(Z)]: for every row the largest merge distance at or below it. *)
Definition maxdists (Z : linkage) : list Q :=
  let n := S (length Z) in
  fold_left
    (fun MD row =>
       let '(lc, rc, d, _) := row in
       let below c := if c <? n then d else nth (c - n) MD d in
       MD ++ [Qmax_bool d (Qmax_bool (below lc) (below rc))])
    Z [].

Fixpoint upd (T : list nat) (i v : nat) : list nat :=
  match T, i with
  | [], _ => []
  | _ :: T', O => v :: T'
  | x :: T', S i' => x :: upd T' i' v
  end.

Definition assign_leaf (i : nat) (in_cluster : bool) (st : nat * list nat)
  : nat * list nat :=
  let k := if in_cluster then fst st else S (fst st) in
  (k, upd (snd st) i k).

(** The depth-first walk of [cluster_monocrit]: the first node met from the
    root whose maximum distance is at most the cutoff leads a flat cluster;
    a leaf met outside every such node is a cluster of its own; clusters are
    numbered from 1 in the order they are met. *)
Fixpoint monocrit (fuel : nat) (Z : linkage) (MD : list Q) (cutoff : Q)
    (n node : nat) (in_cluster : bool) (st : nat * list nat)
  : nat * list nat :=
  match fuel with
  | O => st
  | S fuel' =>
      match nth_error Z (node - n) with
      | None => st
      | Some (lc, rc, _, _) =>
          let found :=
            negb in_cluster && Qle_bool (nth (node - n) MD 0%Q) cutoff in
          let inside := in_cluster || found in
          let st1 := (if found then S (fst st) else fst st, snd st) in
          let st2 :=
            if n <=? lc then monocrit fuel' Z MD cutoff n lc inside st1
            else st1 in
          let st3 :=
            if n <=? rc then monocrit fuel' Z MD cutoff n rc inside st2
            else st2 in
          let st4 := if lc <? n then assign_leaf lc inside st3 else st3 in
          if rc <? n then assign_leaf rc inside st4 else st4
      end
  end.

(** [fcluster(Z, t, criterion="distance")] *)
Definition fcluster (Z : linkage) (t : Q) : list nat :=
  let n := S (length Z) in
  snd (monocrit n Z (maxdists Z) t n (2 * n - 2) false (0, repeat 0 n)).

Abbreviation run := (get_first_level_clusters fcluster maxdists).

Abbreviation run_scan := (scan_complexes fcluster maxdists).

End SciPy.

(** ** Concrete linkages *)

Module Demo.

(** Five items merged at distances 0.1, 0.2, 0.5 and 0.9. *)
Definition link5 : SciPy.linkage :=
  [ (0, 1, (1 # 10)%Q, 2); (2, 3, (2 # 10)%Q, 2); (5, 6, (5 # 10)%Q, 4);
    (4, 7, (9 # 10)%Q, 5) ].

Definition genes5 : list string :=
  ["g0"; "g1"; "g2"; "g3"; "g4"]%string.

Definition complexes5 : list (string * list string) :=
  [ ("CPX-A", ["g0"; "g1"]) ]%string.

(** Three items: 0 and 1 merge at 0.1, item 2 joins at 0.9. *)
Definition link3 : SciPy.linkage :=
  [ (0, 1, (1 # 10)%Q, 2); (2, 3, (9 # 10)%Q, 3) ].

Definition genes3 : list string := ["g0"; "g1"; "g2"]%string.

(** Two overlapping complexes: the first is matched exactly by the cluster
    of items 0 and 1, the second never reaches the gate. *)
Definition complexes3 : list (string * list string) :=
  [ ("CPX-B", ["g0"; "g1"]);
    ("CPX-A", ["g0"; "g2"; "x1"; "x2"; "x3"; "x4"]) ]%string.

(** Two nested complexes, both matched exactly. *)
Definition complexes3n : list (string * list string) :=
  [ ("CPX-B", ["g0"; "g1"]); ("CPX-C", ["g0"; "g1"; "g2"]) ]%string.

(** A complex that never reaches the gate, alone. *)
Definition complexes3a : list (string * list string) :=
  [ ("CPX-A", ["g0"; "g2"; "x1"; "x2"; "x3"; "x4"]) ]%string.

Definition genes_A : list string :=
  ["g0"; "g2"; "x1"; "x2"; "x3"; "x4"]%string.

(** Levels that do not form a hierarchy (finest first). *)
Definition crossing_levels : list (list nat) := [ [1; 2; 2]; [1; 1; 2] ].

Definition names3 : list string := ["A"; "B"; "C"]%string.

(** The locals at the end of the scans of the complexes above. *)
Definition st5 : locals :=
  {| assignments := [("CPX-A"%string, [0; 1])];
     highest_thresh := (999 # 9990)%Q;
     best_jaccard := (2 # 2)%Q |}.

Definition st3 : locals :=
  {| assignments := [("CPX-B"%string, [0; 1])];
     highest_thresh := (999 # 9990)%Q;
     best_jaccard := 0%Q |}.

Definition st3n : locals :=
  {| assignments := [("CPX-B"%string, [0; 1]); ("CPX-C"%string, [0; 1; 2])];
     highest_thresh := (9 # 10)%Q;
     best_jaccard := (3 # 3)%Q |}.

(** Singletons, a middle level and one cluster (finest first). *)
Definition nested_levels : list (list nat) :=
  [ [1; 2; 3]; [1; 1; 2]; [1; 1; 1] ].

End Demo.

(** ** The cells around the two routines

    The circle-packing notebook builds the item set, calls the matcher, puts
    its result between two fixed cuts of the linkage and serializes the
    three levels under the mapped gene names. *)

Module Notebook.

(** [ts_genes_in_biop = np.intersect1d(ts_genes, bioprocess_genes)], then
    [common_genes = np.intersect1d(ts_genes_in_biop, list(features.index))] *)
Definition common_genes (ts_genes bioprocess_genes index : list string)
  : list string :=
  let ts_genes_in_biop := Np.intersect1d ts_genes bioprocess_genes in
  Np.intersect1d ts_genes_in_biop index.

(** [orf2name_mapper[gene]], and [gene in orf2name_mapper] when the result
    is not [None]. *)
Fixpoint mapper_get (gene : string) (mapper : list (string * string))
  : option string :=
  match mapper with
  | [] => None
  | (orf, name) :: mapper' =>
      if String.eqb gene orf then Some name else mapper_get gene mapper'
  end.

(** [[orf2name_mapper[gene] if gene in orf2name_mapper else gene
      for gene in common_genes]] *)
Definition mapped_genes (orf2name_mapper : list (string * string))
    (genes : list string) : list string :=
  map
    (fun gene =>
       match mapper_get gene orf2name_mapper with
       | Some name => name
       | None => gene
       end)
    genes.

Section Cells.
Variable Linkage : Type.
Variable fcluster : Linkage -> Q -> list nat.
Variable maxdists : Linkage -> list Q.
Variable link : Linkage.
Variable genes : list string.
Variable orf2name_mapper : list (string * string).

(** [clusters = [zeroth_level_clusters, first_level_clusters,
                 second_level_clusters]] *)
Definition clusters (complexes : list (string * list string))
  : option (list (list nat)) :=
  first_level_clusters <-
    get_first_level_clusters fcluster maxdists link genes complexes ;;
  let second_level_clusters := fcluster link (9 # 10)%Q in
  let zeroth_level_clusters := fcluster link 0%Q in
  Some [zeroth_level_clusters; first_level_clusters; second_level_clusters].

(** [data = create_data_structure(clusters)] *)
Definition data (complexes : list (string * list string))
  : option py_value :=
  clusters <- clusters complexes ;;
  create_data_structure (mapped_genes orf2name_mapper genes) clusters.

End Cells.

End Notebook.

(** A tree of the serializer's output format: every leaf sits [depth]
    levels below the root, carries the value 1 and one of [names]; every
    other node is named by the empty string. *)
Fixpoint well_formed (names : list string) (depth : nat) (t : tree) : bool :=
  match t with
  | Leaf name value =>
      (depth =? 0) && (value =? 1) && Np.mem_str name names
  | Node name children =>
      String.eqb name "" &&
      match depth with
      | O => false
      | S depth' => forallb (well_formed names depth') children
      end
  end.

(** ** Node subsampling of the scaling experiment

    A network enters these cells through its node list only: [net.nodes()]
    is a list of distinct strings, adding self loops leaves it unchanged,
    and [net.subgraph(nodes)] keeps the nodes of [net] found in [nodes]. *)

Module Sampling.

(** [reduce(np.union1d, lists)]: raises on an empty list and returns the
    only element of a one-element list as it is. *)
Definition reduce_union1d (lists : list (list string))
  : option (list string) :=
  match lists with
  | [] => None
  | first :: rest => Some (fold_left Np.union1d rest first)
  end.

(** [list(net.subgraph(nodes).nodes())] *)
Definition subgraph_nodes (net nodes : list string) : list string :=
  filter (fun v => Np.mem_str v nodes) net.

(** [for net in nets:
       common_nodes = np.intersect1d(node_sample, list(net.nodes()))
       sampled.append(net.subgraph(common_nodes))] *)
Definition subsample (nets : list (list string)) (node_sample : list string)
  : list (list string) :=
  map
    (fun net =>
       let common_nodes := Np.intersect1d node_sample net in
       subgraph_nodes net common_nodes)
    nets.

(** [len(reduce(np.union1d, [list(net.nodes()) for net in sampled]))] *)
Definition total_nodes (sampled : list (list string)) : option nat :=
  nodes <- reduce_union1d sampled ;;
  Some (length nodes).

(** What [random.sample(population, k)] may return: [k] entries taken from
    distinct positions of the population. *)
Definition sample_of (population : list string) (k : nat)
    (sample : list string) : Prop :=
  length sample = k /\ exists unused, Permutation (sample ++ unused) population.

End Sampling.

(** ** Train / test splits of the evaluation standards *)

Module Splitting.

Section PyDict.
Variable V : Type.

(** [d[k] = v] on a dict with values of any type. *)
Fixpoint py_set (k : string) (v : V) (d : list (string * V))
  : list (string * V) :=
  match d with
  | [] => [(k, v)]
  | (k', v') :: d' =>
      if String.eqb k k' then (k', v) :: d' else (k', v') :: py_set k v d'
  end.

(** [{k: v for k, v in standard.items() if keep(k)}] *)
Definition comprehension (keep : string -> bool) (standard : list (string * V))
  : list (string * V) :=
  fold_left
    (fun d item => if keep (fst item) then py_set (fst item) (snd item) d else d)
    standard [].

End PyDict.

(** The co-annotation standard is a table; a row is the list of its
    columns, so that [row[1]] and [row[2]] of [itertuples] are the columns
    0 and 1 and [row[1:]] is the whole list. *)
Definition split_coannotation (standard : list (list string))
    (test_genes : list string) : option (list (list string)) :=
  foldM
    (fun test_standard row =>
       gene_1 <- nth_error row 0 ;;
       gene_2 <- nth_error row 1 ;;
       if Np.mem_str gene_1 test_genes || Np.mem_str gene_2 test_genes
       then Some (test_standard ++ [row])
       else Some test_standard)
    standard [].

(** Body of [for module, genes in standard.items()], on the pair
    [(test_standard, standard_genes)]. *)
Definition split_module_body (test_genes : list string)
    (st : list (string * list string) * list string)
    (item : string * list string)
  : list (string * list string) * list string :=
  let module := fst item in
  let genes := snd item in
  let standard_genes := snd st ++ genes in
  let genes_ := nodup string_dec genes in
  if 0 <? length (filter (fun g => Np.mem_str g test_genes) genes_)
  then (py_set module genes (fst st), standard_genes)
  else (fst st, standard_genes).

(** The [test_standard] that [split_module] writes. *)
Definition split_module (standard : list (string * list string))
    (test_genes : list string) : list (string * list string) :=
  fst (fold_left (split_module_body test_genes) standard ([], [])).

(** The pair [(test_standard, train_standard)] that [split_supervised]
    writes. *)
Definition split_supervised (standard : list (string * list string))
    (test_genes : list string)
  : list (string * list string) * list (string * list string) :=
  let test_standard :=
    comprehension (fun gene => Np.mem_str gene test_genes) standard in
  let train_standard :=
    comprehension (fun gene => negb (Np.mem_str gene test_genes)) standard in
  (test_standard, train_standard).

Definition test_size : Q := (2 # 10)%Q.

(** [math.floor((1 - test_size) * len(shuffled_genes))]. The double nearest
    to 0.8 exceeds 0.8 by less than one part in 2^54, so the floating-point
    product has the floor of the exact one for every length a list can
    have. *)
Definition train_size (len : nat) : nat :=
  Z.to_nat (Qfloor ((1 - test_size) * inject_Z (Z.of_nat len))%Q).

(** [train_genes = shuffled_genes[:train_size]] and
    [test_genes = set(shuffled_genes[train_size:])] *)
Definition split_genes (shuffled_genes : list string)
  : list string * list string :=
  let train_size := train_size (length shuffled_genes) in
  (firstn train_size shuffled_genes, skipn train_size shuffled_genes).

(** One trial on the gene function standard: [shuffled_genes] is what
    [np.random.shuffle] left of [list(set(supervised.keys()))]. *)
Definition supervised_trial (supervised : list (string * list string))
    (shuffled_genes : list string)
  : list (string * list string) * list (string * list string) :=
  let test_genes := snd (split_genes shuffled_genes) in
  split_supervised supervised test_genes.

End Splitting.

(** ** Concrete inputs of the surrounding cells *)

Module Demo2.

Definition ts_genes : list string := ["g2"; "g0"; "g1"; "g7"]%string.

Definition bioprocess_genes : list string :=
  ["g1"; "g0"; "g2"; "g2"; "g8"]%string.

Definition index : list string := ["g0"; "g1"; "g2"; "g9"]%string.

Definition orf2name_mapper : list (string * string) :=
  [("g0", "ALG1"); ("g2", "SEC61")]%string.

Definition nets : list (list string) :=
  [ ["a"; "b"; "c"]; ["d"; "b"]; ["e"; "a"] ]%string.

Definition node_sample : list string := ["e"; "b"; "a"]%string.

Definition modules : list (string * list string) :=
  [ ("M1", ["g0"; "g1"]); ("M2", ["g2"; "g3"]); ("M3", ["g1"; "g4"; "g4"]) ]%string.

Definition supervised : list (string * list string) :=
  [ ("g0", ["CPX-1"]); ("g1", ["CPX-1"; "CPX-2"]); ("g2", ["CPX-2"]);
    ("g3", ["CPX-3"]); ("g4", ["CPX-3"]); ("g5", ["CPX-3"]) ]%string.

Definition shuffled_genes : list string :=
  ["g3"; "g0"; "g5"; "g2"; "g4"; "g1"]%string.

Definition coannotation : list (list string) :=
  [ ["g0"; "g1"; "1"]; ["g2"; "g3"; "0"]; ["g4"; "g1"; "1"] ]%string.

(** The tree of [Demo.nested_levels] over [Demo.names3]. *)
Definition nested_tree : tree :=
  Node ""
    [ Node ""
        [ Node "" [Leaf "A" 1; Leaf "B" 1];
          Node "" [Leaf "C" 1] ] ]%string.

End Demo2.


(** ** A linkage in the subnormal range *)

Module DemoTiny.

(** 1501 times the smallest positive double. *)
Definition tiny : Q := 1501 # (2 ^ 1074).




(** The locals at the end of the scan of [complexes2] on the binary64
    grid: the match is found at point 751, which is 1502 times the smallest
    positive double. *)
Definition st2 : locals :=
  {| assignments := [("CPX-A"%string, [0; 1])];
     highest_thresh := 1502 # (2 ^ 1074);
     best_jaccard := (2 # 2)%Q |}.


End DemoTiny.

(** * Properties *)

(** [refines] between two short concrete levels, by cases on the indices. *)
Ltac refines_by_cases :=
  let i := fresh "i" in
  let j := fresh "j" in
  intros i j ? ?;
  do 4 (try destruct i as [|i]); simpl; try discriminate;
  do 4 (try destruct j as [|j]); simpl; try discriminate;
  congruence.

(** ** The error monad and its loops *)

Lemma bind_Some {A B : Type} (m : option A) (k : A -> option B) (b : B) :
  bind m k = Some b <-> exists a, m = Some a /\ k a = Some b.
Proof.
  destruct m as [a|]; simpl; split.
  - intros H. exists a. auto.
  - intros [a' [Ha Hk]]. inversion Ha. subst. exact Hk.
  - discriminate.
  - intros [a' [Ha _]]. discriminate.
Qed.

Lemma foldM_app {A S : Type} (body : S -> A -> option S) (l1 l2 : list A)
    (st : S) :
  foldM body (l1 ++ l2) st = (st1 <- foldM body l1 st ;; foldM body l2 st1).
Proof.
  revert st. induction l1 as [|a l1 IH]; intros st; simpl.
  - reflexivity.
  - destruct (body st a) as [st'|]; simpl; auto.
Qed.

Lemma foldM_ext {A S : Type} (f g : S -> A -> option S) (l : list A) (st : S) :
  (forall s a, In a l -> f s a = g s a) -> foldM f l st = foldM g l st.
Proof.
  revert st. induction l as [|a l IH]; intros st H; simpl.
  - reflexivity.
  - rewrite (H st a (or_introl eq_refl)).
    destruct (g st a) as [st'|]; simpl; auto.
    apply IH. intros s b Hb. apply H. now right.
Qed.

(** An invariant kept by every iteration holds when the loop ends. *)
Lemma foldM_inv {A S : Type} (P : S -> Prop) (body : S -> A -> option S)
    (l : list A) :
  (forall s a s', In a l -> P s -> body s a = Some s' -> P s') ->
  forall st st', P st -> foldM body l st = Some st' -> P st'.
Proof.
  induction l as [|a l IH]; intros Hstep st st' HP Hrun; simpl in Hrun.
  - inversion Hrun. subst. exact HP.
  - apply bind_Some in Hrun. destruct Hrun as [s1 [H1 H2]].
    apply (IH (fun s b s' Hb => Hstep s b s' (or_intror Hb)) s1 st');
      [|exact H2].
    exact (Hstep st a s1 (or_introl eq_refl) HP H1).
Qed.

(** A reflexive and transitive relation that every iteration respects
    relates the state before the loop to the state after it. *)
Lemma foldM_rel {A S : Type} (R : S -> S -> Prop) (body : S -> A -> option S)
    (l : list A) :
  (forall s, R s s) ->
  (forall s1 s2 s3, R s1 s2 -> R s2 s3 -> R s1 s3) ->
  (forall s a s', In a l -> body s a = Some s' -> R s s') ->
  forall st st', foldM body l st = Some st' -> R st st'.
Proof.
  intros Hrefl Htrans Hstep st st' Hrun.
  apply (foldM_inv (R st) body l) with (st := st); auto.
  intros s a s' Ha HR Hb. eapply Htrans; [exact HR|]. eapply Hstep; eauto.
Qed.

Lemma foldM_flat_map {A B S : Type} (body : S -> B -> option S)
    (f : A -> list B) (l : list A) (st : S) :
  foldM body (flat_map f l) st = foldM (fun s a => foldM body (f a) s) l st.
Proof.
  revert st. induction l as [|a l IH]; intros st; simpl.
  - reflexivity.
  - rewrite foldM_app.
    destruct (foldM body (f a) st) as [s1|]; simpl; auto.
Qed.

Lemma foldM_map {A B S : Type} (body : S -> B -> option S) (g : A -> B)
    (l : list A) (st : S) :
  foldM body (map g l) st = foldM (fun s a => body s (g a)) l st.
Proof.
  revert st. induction l as [|a l IH]; intros st; simpl.
  - reflexivity.
  - destruct (body st (g a)) as [s1|]; simpl; auto.
Qed.

Lemma foldM_filter {A S : Type} (body : S -> A -> option S) (p : A -> bool)
    (l : list A) (st : S) :
  foldM body (filter p l) st =
  foldM (fun s a => if p a then body s a else Some s) l st.
Proof.
  revert st. induction l as [|a l IH]; intros st; simpl.
  - reflexivity.
  - destruct (p a); simpl.
    + destruct (body st a) as [s1|]; simpl; auto.
    + apply IH.
Qed.

Lemma mapM_Some {A B : Type} (f : A -> option B) (l : list A) (bs : list B) :
  mapM f l = Some bs -> Forall2 (fun a b => f a = Some b) l bs.
Proof.
  revert bs. induction l as [|a l IH]; intros bs H; simpl in H.
  - inversion H. constructor.
  - apply bind_Some in H. destruct H as [b [Hb H]].
    apply bind_Some in H. destruct H as [bs' [Hbs H]].
    inversion H. subst. constructor; auto.
Qed.

Lemma mapM_total {A B : Type} (f : A -> option B) (l : list A) :
  (forall a, In a l -> exists b, f a = Some b) -> exists bs, mapM f l = Some bs.
Proof.
  induction l as [|a l IH]; intros H; simpl.
  - eexists. reflexivity.
  - destruct (H a (or_introl eq_refl)) as [b Hb]. rewrite Hb. simpl.
    destruct IH as [bs Hbs]; [intros x Hx; apply H; now right|].
    rewrite Hbs. simpl. eexists. reflexivity.
Qed.

Lemma mapM_In {A B : Type} (f : A -> option B) (l : list A) (bs : list B) :
  mapM f l = Some bs -> forall a, In a l -> exists b, f a = Some b.
Proof.
  intros H. apply mapM_Some in H.
  induction H as [|a b l bs Hab _ IH]; intros x Hx.
  - destruct Hx.
  - destruct Hx as [<-|Hx]; eauto.
Qed.

(** ** Rational comparisons *)

Lemma Qlt_bool_iff (a b : Q) : Qlt_bool a b = true <-> (a < b)%Q.
Proof.
  unfold Qlt_bool. rewrite negb_true_iff. split.
  - intros H. apply Qnot_le_lt. intros Hle.
    apply Qle_bool_iff in Hle. congruence.
  - intros H. destruct (Qle_bool b a) eqn:E; auto.
    apply Qle_bool_iff in E. exfalso. exact (Qlt_not_le _ _ H E).
Qed.

Lemma Qlt_bool_false (a b : Q) : Qlt_bool a b = false <-> (b <= a)%Q.
Proof.
  unfold Qlt_bool. rewrite negb_false_iff. apply Qle_bool_iff.
Qed.

Lemma Qle_bool_false (a b : Q) : Qle_bool a b = false <-> (b < a)%Q.
Proof.
  split.
  - intros H. apply Qnot_le_lt. intros Hle.
    apply Qle_bool_iff in Hle. congruence.
  - intros H. destruct (Qle_bool a b) eqn:E; auto.
    apply Qle_bool_iff in E. exfalso. exact (Qlt_not_le _ _ H E).
Qed.

(** ** The evenly spaced thresholds *)

Lemma linspace_In (start stop : Q) (num : nat) (t : Q) :
  In t (Np.linspace start stop num) ->
  t = stop \/
  exists i, i < num - 1 /\
    t = (start + inject_Z (Z.of_nat i) *
           ((stop - start) / inject_Z (Z.of_nat (num - 1))))%Q.
Proof.
  unfold Np.linspace. intros H. apply in_app_or in H. destruct H as [H|H].
  - right. apply in_map_iff in H. destruct H as [i [Hi Hin]].
    apply in_seq in Hin. exists i. split; [lia|auto].
  - left. destruct H as [H|[]]. auto.
Qed.

Lemma linspace_length (start stop : Q) (num : nat) :
  1 <= num -> length (Np.linspace start stop num) = num.
Proof.
  intros H. unfold Np.linspace.
  rewrite length_app, length_map, length_seq. simpl. lia.
Qed.

Lemma linspace_step_nonneg (start stop : Q) (n : nat) :
  (start <= stop)%Q -> (0 <= (stop - start) / inject_Z (Z.of_nat n))%Q.
Proof.
  intros H. destruct n as [|n].
  - simpl. unfold Qdiv. rewrite Qmult_0_r. apply Qle_refl.
  - apply Qle_shift_div_l.
    + change 0%Q with (inject_Z 0). rewrite <- Zlt_Qlt. lia.
    + rewrite Qmult_0_l. now apply -> Qle_minus_iff.
Qed.

Lemma linspace_point_le_stop (start stop : Q) (n i : nat) :
  (start <= stop)%Q -> i < n ->
  (start + inject_Z (Z.of_nat i) * ((stop - start) / inject_Z (Z.of_nat n))
   <= stop)%Q.
Proof.
  intros Hle Hi.
  assert (Hn : (0 < inject_Z (Z.of_nat n))%Q).
  { change 0%Q with (inject_Z 0). rewrite <- Zlt_Qlt. lia. }
  assert (Hstep := linspace_step_nonneg n Hle).
  apply Qle_trans with
    (start + inject_Z (Z.of_nat n) *
               ((stop - start) / inject_Z (Z.of_nat n)))%Q.
  - apply Qplus_le_r. apply Qmult_le_compat_r; [|exact Hstep].
    rewrite <- Zle_Qle. lia.
  - rewrite Qmult_div_r.
    + ring_simplify. apply Qle_refl.
    + intros E. rewrite E in Hn. exact (Qlt_irrefl _ Hn).
Qed.

Lemma linspace_point_ge_start (start stop : Q) (n i : nat) :
  (start <= stop)%Q ->
  (start <=
   start + inject_Z (Z.of_nat i) * ((stop - start) / inject_Z (Z.of_nat n)))%Q.
Proof.
  intros Hle.
  rewrite <- (Qplus_0_r start) at 1. apply Qplus_le_r.
  apply Qmult_le_0_compat.
  - change 0%Q with (inject_Z 0). rewrite <- Zle_Qle. lia.
  - now apply linspace_step_nonneg.
Qed.

Lemma linspace_bounds (start stop : Q) (num : nat) (t : Q) :
  (start <= stop)%Q -> In t (Np.linspace start stop num) ->
  (start <= t <= stop)%Q.
Proof.
  intros Hle Hin. apply linspace_In in Hin.
  destruct Hin as [->|[i [Hi ->]]].
  - split; [exact Hle|apply Qle_refl].
  - split.
    + now apply linspace_point_ge_start.
    + now apply linspace_point_le_stop.
Qed.

Lemma StronglySorted_map_seq {B : Type} (R : B -> B -> Prop) (f : nat -> B)
    (a k : nat) :
  (forall i j, i <= j -> R (f i) (f j)) ->
  StronglySorted R (map f (seq a k)).
Proof.
  intros Hmono. revert a. induction k as [|k IH]; intros a; simpl.
  - constructor.
  - constructor; [apply IH|].
    apply Forall_forall. intros y Hy. apply in_map_iff in Hy.
    destruct Hy as [j [<- Hj]]. apply in_seq in Hj. apply Hmono. lia.
Qed.

Lemma StronglySorted_snoc {B : Type} (R : B -> B -> Prop) (l : list B) (y : B) :
  StronglySorted R l -> Forall (fun x => R x y) l ->
  StronglySorted R (l ++ [y]).
Proof.
  induction 1 as [|x l Hl IH Hx]; intros Hy; simpl.
  - constructor; constructor.
  - inversion Hy; subst. constructor; [auto|].
    apply Forall_app. split; [exact Hx|]. constructor; auto.
Qed.

Lemma StronglySorted_split {B : Type} (R : B -> B -> Prop)
    (pre post : list B) (t : B) :
  StronglySorted R (pre ++ t :: post) -> Forall (R t) post.
Proof.
  induction pre as [|p pre IH]; simpl; intros H; inversion H; subst; auto.
Qed.

Lemma linspace_StronglySorted (start stop : Q) (num : nat) :
  (start <= stop)%Q -> StronglySorted Qle (Np.linspace start stop num).
Proof.
  intros Hle. unfold Np.linspace. apply StronglySorted_snoc.
  - apply StronglySorted_map_seq. intros i j Hij.
    apply Qplus_le_r. apply Qmult_le_compat_r.
    + rewrite <- Zle_Qle. lia.
    + now apply linspace_step_nonneg.
  - apply Forall_forall. intros x Hx. apply in_map_iff in Hx.
    destruct Hx as [j [<- Hj]]. apply in_seq in Hj.
    apply linspace_point_le_stop; [auto|lia].
Qed.

(** ** NumPy primitives *)

Lemma sort_Permutation {A : Type} (leb : A -> A -> bool) (l : list A) :
  Permutation (Np.sort leb l) l.
Proof.
  assert (Hins : forall x l', Permutation (Np.insert_sorted leb x l') (x :: l')).
  { intros x l'. induction l' as [|y l' IH]; simpl.
    - apply Permutation_refl.
    - destruct (leb x y).
      + apply Permutation_refl.
      + eapply Permutation_trans; [apply perm_skip, IH|apply perm_swap]. }
  induction l as [|x l IH]; simpl.
  - apply Permutation_refl.
  - eapply Permutation_trans; [apply Hins|]. now apply perm_skip.
Qed.

Lemma unique_In (a : list nat) (x : nat) : In x (Np.unique a) <-> In x a.
Proof.
  unfold Np.unique. split; intros H.
  - apply (Permutation_in _ (sort_Permutation _ _)) in H.
    now apply nodup_In in H.
  - apply (Permutation_in _ (Permutation_sym (sort_Permutation _ _))).
    now apply nodup_In.
Qed.

Lemma unique_NoDup (a : list nat) : NoDup (Np.unique a).
Proof.
  unfold Np.unique.
  apply (Permutation_NoDup (Permutation_sym (sort_Permutation _ _))).
  apply NoDup_nodup.
Qed.

Lemma unique_str_In (a : list string) (x : string) :
  In x (Np.unique_str a) <-> In x a.
Proof.
  unfold Np.unique_str. split; intros H.
  - apply (Permutation_in _ (sort_Permutation _ _)) in H.
    now apply nodup_In in H.
  - apply (Permutation_in _ (Permutation_sym (sort_Permutation _ _))).
    now apply nodup_In.
Qed.

Lemma unique_str_NoDup (a : list string) : NoDup (Np.unique_str a).
Proof.
  unfold Np.unique_str.
  apply (Permutation_NoDup (Permutation_sym (sort_Permutation _ _))).
  apply NoDup_nodup.
Qed.

Lemma mem_str_In (g : string) (a : list string) :
  Np.mem_str g a = true <-> In g a.
Proof.
  unfold Np.mem_str. rewrite existsb_exists. split.
  - intros [x [Hx E]]. apply String.eqb_eq in E. now subst.
  - intros H. exists g. split; [exact H|apply String.eqb_refl].
Qed.

Lemma intersect1d_In (a b : list string) (x : string) :
  In x (Np.intersect1d a b) <-> In x a /\ In x b.
Proof.
  unfold Np.intersect1d. rewrite unique_str_In, filter_In, mem_str_In.
  reflexivity.
Qed.

Lemma union1d_In (a b : list string) (x : string) :
  In x (Np.union1d a b) <-> In x a \/ In x b.
Proof.
  unfold Np.union1d. rewrite unique_str_In. apply in_app_iff.
Qed.

(** A duplicate-free list has two members exactly when it holds two
    different values. *)
Lemma NoDup_two {A : Type} (l : list A) :
  NoDup l ->
  (2 <= length l <-> exists x y, x <> y /\ In x l /\ In y l).
Proof.
  intros Hnd. split.
  - destruct l as [|x [|y l]]; simpl; try lia. intros _.
    exists x, y. inversion Hnd; subst. split; [|auto].
    intros ->. apply H1. now left.
  - intros [x [y [Hxy [Hx Hy]]]].
    destruct l as [|a [|b l]].
    + destruct Hx.
    + destruct Hx as [<-|[]], Hy as [<-|[]]. now elim Hxy.
    + simpl. lia.
Qed.

(** "At least two of the complex's genes are present in the item set." *)
Lemma intersect1d_two (comp_genes common_genes : list string) :
  2 <= length (Np.intersect1d comp_genes common_genes) <->
  exists g1 g2, g1 <> g2 /\
    In g1 comp_genes /\ In g1 common_genes /\
    In g2 comp_genes /\ In g2 common_genes.
Proof.
  rewrite NoDup_two by apply unique_str_NoDup.
  split; intros [x [y [Hxy [Hx Hy]]]]; exists x, y.
  - apply intersect1d_In in Hx, Hy. tauto.
  - rewrite !intersect1d_In. tauto.
Qed.

Lemma combine_seq_In {A : Type} (a : list A) (s i : nat) (x : A) :
  In (i, x) (combine (seq s (length a)) a) <->
  s <= i /\ nth_error a (i - s) = Some x.
Proof.
  revert s. induction a as [|y a IH]; intros s; simpl.
  - split; [intros []|]. intros [_ H]. destruct (i - s); discriminate.
  - rewrite IH. split.
    + intros [H|[Hle H]].
      * inversion H. subst. rewrite Nat.sub_diag. simpl. auto.
      * split; [lia|]. replace (i - s) with (S (i - S s)) by lia. exact H.
    + intros [Hle H]. destruct (i - s) as [|k] eqn:E.
      * left. simpl in H. inversion H. f_equal. lia.
      * right. split; [lia|]. simpl in H.
        replace (i - S s) with k by lia. exact H.
Qed.

Lemma enumerate_In {A : Type} (a : list A) (i : nat) (x : A) :
  In (i, x) (enumerate a) <-> nth_error a i = Some x.
Proof.
  unfold enumerate. rewrite combine_seq_In, Nat.sub_0_r.
  split; [tauto|]. split; [lia|auto].
Qed.

Lemma argwhere_eq_In (a : list nat) (v i : nat) :
  In i (Np.argwhere_eq a v) <-> nth_error a i = Some v.
Proof.
  unfold Np.argwhere_eq. rewrite in_map_iff. split.
  - intros [[i' x] [E H]]. simpl in E. subst i'.
    apply filter_In in H. destruct H as [H Hx]. simpl in Hx.
    apply Nat.eqb_eq in Hx. subst x. now apply enumerate_In in H.
  - intros H. exists (i, v). split; [reflexivity|].
    apply filter_In. split; [now apply enumerate_In|].
    simpl. apply Nat.eqb_refl.
Qed.

Lemma NoDup_map_fst_filter_combine_seq {A : Type} (p : nat * A -> bool)
    (a : list A) (s : nat) :
  NoDup (map fst (filter p (combine (seq s (length a)) a))).
Proof.
  revert s. induction a as [|y a IH]; intros s; simpl.
  - constructor.
  - destruct (p (s, y)); simpl; [|apply IH].
    constructor; [|apply IH].
    intros H. apply in_map_iff in H. destruct H as [[i x] [E H]].
    simpl in E. subst i. apply filter_In in H. destruct H as [H _].
    apply combine_seq_In in H. lia.
Qed.

Lemma argwhere_eq_NoDup (a : list nat) (v : nat) : NoDup (Np.argwhere_eq a v).
Proof. apply NoDup_map_fst_filter_combine_seq. Qed.

Lemma nonzero_In (a : list nat) (i : nat) :
  In i (Np.nonzero a) <-> exists x, nth_error a i = Some x /\ x <> 0.
Proof.
  unfold Np.nonzero. rewrite in_map_iff. split.
  - intros [[i' x] [E H]]. simpl in E. subst i'.
    apply filter_In in H. destruct H as [H Hx]. simpl in Hx.
    apply negb_true_iff, Nat.eqb_neq in Hx.
    exists x. split; [now apply enumerate_In in H|exact Hx].
  - intros [x [H Hx]]. exists (i, x). split; [reflexivity|].
    apply filter_In. split; [now apply enumerate_In|].
    simpl. now apply negb_true_iff, Nat.eqb_neq.
Qed.

Lemma take_Some {A : Type} (a : list A) (idxs : list nat) (xs : list A) :
  Np.take a idxs = Some xs -> forall i, In i idxs -> i < length a.
Proof.
  intros H i Hi. destruct (mapM_In _ _ H i Hi) as [x Hx].
  apply nth_error_Some. congruence.
Qed.

Lemma take_total {A : Type} (a : list A) (idxs : list nat) :
  (forall i, In i idxs -> i < length a) -> exists xs, Np.take a idxs = Some xs.
Proof.
  intros H. apply mapM_total. intros i Hi.
  destruct (nth_error a i) eqn:E; [eauto|].
  apply nth_error_None in E. specialize (H i Hi). lia.
Qed.

(** ** The dict *)

Lemma dict_set_set (k : string) (v1 v2 : list nat) (d : dict) :
  dict_set k v2 (dict_set k v1 d) = dict_set k v2 d.
Proof.
  induction d as [|[k' v'] d IH]; simpl.
  - rewrite String.eqb_refl. reflexivity.
  - destruct (String.eqb k k') eqn:E; simpl; rewrite E; [reflexivity|].
    now rewrite IH.
Qed.

Lemma dict_set_fresh (k : string) (v : list nat) (d : dict) :
  ~ In k (dict_keys d) -> dict_set k v d = d ++ [(k, v)].
Proof.
  induction d as [|[k' v'] d IH]; simpl; intros H.
  - reflexivity.
  - destruct (String.eqb_spec k k') as [->|_]; [tauto|].
    rewrite IH; [reflexivity|tauto].
Qed.

Lemma dict_get_In (k : string) (d : dict) :
  In k (dict_keys d) <-> exists v, dict_get k d = Some v.
Proof.
  induction d as [|[k' v'] d IH]; simpl.
  - split; [intros []|intros [v H]; discriminate].
  - destruct (String.eqb_spec k k') as [->|Hne].
    + split; eauto.
    + rewrite <- IH. split; [intros [E|H]; [congruence|auto]|auto].
Qed.

Lemma dict_get_app_fresh (k : string) (d1 d2 : dict) :
  ~ In k (dict_keys d1) -> dict_get k (d1 ++ d2) = dict_get k d2.
Proof.
  induction d1 as [|[k' v'] d1 IH]; simpl; intros H.
  - reflexivity.
  - destruct (String.eqb_spec k k') as [->|_]; [tauto|]. apply IH. tauto.
Qed.

Lemma dict_get_NoDup (k : string) (v : list nat) (d : dict) :
  NoDup (dict_keys d) -> (dict_get k d = Some v <-> In (k, v) d).
Proof.
  induction d as [|[k' v'] d IH]; simpl; intros Hnd.
  - split; [discriminate|intros []].
  - inversion Hnd as [|? ? Hnotin Hnd']; subst.
    destruct (String.eqb_spec k k') as [->|Hne].
    + split.
      * intros H. inversion H. now left.
      * intros [H|H]; [congruence|].
        elim Hnotin. unfold dict_keys. apply in_map_iff.
        exists (k', v). auto.
    + rewrite (IH Hnd'). split; [auto|]. intros [H|H]; [congruence|auto].
Qed.

(** Two ways of cutting one list at an element. *)
Lemma split_compare {A : Type} (pre pre' post post' : list A) (x x' : A) :
  pre ++ x :: post = pre' ++ x' :: post' ->
  (pre = pre' /\ x = x' /\ post = post') \/
  (In x pre' /\ In x' post) \/
  (In x' pre /\ In x post').
Proof.
  revert pre'. induction pre as [|a pre IH]; intros pre' E.
  - destruct pre' as [|a' pre']; simpl in E; inversion E; subst.
    + auto.
    + right. left. split; [now left|]. apply in_or_app. right. now left.
  - destruct pre' as [|a' pre']; simpl in E; inversion E; subst.
    + right. right. split; [now left|]. apply in_or_app. right. now left.
    + destruct (IH pre' H1) as [[-> [-> ->]]|[[H H']|[H H']]]; auto.
      * right. left. split; [now right|auto].
      * right. right. split; [now right|auto].
Qed.

(** ** Array updates *)

Lemma existsb_eqb_In (k : nat) (l : list nat) :
  existsb (Nat.eqb k) l = true <-> In k l.
Proof.
  rewrite existsb_exists. split.
  - intros [x [Hx E]]. apply Nat.eqb_eq in E. now subst.
  - intros H. exists k. split; [exact H|apply Nat.eqb_refl].
Qed.

Lemma set_item_spec (a : list nat) (i v : nat) (a' : list nat) :
  Np.set_item a i v = Some a' ->
  i < length a /\ length a' = length a /\
  forall k, nth k a' 0 = if k =? i then v else nth k a 0.
Proof.
  revert i a'. induction a as [|x a IH]; intros i a' H; simpl in H.
  - discriminate.
  - destruct i as [|i].
    + inversion H. subst. simpl. split; [lia|]. split; [reflexivity|].
      intros [|k]; reflexivity.
    + apply bind_Some in H. destruct H as [a1 [H1 E]]. inversion E. subst.
      destruct (IH _ _ H1) as [Hi [Hlen Hnth]]. simpl.
      split; [lia|]. split; [lia|].
      intros [|k]; [reflexivity|]. simpl. apply Hnth.
Qed.

Lemma set_item_total (a : list nat) (i v : nat) :
  i < length a -> exists a', Np.set_item a i v = Some a'.
Proof.
  revert i. induction a as [|x a IH]; intros i H; simpl in *.
  - lia.
  - destruct i as [|i]; [eauto|].
    destruct (IH i) as [a' Ha']; [lia|]. rewrite Ha'. simpl. eauto.
Qed.

Lemma put_spec (a idxs : list nat) (v : nat) (a' : list nat) :
  Np.put a idxs v = Some a' ->
  (forall i, In i idxs -> i < length a) /\ length a' = length a /\
  forall k, nth k a' 0 = if existsb (Nat.eqb k) idxs then v else nth k a 0.
Proof.
  unfold Np.put. revert a. induction idxs as [|i idxs IH]; intros a H.
  - simpl in H. inversion H. subst. split; [intros i []|]. auto.
  - simpl in H. apply bind_Some in H. destruct H as [a1 [H1 H2]].
    apply set_item_spec in H1. destruct H1 as [Hi [Hlen1 Hnth1]].
    destruct (IH _ H2) as [Hall [Hlen Hnth]].
    split; [|split; [congruence|]].
    + intros j [<-|Hj]; [exact Hi|]. rewrite <- Hlen1. now apply Hall.
    + intros k. rewrite Hnth, Hnth1. simpl.
      destruct (Nat.eqb_spec k i) as [->|Hne]; simpl.
      * destruct (existsb (Nat.eqb i) idxs); reflexivity.
      * reflexivity.
Qed.

Lemma put_total (a idxs : list nat) (v : nat) :
  (forall i, In i idxs -> i < length a) -> exists a', Np.put a idxs v = Some a'.
Proof.
  unfold Np.put. revert a. induction idxs as [|i idxs IH]; intros a H; simpl.
  - eauto.
  - destruct (set_item_total a v (H i (or_introl eq_refl))) as [a1 Ha1].
    rewrite Ha1. simpl. apply IH. intros j Hj.
    apply set_item_spec in Ha1. destruct Ha1 as [_ [-> _]]. apply H. now right.
Qed.

Lemma put_many_spec (a idxs vals src : list nat) (a' : list nat) :
  Np.put_many a idxs vals = Some a' ->
  Forall2 (fun i v => nth_error src i = Some v) idxs vals ->
  (forall i, In i idxs -> i < length a) /\ length a' = length a /\
  forall k, nth k a' 0 =
            if existsb (Nat.eqb k) idxs then nth k src 0 else nth k a 0.
Proof.
  unfold Np.put_many. intros H HF. revert a H.
  induction HF as [|i v idxs vals Hiv HF IH]; intros a H.
  - simpl in H. inversion H. subst. split; [intros i []|]. auto.
  - simpl in H. apply bind_Some in H. destruct H as [a1 [H1 H2]].
    apply set_item_spec in H1. simpl in H1.
    destruct H1 as [Hi [Hlen1 Hnth1]].
    destruct (IH _ H2) as [Hall [Hlen Hnth]].
    split; [|split; [congruence|]].
    + intros j [<-|Hj]; [exact Hi|]. rewrite <- Hlen1. now apply Hall.
    + intros k. rewrite Hnth, Hnth1. simpl.
      destruct (Nat.eqb_spec k i) as [->|Hne]; simpl.
      * rewrite (nth_error_nth _ _ 0 Hiv).
        destruct (existsb (Nat.eqb i) idxs); reflexivity.
      * reflexivity.
Qed.

Lemma put_many_total (a idxs vals : list nat) :
  (forall i, In i idxs -> i < length a) ->
  exists a', Np.put_many a idxs vals = Some a'.
Proof.
  unfold Np.put_many. revert a vals.
  induction idxs as [|i idxs IH]; intros a vals H; simpl.
  - eauto.
  - destruct vals as [|v vals]; simpl; [eauto|].
    destruct (set_item_total a v (H i (or_introl eq_refl))) as [a1 Ha1].
    rewrite Ha1. simpl. apply IH. intros j Hj.
    apply set_item_spec in Ha1. destruct Ha1 as [_ [-> _]]. apply H. now right.
Qed.

Lemma fold_left_max_spec (l : list nat) (x : nat) :
  let m := fold_left Nat.max l x in
  x <= m /\ (forall y, In y l -> y <= m) /\ (m = x \/ In m l).
Proof.
  revert x. induction l as [|y l IH]; intros x; simpl.
  - split; [lia|]. split; [intros y []|auto].
  - destruct (IH (Nat.max x y)) as [H1 [H2 H3]].
    split; [lia|]. split.
    + intros z [<-|Hz]; [lia|auto].
    + destruct H3 as [H3|H3]; [|auto].
      destruct (Nat.max_spec x y) as [[_ E]|[_ E]]; rewrite E in *;
        [right; left; now symmetry|now left].
Qed.

Lemma max_spec (a : list nat) (m : nat) :
  Np.max a = Some m -> (forall y, In y a -> y <= m) /\ In m a.
Proof.
  destruct a as [|x a]; simpl; intros H; [discriminate|].
  inversion H. subst.
  destruct (fold_left_max_spec a x) as [H1 [H2 H3]]. split.
  - intros y [<-|Hy]; auto.
  - destruct H3 as [->|H3]; auto.
Qed.

(** ** The surviving label *)

Lemma winner_from_bound (s : nat) (asg : dict) (k : nat) :
  winner_from s asg k = 0 \/
  (s < winner_from s asg k <= s + length asg).
Proof.
  revert s. induction asg as [|[c idxs] asg IH]; intros s; simpl.
  - auto.
  - destruct (IH (S s)) as [E|H].
    + rewrite E. simpl. destruct (existsb (Nat.eqb k) idxs); [right; lia|auto].
    + destruct (Nat.eqb_spec (winner_from (S s) asg k) 0); [lia|right; lia].
Qed.

(** The surviving label is 0 exactly when no entry holds the item. *)
Lemma winner_from_zero (s : nat) (asg : dict) (k : nat) :
  winner_from s asg k = 0 <-> forall c idxs, In (c, idxs) asg -> ~ In k idxs.
Proof.
  revert s. induction asg as [|[c idxs] asg IH]; intros s; simpl.
  - split; [intros _ c idxs []|auto].
  - destruct (Nat.eqb_spec (winner_from (S s) asg k) 0) as [E|Hne].
    + destruct (existsb (Nat.eqb k) idxs) eqn:Ek.
      * split; [lia|]. intros H. exfalso.
        apply existsb_eqb_In in Ek. exact (H c idxs (or_introl eq_refl) Ek).
      * split; [|reflexivity]. intros _ c' idxs' [H|H].
        -- inversion H. subst. intros Hin. apply existsb_eqb_In in Hin.
           congruence.
        -- apply (proj1 (IH (S s)) E c' idxs' H).
    + split; [contradiction|]. intros H. exfalso. apply Hne.
      apply (IH (S s)). intros c' idxs' Hin. apply (H c' idxs'). now right.
Qed.

(** Otherwise it is the number of the last entry that holds the item. *)
Lemma winner_from_last (s : nat) (asg : dict) (k : nat) :
  winner_from s asg k <> 0 ->
  exists i c idxs,
    winner_from s asg k = s + i + 1 /\
    nth_error asg i = Some (c, idxs) /\ In k idxs /\
    forall i' c' idxs',
      nth_error asg i' = Some (c', idxs') -> In k idxs' -> i' <= i.
Proof.
  revert s. induction asg as [|[c idxs] asg IH]; intros s; simpl.
  - intros H. now elim H.
  - destruct (Nat.eqb_spec (winner_from (S s) asg k) 0) as [E|Hne].
    + destruct (existsb (Nat.eqb k) idxs) eqn:Ek; [|intros H; now elim H].
      intros _. exists 0, c, idxs. apply existsb_eqb_In in Ek.
      split; [lia|]. split; [reflexivity|]. split; [exact Ek|].
      intros [|i'] c' idxs' Hn Hin; [lia|]. simpl in Hn.
      exfalso. apply nth_error_In in Hn.
      exact (proj1 (winner_from_zero (S s) asg k) E _ _ Hn Hin).
    + intros _. destruct (IH (S s) Hne) as [i [c' [idxs' [Ew [Hn [Hin Hlast]]]]]].
      exists (S i), c', idxs'. split; [lia|]. split; [exact Hn|].
      split; [exact Hin|].
      intros [|i'] c2 idxs2 Hn2 Hin2; [lia|]. simpl in Hn2.
      specialize (Hlast _ _ _ Hn2 Hin2). lia.
Qed.

(** What [written_by_last] says, from the number each item ends with. *)
Lemma winner_written (asg : dict) (ga : list nat) :
  (forall k, nth k ga 0 = winner asg k) -> written_by_last asg ga.
Proof.
  intros Hw. split.
  - intros k. rewrite Hw. apply winner_from_zero.
  - intros i c idxs k Hn Hin. rewrite Hw.
    assert (Hne : winner asg k <> 0).
    { intros E. apply (proj1 (winner_from_zero 0 asg k) E c idxs); [|exact Hin].
      exact (nth_error_In _ _ Hn). }
    destruct (winner_from_last 0 asg k Hne)
      as [i0 [c0 [idxs0 [Ew [Hn0 [Hin0 Hlast]]]]]].
    unfold winner. rewrite Ew.
    pose proof (Hlast i c idxs Hn Hin) as Hle.
    assert (Hi0 : i0 < length asg).
    { apply nth_error_Some. congruence. }
    split; [lia|]. split.
    + intros E i' c' idxs' Hn' Hin'.
      pose proof (Hlast i' c' idxs' Hn' Hin'). lia.
    + intros Hall. specialize (Hall i0 c0 idxs0 Hn0 Hin0). lia.
Qed.

(** ** The guarded update *)

Lemma record_match_cases (complex : string) (cluster : list nat)
    (thresh jaccard : Q) (st : locals) :
  ((best_jaccard st < jaccard)%Q /\ (1 # 2 <= jaccard)%Q /\
   record_match complex cluster thresh jaccard st =
   {| assignments := dict_set complex cluster (assignments st);
      highest_thresh :=
        if Qlt_bool (highest_thresh st) thresh then thresh
        else highest_thresh st;
      best_jaccard := jaccard |})
  \/
  (((jaccard <= best_jaccard st)%Q \/ (jaccard < 1 # 2)%Q) /\
   record_match complex cluster thresh jaccard st = st).
Proof.
  unfold record_match.
  destruct (Qlt_bool (best_jaccard st) jaccard) eqn:E1;
    destruct (Qle_bool (1 # 2) jaccard) eqn:E2; simpl.
  - left. apply Qlt_bool_iff in E1. apply Qle_bool_iff in E2. auto.
  - right. apply Qle_bool_false in E2. auto.
  - right. apply Qlt_bool_false in E1. auto.
  - right. apply Qlt_bool_false in E1. auto.
Qed.

Lemma record_match_highest (complex : string) (cluster : list nat)
    (thresh jaccard : Q) (st : locals) :
  let st' := record_match complex cluster thresh jaccard st in
  (highest_thresh st <= highest_thresh st')%Q /\
  (highest_thresh st' <> highest_thresh st ->
   (best_jaccard st < jaccard)%Q /\ (1 # 2 <= jaccard)%Q /\
   (highest_thresh st < thresh)%Q /\ highest_thresh st' = thresh).
Proof.
  intros st'. subst st'.
  destruct (record_match_cases complex cluster thresh jaccard st)
    as [[Hb [Hg ->]]|[_ ->]]; simpl.
  - destruct (Qlt_bool (highest_thresh st) thresh) eqn:E.
    + apply Qlt_bool_iff in E. split; [now apply Qlt_le_weak|auto].
    + split; [apply Qle_refl|]. intros H. now elim H.
  - split; [apply Qle_refl|]. intros H. now elim H.
Qed.

Lemma record_match_bounded (complex : string) (cluster : list nat)
    (thresh jaccard bound : Q) (st : locals) :
  (thresh <= bound)%Q -> (highest_thresh st <= bound)%Q ->
  (highest_thresh (record_match complex cluster thresh jaccard st) <= bound)%Q.
Proof.
  intros Ht Hs.
  destruct (record_match_cases complex cluster thresh jaccard st)
    as [[_ [_ ->]]|[_ ->]]; simpl; auto.
  destruct (Qlt_bool (highest_thresh st) thresh); auto.
Qed.

Section MatcherFacts.
Variable Linkage : Type.
Variable fcluster : Linkage -> Q -> list nat.
Variable maxdists : Linkage -> list Q.
Variable link : Linkage.
Variable common_genes : list string.

Local Abbreviation label_body := (label_body common_genes).
Local Abbreviation thresh_body := (thresh_body fcluster link common_genes).
Local Abbreviation complex_body := (complex_body fcluster link common_genes).
Local Abbreviation scan_complexes :=
  (scan_complexes fcluster maxdists link common_genes).
Local Abbreviation cand_body := (cand_body common_genes).
Local Abbreviation cand_jaccard := (cand_jaccard common_genes).
Local Abbreviation candidates := (candidates fcluster link).
Local Abbreviation clusters_at := (clusters_at fcluster link).
Local Abbreviation cluster_at := (cluster_at fcluster link).
Local Abbreviation first_best := (first_best common_genes).
Local Abbreviation capture := (capture fcluster link common_genes).
Local Abbreviation captured_entries :=
  (captured_entries fcluster link common_genes).
Local Abbreviation label_captured := (label_captured common_genes).
Local Abbreviation combine_with_fallback :=
  (combine_with_fallback fcluster link).
Local Abbreviation get_first_level_clusters :=
  (get_first_level_clusters fcluster maxdists link common_genes).
Local Abbreviation peak := (peak fcluster link common_genes).

(** *** The loop nest is one loop over the comparisons *)

Lemma label_body_cand complex comp_genes thresh clusters st label :
  label_body complex comp_genes thresh clusters st label =
  if length (Np.argwhere_eq clusters label) <? 2 then Some st
  else cand_body complex comp_genes st
         (thresh, Np.argwhere_eq clusters label).
Proof.
  unfold Matching.label_body, Matching.cand_body, Matching.cand_jaccard.
  simpl.
  destruct (length (Np.argwhere_eq clusters label) <? 2); [reflexivity|].
  destruct (Np.take common_genes (Np.argwhere_eq clusters label));
    reflexivity.
Qed.

Lemma thresh_body_candidates complex comp_genes st thresh :
  thresh_body complex comp_genes st thresh =
  foldM (cand_body complex comp_genes)
    (map (pair thresh) (clusters_at thresh)) st.
Proof.
  unfold Matching.thresh_body, Matching.clusters_at.
  rewrite foldM_map, foldM_filter, foldM_map.
  apply foldM_ext. intros s label _. rewrite label_body_cand.
  destruct (length (Np.argwhere_eq (fcluster link thresh) label) <? 2);
    reflexivity.
Qed.

Lemma thresh_loop_candidates complex comp_genes ts st :
  foldM (thresh_body complex comp_genes) ts st =
  foldM (cand_body complex comp_genes) (candidates ts) st.
Proof.
  unfold Matching.candidates. rewrite foldM_flat_map.
  apply foldM_ext. intros s t _. apply thresh_body_candidates.
Qed.

Lemma label_body_cases complex comp_genes thresh clusters st label st' :
  label_body complex comp_genes thresh clusters st label = Some st' ->
  st' = st \/
  exists jaccard,
    st' = record_match complex (Np.argwhere_eq clusters label) thresh
            jaccard st.
Proof.
  rewrite label_body_cand.
  destruct (length (Np.argwhere_eq clusters label) <? 2).
  - intros H. inversion H. auto.
  - unfold Matching.cand_body. intros H. apply bind_Some in H.
    destruct H as [j [_ H]]. inversion H. right. exists j. reflexivity.
Qed.

(** *** [highest_thresh] along the scan *)

Lemma hi_step_refl bound st : hi_step bound st st.
Proof. split; [apply Qle_refl|auto]. Qed.

Lemma hi_step_trans bound s1 s2 s3 :
  hi_step bound s1 s2 -> hi_step bound s2 s3 -> hi_step bound s1 s3.
Proof.
  intros [H1 H1'] [H2 H2']. split; [eapply Qle_trans; eauto|auto].
Qed.


Lemma label_loop_hi bound complex comp_genes thresh clusters labels st st' :
  (thresh <= bound)%Q ->
  foldM (label_body complex comp_genes thresh clusters) labels st = Some st' ->
  hi_step bound st st'.
Proof.
  intros Ht. apply foldM_rel.
  - apply hi_step_refl.
  - apply hi_step_trans.
  - intros s label s' _ H. apply label_body_cases in H.
    destruct H as [->|[j ->]]; [apply hi_step_refl|].
    split; [apply record_match_highest|now apply record_match_bounded].
Qed.

Lemma thresh_loop_hi bound complex comp_genes ts st st' :
  (forall t, In t ts -> (t <= bound)%Q) ->
  foldM (thresh_body complex comp_genes) ts st = Some st' ->
  hi_step bound st st'.
Proof.
  intros Hts. apply foldM_rel.
  - apply hi_step_refl.
  - apply hi_step_trans.
  - intros s t s' Ht H. unfold Matching.thresh_body in H.
    eapply label_loop_hi; eauto.
Qed.

Lemma complex_body_hi max_thresh st item st' :
  (0 <= max_thresh)%Q ->
  complex_body max_thresh st item = Some st' ->
  hi_step max_thresh st st'.
Proof.
  intros Hmax. unfold Matching.complex_body.
  destruct (length (Np.intersect1d (snd item) common_genes) <? 2).
  - intros H. inversion H. apply hi_step_refl.
  - intros H. apply thresh_loop_hi with (bound := max_thresh) in H.
    + exact H.
    + intros t Ht. unfold thresholds in Ht.
      exact (proj2 (@linspace_bounds 0%Q max_thresh num_thresholds t Hmax Ht)).
Qed.

Lemma complex_loop_hi max_thresh cs st st' :
  (0 <= max_thresh)%Q ->
  foldM (complex_body max_thresh) cs st = Some st' ->
  hi_step max_thresh st st'.
Proof.
  intros Hmax. apply foldM_rel.
  - apply hi_step_refl.
  - apply hi_step_trans.
  - intros s item s' _ H. eapply complex_body_hi; eauto.
Qed.

(** *** [highest_thresh] on any grid of thresholds *)

(** On the exact grid the scan over a grid is the scan. *)
Lemma scan_complexes_on_linspace complexes :
  GridMatcher.scan_complexes_on Np.linspace fcluster maxdists link
    common_genes complexes =
  scan_complexes complexes.
Proof. reflexivity. Qed.








(** *** The best match of one complex *)

Lemma cand_body_Some complex comp_genes st c st' :
  cand_body complex comp_genes st c = Some st' <->
  exists j, cand_jaccard comp_genes (snd c) = Some j /\
    st' = record_match complex (snd c) (fst c) j st.
Proof.
  unfold Matching.cand_body. rewrite bind_Some.
  split; intros [j [Hj H]]; exists j; split; auto; congruence.
Qed.

Lemma cand_loop_total complex comp_genes cs :
  (forall c, In c cs -> exists j, cand_jaccard comp_genes (snd c) = Some j) ->
  forall st, exists st', foldM (cand_body complex comp_genes) cs st = Some st'.
Proof.
  induction cs as [|c cs IH]; intros H st; simpl.
  - eauto.
  - destruct (H c (or_introl eq_refl)) as [j Hj].
    unfold Matching.cand_body at 1. rewrite Hj. simpl.
    apply IH. intros c' Hc'. apply H. now right.
Qed.

Lemma cand_loop_spec complex comp_genes cs st0 st1 :
  foldM (cand_body complex comp_genes) cs st0 = Some st1 ->
  (forall c, In c cs -> exists j, cand_jaccard comp_genes (snd c) = Some j) /\
  (((forall c j, In c cs -> cand_jaccard comp_genes (snd c) = Some j ->
       (j <= best_jaccard st0)%Q \/ (j < 1 # 2)%Q) /\
    st1 = st0)
   \/
   (exists t cl j,
      first_best comp_genes cs t cl j /\
      (best_jaccard st0 < j)%Q /\
      best_jaccard st1 = j /\
      assignments st1 = dict_set complex cl (assignments st0))).
Proof.
  revert st1. induction cs as [|x cs IH] using rev_ind; intros st1 Hrun.
  - simpl in Hrun. inversion Hrun. subst. split; [intros c []|].
    left. split; [intros c j []|reflexivity].
  - rewrite foldM_app in Hrun. apply bind_Some in Hrun.
    destruct Hrun as [sm [Hm Hx]]. simpl in Hx.
    apply bind_Some in Hx. destruct Hx as [s' [Hx E]].
    inversion E. subst s'. clear E.
    apply cand_body_Some in Hx. destruct Hx as [jx [Hjx Hst1]].
    destruct (IH sm Hm) as [Hall Hcases]. split.
    { intros c Hc. apply in_app_or in Hc. destruct Hc as [Hc|[<-|[]]]; eauto. }
    destruct Hcases as [[Hnone ->]|[t [cl [j [Hfb [Hlt [Hbest Hasg]]]]]]].
    + destruct (record_match_cases complex (snd x) (fst x) jx st0)
        as [[Hb [Hg Hrec]]|[Hno Hrec]].
      * right. exists (fst x), (snd x), jx. split; [|split; [exact Hb|]].
        { exists cs, []. rewrite <- surjective_pairing.
          split; [reflexivity|]. split; [exact Hjx|]. split; [exact Hg|].
          split; [|intros c j' []].
          intros c j' Hc Hj'. destruct (Hnone c j' Hc Hj') as [H|H].
          - eapply Qle_lt_trans; eauto.
          - eapply Qlt_le_trans; eauto. }
        rewrite Hst1, Hrec. simpl. auto.
      * left. split; [|congruence].
        intros c j' Hc Hj'. apply in_app_or in Hc.
        destruct Hc as [Hc|[<-|[]]]; [eauto|].
        assert (j' = jx) by congruence. subst j'. exact Hno.
    + destruct Hfb as [pre [post [Hsplit [Hj [Hgate [Hpre Hpost]]]]]].
      destruct (record_match_cases complex (snd x) (fst x) jx sm)
        as [[Hb [Hg Hrec]]|[Hno Hrec]].
      * rewrite Hbest in Hb.
        right. exists (fst x), (snd x), jx.
        split; [|split; [eapply Qlt_trans; eauto|]].
        { exists cs, []. rewrite <- surjective_pairing.
          split; [reflexivity|]. split; [exact Hjx|]. split; [exact Hg|].
          split; [|intros c j' []].
          intros c j' Hc Hj'. rewrite Hsplit in Hc.
          apply in_app_or in Hc. destruct Hc as [Hc|[<-|Hc]].
          - eapply Qlt_trans; [eapply Hpre; eauto|exact Hb].
          - simpl in Hj'. assert (j' = j) by congruence. now subst j'.
          - eapply Qle_lt_trans; [eapply Hpost; eauto|exact Hb]. }
        rewrite Hst1, Hrec. simpl. rewrite Hasg, dict_set_set. auto.
      * rewrite Hbest in Hno.
        right. exists t, cl, j. split; [|rewrite Hst1, Hrec; auto].
        exists pre, (post ++ [x]).
        split; [rewrite Hsplit, <- app_assoc; reflexivity|].
        split; [exact Hj|]. split; [exact Hgate|]. split; [exact Hpre|].
        intros c j' Hc Hj'. apply in_app_or in Hc.
        destruct Hc as [Hc|[<-|[]]]; [eauto|].
        assert (j' = jx) by congruence. subst j'.
        destruct Hno as [H|H]; [exact H|].
        apply Qlt_le_weak. eapply Qlt_le_trans; eauto.
Qed.

(** The first best comparison of a list is unique. *)
Lemma first_best_unique comp_genes cs t1 cl1 j1 t2 cl2 j2 :
  first_best comp_genes cs t1 cl1 j1 ->
  first_best comp_genes cs t2 cl2 j2 ->
  t1 = t2 /\ cl1 = cl2 /\ j1 = j2.
Proof.
  intros [pre1 [post1 [E1 [H1 [_ [Hpre1 Hpost1]]]]]]
         [pre2 [post2 [E2 [H2 [_ [Hpre2 Hpost2]]]]]].
  rewrite E1 in E2.
  destruct (split_compare _ _ _ _ _ _ E2) as [[_ [E _]]|[[Ha Hb]|[Ha Hb]]].
  - inversion E. subst. split; [reflexivity|]. split; [reflexivity|].
    congruence.
  - exfalso. specialize (Hpre2 _ _ Ha H1). specialize (Hpost1 _ _ Hb H2).
    exact (Qlt_not_le _ _ Hpre2 Hpost1).
  - exfalso. specialize (Hpre1 _ _ Ha H2). specialize (Hpost2 _ _ Hb H1).
    exact (Qlt_not_le _ _ Hpre1 Hpost2).
Qed.

Lemma candidates_In ts t cl :
  In (t, cl) (candidates ts) <-> In t ts /\ cluster_at t cl.
Proof.
  unfold Matching.candidates, Matching.clusters_at, Matching.cluster_at.
  rewrite in_flat_map. split.
  - intros [t' [Ht' H]]. apply in_map_iff in H. destruct H as [cl' [E H]].
    inversion E. subst t' cl'. apply filter_In in H. destruct H as [H Hlen].
    apply in_map_iff in H. destruct H as [label [<- Hlab]].
    rewrite unique_In in Hlab. apply negb_true_iff, Nat.ltb_ge in Hlen.
    split; [exact Ht'|]. exists label. repeat split; auto.
  - intros [Ht [label [Hlab [-> Hlen]]]]. exists t. split; [exact Ht|].
    apply in_map. apply filter_In. split.
    + apply in_map. now apply unique_In.
    + now apply negb_true_iff, Nat.ltb_ge.
Qed.

Lemma complex_body_spec max_thresh st item st' :
  complex_body max_thresh st item = Some st' ->
  (length (Np.intersect1d (snd item) common_genes) < 2 /\ st' = st)
  \/
  (2 <= length (Np.intersect1d (snd item) common_genes) /\
   (forall c, In c (candidates (thresholds max_thresh)) ->
      exists j, cand_jaccard (snd item) (snd c) = Some j) /\
   (((forall c j, In c (candidates (thresholds max_thresh)) ->
        cand_jaccard (snd item) (snd c) = Some j -> (j < 1 # 2)%Q) /\
     assignments st' = assignments st /\
     highest_thresh st' = highest_thresh st)
    \/
    (exists t cl j,
       first_best (snd item) (candidates (thresholds max_thresh)) t cl j /\
       assignments st' = dict_set (fst item) cl (assignments st)))).
Proof.
  unfold Matching.complex_body.
  destruct (Nat.ltb_spec (length (Np.intersect1d (snd item) common_genes)) 2)
    as [Hlt|Hge].
  - intros H. inversion H. auto.
  - rewrite thresh_loop_candidates. intros H.
    apply cand_loop_spec in H. destruct H as [Hall Hcases].
    right. split; [exact Hge|]. split; [exact Hall|].
    destruct Hcases as [[Hnone ->]|[t [cl [j [Hfb [_ [_ Hasg]]]]]]].
    + left. simpl. split; [|auto]. intros c j Hc Hj.
      destruct (Hnone c j Hc Hj) as [H|H]; [|exact H].
      simpl in H. eapply Qle_lt_trans; [exact H|reflexivity].
    + right. exists t, cl, j. auto.
Qed.

Lemma complex_body_success max_thresh st item st' :
  complex_body max_thresh st item = Some st' ->
  forall st2, exists st2', complex_body max_thresh st2 item = Some st2'.
Proof.
  intros H st2. pose proof (complex_body_spec _ _ _ H) as Hspec.
  unfold Matching.complex_body.
  destruct (Nat.ltb_spec (length (Np.intersect1d (snd item) common_genes)) 2)
    as [Hlt|Hge]; [eauto|].
  destruct Hspec as [[Hlt _]|[_ [Hall _]]]; [lia|].
  rewrite thresh_loop_candidates. now apply cand_loop_total.
Qed.

Lemma capture_spec max_thresh item r :
  capture max_thresh item = Some r ->
  match r with
  | Some cl =>
      2 <= length (Np.intersect1d (snd item) common_genes) /\
      exists t j,
        first_best (snd item) (candidates (thresholds max_thresh)) t cl j
  | None =>
      length (Np.intersect1d (snd item) common_genes) < 2 \/
      (forall c j, In c (candidates (thresholds max_thresh)) ->
         cand_jaccard (snd item) (snd c) = Some j -> (j < 1 # 2)%Q)
  end.
Proof.
  unfold Matching.capture. intros H. apply bind_Some in H.
  destruct H as [st [Hst E]]. inversion E. subst r. clear E.
  apply complex_body_spec in Hst.
  destruct Hst as [[Hlt ->]|[Hge [_ [[Hnone [Hasg _]]|[t [cl [j [Hfb Hasg]]]]]]]].
  - simpl. auto.
  - rewrite Hasg. simpl. auto.
  - rewrite Hasg. simpl. rewrite String.eqb_refl. eauto.
Qed.

Lemma complex_body_capture max_thresh st item st' :
  complex_body max_thresh st item = Some st' ->
  exists r,
    capture max_thresh item = Some r /\
    assignments st' =
    match r with
    | Some cl => dict_set (fst item) cl (assignments st)
    | None => assignments st
    end.
Proof.
  intros H.
  destruct (complex_body_success _ _ _ H init_locals) as [si Hsi].
  assert (Hcap : capture max_thresh item =
                 Some (dict_get (fst item) (assignments si))).
  { unfold Matching.capture. rewrite Hsi. reflexivity. }
  exists (dict_get (fst item) (assignments si)). split; [exact Hcap|].
  apply capture_spec in Hcap. apply complex_body_spec in H.
  destruct (dict_get (fst item) (assignments si)) as [cl|].
  - destruct Hcap as [Hge [t [j Hfb]]].
    destruct H as [[Hlt _]|[_ [_ [[Hnone _]|[t' [cl' [j' [Hfb' Hasg]]]]]]]].
    + lia.
    + exfalso. destruct Hfb as [pre [post [E [Hj [Hgate _]]]]].
      assert (Hin : In (t, cl) (candidates (thresholds max_thresh))).
      { rewrite E. apply in_or_app. right. now left. }
      specialize (Hnone _ _ Hin Hj). exact (Qlt_not_le _ _ Hnone Hgate).
    + destruct (first_best_unique Hfb Hfb') as [_ [-> _]]. exact Hasg.
  - destruct H as [[_ ->]|[Hge [_ [[_ [Hasg _]]|[t' [cl' [j' [Hfb' _]]]]]]]].
    + reflexivity.
    + exact Hasg.
    + exfalso. destruct Hcap as [Hlt|Hnone]; [lia|].
      destruct Hfb' as [pre [post [E [Hj [Hgate _]]]]].
      assert (Hin : In (t', cl') (candidates (thresholds max_thresh))).
      { rewrite E. apply in_or_app. right. now left. }
      specialize (Hnone _ _ Hin Hj). exact (Qlt_not_le _ _ Hnone Hgate).
Qed.

Lemma capture_total max_thresh item r :
  capture max_thresh item = Some r ->
  forall st, exists st', complex_body max_thresh st item = Some st'.
Proof.
  unfold Matching.capture. intros H. apply bind_Some in H.
  destruct H as [si [Hsi _]]. now apply (complex_body_success _ _ _ Hsi).
Qed.

(** *** The loop over complexes *)

Lemma complex_loop_captures max_thresh cs st st' :
  foldM (complex_body max_thresh) cs st = Some st' ->
  forall item, In item cs -> exists r, capture max_thresh item = Some r.
Proof.
  revert st. induction cs as [|x cs IH]; intros st H item Hin.
  - destruct Hin.
  - simpl in H. apply bind_Some in H. destruct H as [s1 [H1 H2]].
    destruct Hin as [<-|Hin]; [|eauto].
    destruct (complex_body_capture _ _ _ H1) as [r [Hr _]]. eauto.
Qed.

Lemma complex_loop_total max_thresh cs :
  (forall item, In item cs -> exists r, capture max_thresh item = Some r) ->
  forall st, exists st', foldM (complex_body max_thresh) cs st = Some st'.
Proof.
  induction cs as [|x cs IH]; intros H st; simpl.
  - eauto.
  - destruct (H x (or_introl eq_refl)) as [r Hr].
    destruct (capture_total _ _ Hr st) as [s1 Hs1]. rewrite Hs1. simpl.
    apply IH. intros item Hin. apply H. now right.
Qed.

Lemma captured_entries_In max_thresh cs c cl :
  In (c, cl) (captured_entries max_thresh cs) <->
  exists g, In (c, g) cs /\ capture max_thresh (c, g) = Some (Some cl).
Proof.
  unfold Matching.captured_entries. rewrite in_flat_map. split.
  - intros [[c' g] [Hin H]]. simpl in H.
    destruct (capture max_thresh (c', g)) as [[cl'|]|] eqn:E;
      [|destruct H|destruct H].
    destruct H as [H|[]]. inversion H. subst. eauto.
  - intros [g [Hin H]]. exists (c, g). split; [exact Hin|].
    rewrite H. simpl. auto.
Qed.

Lemma captured_entries_keys max_thresh cs k :
  In k (dict_keys (captured_entries max_thresh cs)) -> In k (map fst cs).
Proof.
  unfold dict_keys. rewrite !in_map_iff.
  intros [[c cl] [E H]]. simpl in E. subst c.
  apply captured_entries_In in H. destruct H as [g [Hin _]].
  exists (k, g). auto.
Qed.

Lemma captured_entries_NoDup max_thresh cs :
  NoDup (map fst cs) -> NoDup (dict_keys (captured_entries max_thresh cs)).
Proof.
  induction cs as [|[c g] cs IH]; simpl; intros H.
  - constructor.
  - inversion H as [|? ? Hnotin Hnd]; subst.
    change (captured_entries max_thresh ((c, g) :: cs))
      with ((match capture max_thresh (c, g) with
             | Some (Some cl) => [(fst (c, g), cl)]
             | _ => []
             end) ++ captured_entries max_thresh cs).
    destruct (capture max_thresh (c, g)) as [[cl|]|]; simpl; auto.
    constructor; [|auto]. intros Hin. apply Hnotin.
    now apply captured_entries_keys in Hin.
Qed.

Lemma complex_loop_assignments max_thresh cs st st' :
  foldM (complex_body max_thresh) cs st = Some st' ->
  NoDup (map fst cs) ->
  (forall k, In k (map fst cs) -> ~ In k (dict_keys (assignments st))) ->
  assignments st' = assignments st ++ captured_entries max_thresh cs.
Proof.
  revert st. induction cs as [|[c g] cs IH]; intros st H Hnd Hfresh.
  - simpl in H. inversion H. simpl. now rewrite app_nil_r.
  - simpl in H. apply bind_Some in H. destruct H as [s1 [H1 H2]].
    inversion Hnd as [|? ? Hnotin Hnd']; subst.
    destruct (complex_body_capture _ _ _ H1) as [r [Hr Hasg]].
    change (captured_entries max_thresh ((c, g) :: cs))
      with ((match capture max_thresh (c, g) with
             | Some (Some cl) => [(fst (c, g), cl)]
             | _ => []
             end) ++ captured_entries max_thresh cs).
    rewrite Hr. simpl in Hasg |- *.
    rewrite (IH s1 H2 Hnd').
    + destruct r as [cl|]; rewrite Hasg; [|reflexivity].
      rewrite dict_set_fresh.
      * now rewrite <- app_assoc.
      * apply Hfresh. now left.
    + intros k Hk. destruct r as [cl|]; rewrite Hasg.
      * rewrite dict_set_fresh by (apply Hfresh; now left).
        unfold dict_keys. rewrite map_app, in_app_iff. simpl.
        intros [Hin|[<-|[]]]; [|contradiction].
        revert Hin. apply Hfresh. now right.
      * apply Hfresh. now right.
Qed.

Lemma scan_assignments complexes st :
  scan_complexes complexes = Some st ->
  NoDup (map fst complexes) ->
  exists max_thresh,
    Np.maxQ (maxdists link) = Some max_thresh /\
    foldM (complex_body max_thresh) complexes init_locals = Some st /\
    assignments st = captured_entries max_thresh complexes.
Proof.
  unfold Matching.scan_complexes. intros H Hnd. apply bind_Some in H.
  destruct H as [mt [Hmt H]]. exists mt. split; [exact Hmt|].
  split; [exact H|].
  apply complex_loop_assignments in H; auto.
Qed.

(** *** Recorded index sets are clusters of the item set *)

Lemma dict_set_recorded_ok n k v d :
  2 <= length v -> (forall i, In i v -> i < n) ->
  recorded_ok n d -> recorded_ok n (dict_set k v d).
Proof.
  intros Hlen Hlt. unfold recorded_ok.
  induction d as [|[k' v'] d IH]; simpl; intros H.
  - constructor; [simpl; auto|constructor].
  - inversion H; subst. destruct (String.eqb k k').
    + constructor; [simpl; auto|auto].
    + constructor; auto.
Qed.

Lemma label_body_recorded_ok complex comp_genes thresh clusters st label st' :
  label_body complex comp_genes thresh clusters st label = Some st' ->
  recorded_ok (length common_genes) (assignments st) ->
  recorded_ok (length common_genes) (assignments st').
Proof.
  unfold Matching.label_body.
  destruct (Nat.ltb_spec (length (Np.argwhere_eq clusters label)) 2)
    as [Hlt|Hge].
  - intros H. inversion H. auto.
  - intros H Hok. apply bind_Some in H. destruct H as [genes [Htake E]].
    inversion E. subst st'. clear E.
    destruct (record_match_cases complex (Np.argwhere_eq clusters label)
                thresh (cluster_jaccard genes comp_genes) st)
      as [[_ [_ ->]]|[_ ->]]; [simpl|exact Hok].
    apply dict_set_recorded_ok; auto.
    intros i Hi. eapply take_Some; eauto.
Qed.

Lemma complex_body_recorded_ok max_thresh st item st' :
  complex_body max_thresh st item = Some st' ->
  recorded_ok (length common_genes) (assignments st) ->
  recorded_ok (length common_genes) (assignments st').
Proof.
  unfold Matching.complex_body.
  destruct (length (Np.intersect1d (snd item) common_genes) <? 2).
  - intros H. inversion H. auto.
  - intros H Hok.
    apply (foldM_inv
             (fun s => recorded_ok (length common_genes) (assignments s)))
      in H; auto.
    intros s t s' _ Hs Ht. unfold Matching.thresh_body in Ht.
    apply (foldM_inv
             (fun s => recorded_ok (length common_genes) (assignments s)))
      in Ht; auto.
    intros s1 label s1' _ Hs1 Hl. eapply label_body_recorded_ok; eauto.
Qed.

Lemma scan_recorded_ok complexes st :
  scan_complexes complexes = Some st ->
  recorded_ok (length common_genes) (assignments st).
Proof.
  unfold Matching.scan_complexes. intros H. apply bind_Some in H.
  destruct H as [mt [_ H]].
  apply (foldM_inv
           (fun s => recorded_ok (length common_genes) (assignments s)))
    in H; auto.
  - intros s item s' _ Hs Hi. eapply complex_body_recorded_ok; eauto.
  - constructor.
Qed.

(** *** Numbering the captured complexes *)

Lemma label_loop_from s d ga0 ga :
  foldM (fun ga e => Np.put ga (snd (snd e)) (fst e + 1))
    (combine (seq s (length d)) d) ga0 = Some ga ->
  length ga = length ga0 /\
  forall k, nth k ga 0 =
            if winner_from s d k =? 0 then nth k ga0 0
            else winner_from s d k.
Proof.
  revert s ga0. induction d as [|[c idxs] d IH]; intros s ga0 H.
  - simpl in H. inversion H. auto.
  - simpl in H. apply bind_Some in H. destruct H as [ga1 [H1 H2]].
    simpl in H1. apply put_spec in H1. destruct H1 as [_ [Hlen1 Hnth1]].
    destruct (IH _ _ H2) as [Hlen Hnth]. split; [congruence|].
    intros k. rewrite Hnth, Hnth1. simpl.
    destruct (winner_from (S s) d k =? 0) eqn:E; [|now rewrite E].
    destruct (existsb (Nat.eqb k) idxs); [|reflexivity].
    rewrite Nat.add_1_r. reflexivity.
Qed.

Lemma label_captured_spec asg ga :
  label_captured asg = Some ga ->
  length ga = length common_genes /\ forall k, nth k ga 0 = winner asg k.
Proof.
  unfold Matching.label_captured, enumerate. intros H.
  apply label_loop_from in H. destruct H as [Hlen Hnth].
  unfold Np.zeros in *. rewrite repeat_length in Hlen.
  split; [exact Hlen|]. intros k. rewrite Hnth. unfold winner.
  destruct (winner_from 0 asg k =? 0) eqn:E; [|reflexivity].
  apply Nat.eqb_eq in E. rewrite E.
  destruct (Nat.lt_ge_cases k (length common_genes)).
  - apply nth_repeat_lt. exact H.
  - apply nth_overflow. now rewrite repeat_length.
Qed.

Lemma label_loop_total n s d ga0 :
  recorded_ok n d -> length ga0 = n ->
  exists ga,
    foldM (fun ga e => Np.put ga (snd (snd e)) (fst e + 1))
      (combine (seq s (length d)) d) ga0 = Some ga.
Proof.
  intros Hok. revert s ga0.
  induction Hok as [|[c idxs] d [_ Hlt] _ IH]; intros s ga0 Hlen; simpl.
  - eauto.
  - destruct (@put_total ga0 idxs (s + 1)) as [ga1 H1].
    { intros i Hi. rewrite Hlen. now apply Hlt. }
    rewrite H1. simpl. apply IH.
    apply put_spec in H1. destruct H1 as [_ [-> _]]. exact Hlen.
Qed.

Lemma label_captured_total asg :
  recorded_ok (length common_genes) asg ->
  exists ga, label_captured asg = Some ga.
Proof.
  intros Hok. unfold Matching.label_captured, enumerate.
  eapply label_loop_total; eauto. apply repeat_length.
Qed.

(** The largest captured label is the number of captured complexes. *)
Lemma max_label_captured asg ga m :
  label_captured asg = Some ga ->
  recorded_ok (length common_genes) asg ->
  Np.max ga = Some m ->
  m = length asg.
Proof.
  intros Hga Hok Hm. apply label_captured_spec in Hga.
  destruct Hga as [Hlen Hnth]. apply max_spec in Hm.
  destruct Hm as [Hle Hin].
  assert (Hup : m <= length asg).
  { apply In_nth with (d := 0) in Hin. destruct Hin as [k [_ <-]].
    rewrite Hnth. unfold winner.
    destruct (winner_from_bound 0 asg k); lia. }
  destruct (nth_error asg (length asg - 1)) as [[c idxs]|] eqn:E.
  - assert (Hi : In (c, idxs) asg) by (eapply nth_error_In; eauto).
    unfold recorded_ok in Hok. rewrite Forall_forall in Hok.
    destruct (Hok _ Hi) as [Hlen2 Hlt]. simpl in Hlen2, Hlt.
    destruct idxs as [|k idxs]; [simpl in Hlen2; lia|].
    assert (Hk : In k (k :: idxs)) by now left.
    assert (Hw : winner asg k <> 0).
    { unfold winner. intros Hz.
      exact (proj1 (winner_from_zero 0 asg k) Hz _ _ Hi Hk). }
    destruct (winner_from_last 0 asg k Hw)
      as [i [c' [idxs' [Ew [Hn [_ Hlast]]]]]].
    specialize (Hlast _ _ _ E Hk).
    assert (i < length asg) by (apply nth_error_Some; congruence).
    assert (Hkm : nth k ga 0 <= m).
    { apply Hle. apply nth_In. rewrite Hlen. now apply Hlt. }
    rewrite Hnth in Hkm. unfold winner in Hkm. lia.
  - apply nth_error_None in E. destruct asg; simpl in *; lia.
Qed.

(** *** The final merge *)

Lemma combine_with_fallback_spec ga highest out :
  combine_with_fallback ga highest = Some out ->
  exists m,
    Np.max ga = Some m /\
    length out = length (fcluster link (highest + (1 # 10))%Q) /\
    forall k, k < length out ->
      nth k out 0 =
      if nth k ga 0 =? 0
      then m + 1 + nth k (fcluster link (highest + (1 # 10))%Q) 0
      else nth k ga 0.
Proof.
  unfold Matching.combine_with_fallback. intros H.
  apply bind_Some in H. destruct H as [m [Hm H]].
  apply bind_Some in H. destruct H as [vals [Hvals H]].
  exists m. split; [exact Hm|].
  apply mapM_Some in Hvals.
  destruct (@put_many_spec _ _ _ ga _ H Hvals) as [_ [Hlen Hnth]]. rewrite length_map in Hlen.
  split; [exact Hlen|]. intros k Hk. rewrite Hnth.
  destruct (Nat.eqb_spec (nth k ga 0) 0) as [E|Hne].
  - destruct (existsb (Nat.eqb k) (Np.nonzero ga)) eqn:Ek.
    + apply existsb_eqb_In, nonzero_In in Ek. destruct Ek as [x [Hx Hx0]].
      rewrite (nth_error_nth _ _ 0 Hx) in E. contradiction.
    + rewrite (nth_indep _ 0 (m + 1 + 0)) by (rewrite length_map; lia).
      now rewrite (map_nth (fun c => m + 1 + c)).
  - assert (Ek : existsb (Nat.eqb k) (Np.nonzero ga) = true).
    { apply existsb_eqb_In, nonzero_In. exists (nth k ga 0).
      split; [|exact Hne]. apply nth_error_nth'.
      destruct (Nat.lt_ge_cases k (length ga)); [assumption|].
      rewrite nth_overflow in Hne by assumption. now elim Hne. }
    now rewrite Ek.
Qed.

Lemma combine_with_fallback_total ga highest :
  ga <> [] ->
  length (fcluster link (highest + (1 # 10))%Q) = length ga ->
  exists out, combine_with_fallback ga highest = Some out.
Proof.
  intros Hne Hshape. unfold Matching.combine_with_fallback.
  destruct ga as [|x ga']; [now elim Hne|].
  set (ga := x :: ga') in *. simpl Np.max. cbv beta iota. simpl bind.
  destruct (@take_total _ ga (Np.nonzero ga)) as [vals Hvals].
  { intros i Hi. apply nonzero_In in Hi. destruct Hi as [y [Hy _]].
    apply nth_error_Some. congruence. }
  rewrite Hvals. simpl bind. apply put_many_total.
  intros i Hi. rewrite length_map, Hshape.
  apply nonzero_In in Hi. destruct Hi as [y [Hy _]].
  apply nth_error_Some. congruence.
Qed.

(** *** Order of the comparisons *)

Lemma StronglySorted_app_between {B : Type} (R : B -> B -> Prop)
    (l1 l2 : list B) :
  StronglySorted R l1 -> StronglySorted R l2 ->
  (forall x y, In x l1 -> In y l2 -> R x y) ->
  StronglySorted R (l1 ++ l2).
Proof.
  induction 1 as [|x l1 Hl1 IH Hx]; intros H2 Hb; simpl.
  - exact H2.
  - constructor.
    + apply IH; auto. intros a b Ha Hb'. apply Hb; [now right|auto].
    + apply Forall_app. split; [exact Hx|].
      apply Forall_forall. intros y Hy. apply Hb; [now left|auto].
Qed.

Lemma candidates_sorted ts :
  StronglySorted Qle ts ->
  StronglySorted (fun c c' : Q * list nat => (fst c <= fst c')%Q)
    (candidates ts).
Proof.
  induction 1 as [|t ts Hts IH Ht].
  - constructor.
  - change (candidates (t :: ts))
      with (map (pair t) (clusters_at t) ++ candidates ts).
    apply StronglySorted_app_between; [|exact IH|].
    + induction (clusters_at t) as [|cl cls IHc]; simpl; constructor; auto.
      apply Forall_forall. intros c Hc. apply in_map_iff in Hc.
      destruct Hc as [cl' [<- _]]. simpl. apply Qle_refl.
    + intros x [t' cl'] Hx Hy. apply in_map_iff in Hx.
      destruct Hx as [cl [<- _]]. simpl.
      apply candidates_In in Hy. destruct Hy as [Hy _].
      rewrite Forall_forall in Ht. now apply Ht.
Qed.

Lemma thresholds_length max_thresh :
  length (thresholds max_thresh) = num_thresholds.
Proof.
  unfold thresholds. apply linspace_length. unfold num_thresholds. lia.
Qed.

Lemma gate_fails_spec comp_genes cs :
  gate_fails common_genes comp_genes cs = true <->
  forall c j, In c cs -> cand_jaccard comp_genes (snd c) = Some j ->
    (j < 1 # 2)%Q.
Proof.
  unfold gate_fails. rewrite forallb_forall. split.
  - intros H c j Hc Hj. specialize (H c Hc). rewrite Hj in H.
    now apply Qlt_bool_iff.
  - intros H c Hc. destruct (cand_jaccard comp_genes (snd c)) as [j|] eqn:E;
      [|reflexivity].
    apply Qlt_bool_iff. eauto.
Qed.

Lemma NoDup_keys_functional {V : Type} (l : list (string * V)) k v1 v2 :
  NoDup (map fst l) -> In (k, v1) l -> In (k, v2) l -> v1 = v2.
Proof.
  induction l as [|[k' v'] l IH]; simpl; intros Hnd H1 H2.
  - destruct H1.
  - inversion Hnd as [|? ? Hnotin Hnd']; subst.
    assert (Hk : forall v, In (k, v) l -> In k (map fst l)).
    { intros v Hv. apply in_map_iff. exists (k, v). auto. }
    destruct H1 as [H1|H1], H2 as [H2|H2].
    + congruence.
    + inversion H1. subst. elim Hnotin. eauto.
    + inversion H2. subst. elim Hnotin. eauto.
    + eauto.
Qed.

(** A complex is in [assignments] exactly when its own scan captured
    it. *)
Lemma scan_captured_iff complexes st max_thresh complex comp_genes :
  NoDup (map fst complexes) ->
  Np.maxQ (maxdists link) = Some max_thresh ->
  scan_complexes complexes = Some st ->
  In (complex, comp_genes) complexes ->
  exists r,
    capture max_thresh (complex, comp_genes) = Some r /\
    dict_get complex (assignments st) = r.
Proof.
  intros Hnd Hmt Hscan Hin.
  destruct (scan_assignments _ Hscan Hnd) as [mt [Hmt' [Hloop Hasg]]].
  assert (mt = max_thresh) by congruence. subst mt.
  destruct (complex_loop_captures _ _ _ Hloop _ Hin) as [r Hr].
  exists r. split; [exact Hr|].
  pose proof (captured_entries_NoDup max_thresh complexes Hnd) as Hnd'.
  rewrite <- Hasg in Hnd'.
  destruct r as [cl|].
  - apply dict_get_NoDup; [exact Hnd'|]. rewrite Hasg.
    apply captured_entries_In. eauto.
  - destruct (dict_get complex (assignments st)) as [cl|] eqn:E;
      [|reflexivity].
    apply dict_get_NoDup in E; [|exact Hnd']. rewrite Hasg in E.
    apply captured_entries_In in E. destruct E as [g [Hg Hc]].
    assert (g = comp_genes) by (eapply NoDup_keys_functional; eauto).
    subst g. congruence.
Qed.

(** *** Labels of the captured complexes *)

Lemma captured_labels_from (s : nat) (asg : dict) :
  map (fun e : nat * (string * list nat) => (fst (snd e), fst e + 1))
    (combine (seq s (length asg)) asg) =
  combine (dict_keys asg) (seq (s + 1) (length asg)).
Proof.
  revert s. induction asg as [|[c idxs] asg IH]; intros s; simpl.
  - reflexivity.
  - f_equal. rewrite IH. now rewrite Nat.add_succ_l.
Qed.

Lemma captured_entries_keys_filter max_thresh cs :
  NoDup (map fst cs) ->
  dict_keys (captured_entries max_thresh cs) =
  filter
    (fun c => Np.mem_str c (dict_keys (captured_entries max_thresh cs)))
    (map fst cs).
Proof.
  intros Hnd.
  set (isc := fun item : string * list string =>
                match capture max_thresh item with
                | Some (Some _) => true
                | _ => false
                end).
  assert (H1 : forall l, dict_keys (captured_entries max_thresh l) =
                         map fst (filter isc l)).
  { induction l as [|item l IH]; [reflexivity|].
    change (captured_entries max_thresh (item :: l))
      with ((match capture max_thresh item with
             | Some (Some cl) => [(fst item, cl)]
             | _ => []
             end) ++ captured_entries max_thresh l).
    unfold dict_keys in *. rewrite map_app, IH. simpl. unfold isc at 2.
    destruct (capture max_thresh item) as [[cl|]|]; reflexivity. }
  assert (H2 : forall item, In item cs ->
             Np.mem_str (fst item)
               (dict_keys (captured_entries max_thresh cs)) = isc item).
  { intros [c g] Hin. simpl. apply eq_true_iff_eq. rewrite mem_str_In.
    unfold dict_keys. rewrite in_map_iff. unfold isc. split.
    - intros [[c' cl] [E H]]. simpl in E. subst c'.
      apply captured_entries_In in H. destruct H as [g' [Hg' Hc]].
      assert (g' = g) by (eapply NoDup_keys_functional; eauto).
      subst g'. now rewrite Hc.
    - destruct (capture max_thresh (c, g)) as [[cl|]|] eqn:E;
        try discriminate.
      intros _. exists (c, cl). split; [reflexivity|].
      apply captured_entries_In. eauto. }
  transitivity (map fst (filter isc cs)); [apply H1|]. clear H1. revert H2.
  generalize (dict_keys (captured_entries max_thresh cs)) as K.
  intros K. clear Hnd.
  induction cs as [|item l IH]; intros H2; cbn [filter map].
  - reflexivity.
  - rewrite (H2 item (or_introl eq_refl)).
    destruct (isc item); cbn [map]; rewrite IH; auto;
      intros x Hx; apply H2; now right.
Qed.

(** C1. A complex of the mapping is captured (it is a key of
    [assignments]) if and only if at least two of its genes are in the
    item set and, at one of the 1000 scanned thresholds, a cluster with at
    least two members has a Jaccard score of at least 0.5 with its genes.
    The captured complexes are keys of [assignments] once each and in the
    order of the mapping, and [enumerate] numbers them 1, 2, 3, ... in that
    order. The numbering loop returns and writes these numbers: in
    [gene_assignments] every item of the cluster of the [i]-th captured
    complex carries [i], or the number of a later captured complex whose
    cluster holds the item too, and an item of no recorded cluster keeps 0.
    In particular a complex with fewer than two genes in the item set is
    never captured. *)
Theorem capture_iff_two_genes_and_gate
    (complexes : list (string * list string)) (st : locals)
    (max_thresh : Q) :
  NoDup (map fst complexes) ->
  Np.maxQ (maxdists link) = Some max_thresh ->
  scan_complexes complexes = Some st ->
  (forall complex comp_genes,
     In (complex, comp_genes) complexes ->
     (In complex (dict_keys (assignments st)) <->
      (exists g1 g2, g1 <> g2 /\
         In g1 comp_genes /\ In g1 common_genes /\
         In g2 comp_genes /\ In g2 common_genes) /\
      (exists t cl j,
         In t (thresholds max_thresh) /\ cluster_at t cl /\
         cand_jaccard comp_genes cl = Some j /\ (1 # 2 <= j)%Q)) /\
     (length (Np.intersect1d comp_genes common_genes) < 2 ->
      ~ In complex (dict_keys (assignments st)))) /\
  length (thresholds max_thresh) = 1000 /\
  NoDup (dict_keys (assignments st)) /\
  dict_keys (assignments st) =
    filter (fun c => Np.mem_str c (dict_keys (assignments st)))
      (map fst complexes) /\
  captured_labels (assignments st) =
    combine (dict_keys (assignments st)) (seq 1 (length (assignments st))) /\
  exists ga,
    label_captured (assignments st) = Some ga /\
    length ga = length common_genes /\
    written_by_last (assignments st) ga.
Proof.
  intros Hnd Hmt Hscan.
  destruct (scan_assignments _ Hscan Hnd) as [mt [Hmt' [Hloop Hasg]]].
  assert (mt = max_thresh) by congruence. subst mt.
  split; [|split; [apply thresholds_length|split; [|split; [|split]]]].
  - intros complex comp_genes Hin.
    destruct (scan_captured_iff complexes complex comp_genes Hnd Hmt Hscan Hin)
      as [r [Hr Hget]].
    rewrite dict_get_In, Hget, <- intersect1d_two.
    apply capture_spec in Hr. cbn [fst snd] in Hr.
    assert (Hiff :
      (exists v, r = Some v) <->
      2 <= length (Np.intersect1d comp_genes common_genes) /\
      (exists t cl j,
         In t (thresholds max_thresh) /\ cluster_at t cl /\
         cand_jaccard comp_genes cl = Some j /\ (1 # 2 <= j)%Q));
      [|split; [exact Hiff|intros Hlt Hk; apply Hiff in Hk; lia]].
    destruct r as [cl|].
    + destruct Hr as [Hge [t [j [pre [post [E [Hj [Hgate _]]]]]]]].
      split; [|eauto]. intros _. split; [exact Hge|].
      exists t, cl, j.
      assert (Hc : In (t, cl) (candidates (thresholds max_thresh))).
      { rewrite E. apply in_or_app. right. now left. }
      apply candidates_In in Hc. tauto.
    + split; [intros [v Hv]; discriminate|].
      intros [Hge [t [cl [j [Ht [Hcl [Hj Hgate]]]]]]]. exfalso.
      destruct Hr as [Hlt|Hnone]; [lia|].
      assert (Hc : In (t, cl) (candidates (thresholds max_thresh))).
      { apply candidates_In. auto. }
      specialize (Hnone _ _ Hc Hj). exact (Qlt_not_le _ _ Hnone Hgate).
  - rewrite Hasg. now apply captured_entries_NoDup.
  - rewrite Hasg. now apply captured_entries_keys_filter.
  - unfold captured_labels, enumerate. apply captured_labels_from.
  - destruct (label_captured_total (scan_recorded_ok _ Hscan)) as [ga Hga].
    destruct (label_captured_spec _ Hga) as [Hlen Hw].
    exists ga. split; [exact Hga|]. split; [exact Hlen|].
    apply winner_written. exact Hw.
Qed.

(** C2. The index set recorded for a captured complex is a cluster found
    at a scanned threshold [t]; its score [j] is the best score of the
    complex over all clusters of all 1000 scanned thresholds; and every
    scanned threshold at which some cluster reaches [j] is at least [t]:
    the recorded match is the one found at the smallest threshold that
    achieves the best score, and ties at higher thresholds did not
    overwrite it. *)
Theorem recorded_match_is_first_best
    (complexes : list (string * list string)) (st : locals)
    (max_thresh : Q) (complex : string) (comp_genes : list string)
    (idxs : list nat) :
  NoDup (map fst complexes) ->
  Np.maxQ (maxdists link) = Some max_thresh ->
  (0 <= max_thresh)%Q ->
  scan_complexes complexes = Some st ->
  In (complex, comp_genes) complexes ->
  dict_get complex (assignments st) = Some idxs ->
  exists t j,
    In t (thresholds max_thresh) /\ cluster_at t idxs /\
    cand_jaccard comp_genes idxs = Some j /\ (1 # 2 <= j)%Q /\
    forall t' cl' j',
      In t' (thresholds max_thresh) -> cluster_at t' cl' ->
      cand_jaccard comp_genes cl' = Some j' ->
      (j' <= j)%Q /\ ((j' == j)%Q -> (t <= t')%Q).
Proof.
  intros Hnd Hmt Hpos Hscan Hin Hget.
  destruct (scan_captured_iff complexes complex comp_genes Hnd Hmt Hscan Hin)
    as [r [Hr Hget']].
  rewrite Hget in Hget'. subst r. apply capture_spec in Hr.
  cbn [fst snd] in Hr.
  destruct Hr as [_ [t [j Hfb]]].
  pose proof Hfb as [pre [post [E [Hj [Hgate [Hpre Hpost]]]]]].
  assert (Hc : In (t, idxs) (candidates (thresholds max_thresh))).
  { rewrite E. apply in_or_app. right. now left. }
  apply candidates_In in Hc. destruct Hc as [Ht Hcl].
  exists t, j. repeat (split; [assumption|]).
  intros t' cl' j' Ht' Hcl' Hj'.
  assert (Hc' : In (t', cl') (candidates (thresholds max_thresh))).
  { apply candidates_In. auto. }
  rewrite E in Hc'. apply in_app_or in Hc'.
  destruct Hc' as [Hc'|[Hc'|Hc']].
  - specialize (Hpre _ _ Hc' Hj'). split; [now apply Qlt_le_weak|].
    intros Heq. rewrite Heq in Hpre. now apply Qlt_irrefl in Hpre.
  - inversion Hc'. subst. assert (j' = j) by congruence. subst.
    split; [apply Qle_refl|intros _; apply Qle_refl].
  - split; [eapply Hpost; eauto|]. intros _.
    assert (Hs : StronglySorted
                   (fun c c' : Q * list nat => (fst c <= fst c')%Q)
                   (candidates (thresholds max_thresh))).
    { apply candidates_sorted. unfold thresholds.
      now apply linspace_StronglySorted. }
    rewrite E in Hs. apply StronglySorted_split in Hs.
    rewrite Forall_forall in Hs. exact (Hs _ Hc').
Qed.


(** *** The returned array *)

Lemma output_spec complexes out :
  get_first_level_clusters complexes = Some out ->
  exists st ga,
    scan_complexes complexes = Some st /\
    label_captured (assignments st) = Some ga /\
    Np.max ga = Some (length (assignments st)) /\
    length out =
      length (fcluster link (highest_thresh st + (1 # 10))%Q) /\
    forall k, k < length out ->
      nth k out 0 =
      if winner (assignments st) k =? 0
      then length (assignments st) + 1 +
           nth k (fcluster link (highest_thresh st + (1 # 10))%Q) 0
      else winner (assignments st) k.
Proof.
  unfold Matching.get_first_level_clusters. intros H.
  apply bind_Some in H. destruct H as [st [Hscan H]].
  apply bind_Some in H. destruct H as [ga [Hga H]].
  apply combine_with_fallback_spec in H.
  destruct H as [m [Hm [Hlen Hnth]]].
  pose proof (scan_recorded_ok _ Hscan) as Hok.
  pose proof (max_label_captured Hga Hok Hm) as Em.
  subst m.
  exists st, ga. repeat (split; [assumption|]).
  intros k Hk. rewrite (Hnth k Hk).
  destruct (label_captured_spec (assignments st) Hga) as [_ Hw].
  now rewrite Hw.
Qed.

(** *** The function returns *)

Lemma argwhere_eq_lt a v i : In i (Np.argwhere_eq a v) -> i < length a.
Proof.
  intros H. apply argwhere_eq_In in H. apply nth_error_Some. congruence.
Qed.

(** On a linkage over the item set, with at least one item and one merge,
    no indexing fails and an array is returned. *)
Lemma get_first_level_clusters_returns complexes :
  (forall t, length (fcluster link t) = length common_genes) ->
  common_genes <> [] ->
  maxdists link <> [] ->
  exists st out,
    scan_complexes complexes = Some st /\
    get_first_level_clusters complexes = Some out.
Proof.
  intros Hshape Hne Hmd.
  destruct (Np.maxQ (maxdists link)) as [mt|] eqn:Hmt;
    [|destruct (maxdists link); [now elim Hmd|discriminate]].
  assert (Hcap : forall item, In item complexes ->
                   exists r, capture mt item = Some r).
  { intros item _. unfold Matching.capture, Matching.complex_body.
    destruct (length (Np.intersect1d (snd item) common_genes) <? 2);
      [simpl; eauto|].
    rewrite thresh_loop_candidates.
    destruct (@cand_loop_total (fst item) (snd item)
                (candidates (thresholds mt))) with
      (st := {| assignments := assignments init_locals;
                highest_thresh := highest_thresh init_locals;
                best_jaccard := 0 |}) as [s Hs].
    - intros [t cl] Hc. apply candidates_In in Hc.
      destruct Hc as [_ [label [_ [-> _]]]]. simpl.
      unfold Matching.cand_jaccard.
      destruct (@take_total _ common_genes
                  (Np.argwhere_eq (fcluster link t) label)) as [g Hg].
      + intros i Hi. rewrite <- (Hshape t). now apply argwhere_eq_lt in Hi.
      + rewrite Hg. simpl. eauto.
    - rewrite Hs. simpl. eauto. }
  destruct (complex_loop_total mt complexes Hcap init_locals) as [st Hloop].
  assert (Hscan : scan_complexes complexes = Some st).
  { unfold Matching.scan_complexes. rewrite Hmt. exact Hloop. }
  destruct (label_captured_total (scan_recorded_ok _ Hscan)) as [ga Hga].
  destruct (label_captured_spec _ Hga) as [Hlen _].
  destruct (@combine_with_fallback_total ga (highest_thresh st)) as [out Hout].
  - intros ->. simpl in Hlen. destruct common_genes; [now elim Hne|].
    discriminate.
  - now rewrite Hshape.
  - exists st, out. split; [exact Hscan|].
    unfold Matching.get_first_level_clusters.
    rewrite Hscan. simpl bind. rewrite Hga. exact Hout.
Qed.

Lemma winner_bound asg k : winner asg k <= length asg.
Proof.
  unfold winner. destruct (winner_from_bound 0 asg k); lia.
Qed.

(** C4, as the code has it. On a linkage over the N items of a non-empty
    item set the function returns an array that gives every one of the N
    items a positive label. An item recorded for a captured complex keeps a
    captured-complex label: the number [enumerate] gave the last captured
    complex that recorded it. Every other item gets the label of its
    cluster in the cut at [highest_thresh + 0.1] plus
    (largest captured label) + 1, where the largest captured label is the
    number of captured complexes; such a fallback label exceeds every
    captured-complex label. *)
Theorem every_item_labelled (complexes : list (string * list string)) :
  (forall t, length (fcluster link t) = length common_genes) ->
  common_genes <> [] ->
  maxdists link <> [] ->
  exists st ga out,
    scan_complexes complexes = Some st /\
    label_captured (assignments st) = Some ga /\
    Np.max ga = Some (length (assignments st)) /\
    get_first_level_clusters complexes = Some out /\
    length out = length common_genes /\
    (forall e, In e (captured_labels (assignments st)) ->
       1 <= snd e <= length (assignments st)) /\
    forall k, k < length common_genes ->
      1 <= nth k out 0 /\
      ((exists i complex idxs,
          nth_error (assignments st) i = Some (complex, idxs) /\
          In k idxs /\
          nth k out 0 = i + 1 /\
          (forall i' complex' idxs',
             nth_error (assignments st) i' = Some (complex', idxs') ->
             In k idxs' -> i' <= i))
       \/
       ((forall complex idxs,
           In (complex, idxs) (assignments st) -> ~ In k idxs) /\
        nth k out 0 =
          length (assignments st) + 1 +
          nth k (fcluster link (highest_thresh st + (1 # 10))%Q) 0 /\
        forall e, In e (captured_labels (assignments st)) ->
          snd e < nth k out 0)).
Proof.
  intros Hshape Hne Hmd.
  destruct (get_first_level_clusters_returns complexes Hshape Hne Hmd)
    as [st [out [Hscan Hout]]].
  destruct (output_spec _ Hout) as [st' [ga [Hscan' [Hga [Hm [Hlen Hnth]]]]]].
  assert (st' = st) by congruence. subst st'.
  assert (Hlab : forall e, In e (captured_labels (assignments st)) ->
                   1 <= snd e <= length (assignments st)).
  { intros e He. unfold captured_labels in He. apply in_map_iff in He.
    destruct He as [[i [c idxs]] [<- Hin]]. simpl.
    apply enumerate_In in Hin.
    assert (i < length (assignments st)) by (apply nth_error_Some; congruence).
    lia. }
  exists st, ga, out. repeat (split; [assumption|]).
  rewrite Hshape in Hlen. split; [exact Hlen|]. split; [exact Hlab|].
  intros k Hk. rewrite Hnth by congruence.
  destruct (Nat.eqb_spec (winner (assignments st) k) 0) as [E|Hne0].
  - split; [lia|]. right.
    split; [now apply (proj1 (winner_from_zero 0 (assignments st) k))|].
    split; [reflexivity|]. intros e He. specialize (Hlab e He). lia.
  - split; [lia|]. left.
    destruct (winner_from_last 0 (assignments st) k Hne0)
      as [i [c [idxs [Ew [Hn [Hin Hlast]]]]]].
    exists i, c, idxs. unfold winner. rewrite Ew. auto.
Qed.

(** C3, as the code has it. A complex for which no cluster at any scanned
    threshold reaches a Jaccard score of 0.5 is never captured: it is not
    a key of [assignments] and no label is made for it. An item that no
    captured complex recorded gets a fallback label; an item that carries
    a captured-complex label was recorded by another, captured complex. *)
Theorem uncaptured_complex_gets_no_label
    (complexes : list (string * list string)) (st : locals)
    (out : list nat) (max_thresh : Q) (complex : string)
    (comp_genes : list string) :
  NoDup (map fst complexes) ->
  Np.maxQ (maxdists link) = Some max_thresh ->
  scan_complexes complexes = Some st ->
  get_first_level_clusters complexes = Some out ->
  In (complex, comp_genes) complexes ->
  (forall t cl j,
     In t (thresholds max_thresh) -> cluster_at t cl ->
     cand_jaccard comp_genes cl = Some j -> (j < 1 # 2)%Q) ->
  dict_get complex (assignments st) = None /\
  ~ In complex (map fst (captured_labels (assignments st))) /\
  forall k, k < length out ->
    ((forall other idxs,
        In (other, idxs) (assignments st) -> ~ In k idxs) ->
     nth k out 0 =
       length (assignments st) + 1 +
       nth k (fcluster link (highest_thresh st + (1 # 10))%Q) 0) /\
    (nth k out 0 <= length (assignments st) ->
     exists other idxs,
       other <> complex /\ In (other, idxs) (assignments st) /\
       In k idxs).
Proof.
  intros Hnd Hmt Hscan Hout Hin Hgate.
  destruct (scan_captured_iff complexes complex comp_genes Hnd Hmt Hscan Hin)
    as [r [Hr Hget]].
  assert (Hnone : dict_get complex (assignments st) = None).
  { destruct r as [cl|]; [|exact Hget]. exfalso.
    apply capture_spec in Hr. cbn [fst snd] in Hr.
    destruct Hr as [_ [t [j [pre [post [E [Hj [Hg _]]]]]]]].
    assert (Hc : In (t, cl) (candidates (thresholds max_thresh))).
    { rewrite E. apply in_or_app. right. now left. }
    apply candidates_In in Hc. destruct Hc as [Ht Hcl].
    exact (Qlt_not_le _ _ (Hgate _ _ _ Ht Hcl Hj) Hg). }
  assert (Hkey : ~ In complex (dict_keys (assignments st))).
  { intros Hk. apply dict_get_In in Hk. destruct Hk as [v Hv]. congruence. }
  split; [exact Hnone|]. split.
  { intros Hk. apply Hkey. unfold captured_labels in Hk.
    rewrite map_map in Hk. simpl in Hk.
    apply in_map_iff in Hk. destruct Hk as [[i [c idxs]] [E Hi]].
    simpl in E. subst c. apply enumerate_In, nth_error_In in Hi.
    unfold dict_keys. apply in_map_iff. exists (complex, idxs). auto. }
  destruct (output_spec _ Hout) as [st' [ga [Hscan' [_ [_ [_ Hnth]]]]]].
  assert (st' = st) by congruence. subst st'.
  intros k Hk. rewrite (Hnth k Hk). split.
  - intros Hfree.
    apply (proj2 (winner_from_zero 0 (assignments st) k)) in Hfree.
    unfold winner. now rewrite Hfree.
  - destruct (Nat.eqb_spec (winner (assignments st) k) 0) as [E|Hne];
      [lia|]. intros _.
    destruct (winner_from_last 0 (assignments st) k Hne)
      as [i [c [idxs [_ [Hn [Hk' _]]]]]].
    apply nth_error_In in Hn. exists c, idxs.
    split; [|auto]. intros ->. apply Hkey.
    unfold dict_keys. apply in_map_iff. exists (complex, idxs). auto.
Qed.

(** *** [highest_thresh] does not depend on the order *)

Lemma cand_loop_sim complex comp_genes cs :
  forall sa sb sa' sb',
    best_jaccard sa = best_jaccard sb ->
    foldM (cand_body complex comp_genes) cs sa = Some sa' ->
    foldM (cand_body complex comp_genes) cs sb = Some sb' ->
    exists events,
      largest_of (highest_thresh sa') (highest_thresh sa :: events) /\
      largest_of (highest_thresh sb') (highest_thresh sb :: events).
Proof.
  assert (Hself : forall h, largest_of h [h]).
  { intros h. split.
    - intros y [<-|[]]. apply Qle_refl.
    - exists h. split; [now left|reflexivity]. }
  assert (Hgrow : forall h0 t h' events,
             largest_of h' ((if Qlt_bool h0 t then t else h0) :: events) ->
             largest_of h' (h0 :: t :: events)).
  { intros h0 t h' events [Hub [y [Hy Ey]]].
    assert (H1 : (h0 <= (if Qlt_bool h0 t then t else h0))%Q).
    { destruct (Qlt_bool h0 t) eqn:E; [|apply Qle_refl].
      apply Qlt_bool_iff in E. now apply Qlt_le_weak. }
    assert (H2 : (t <= (if Qlt_bool h0 t then t else h0))%Q).
    { destruct (Qlt_bool h0 t) eqn:E; [apply Qle_refl|].
      now apply Qlt_bool_false in E. }
    pose proof (Hub _ (or_introl eq_refl)) as H3. split.
    - intros z [<-|[<-|Hz]].
      + eapply Qle_trans; eauto.
      + eapply Qle_trans; eauto.
      + apply Hub. now right.
    - destruct Hy as [<-|Hy].
      + destruct (Qlt_bool h0 t).
        * exists t. split; [right; now left|exact Ey].
        * exists h0. split; [now left|exact Ey].
      + exists y. split; [right; now right|exact Ey]. }
  induction cs as [|c cs IH]; intros sa sb sa' sb' Hbest Ha Hb.
  - simpl in Ha, Hb. inversion Ha. inversion Hb. subst. exists []. auto.
  - simpl in Ha, Hb.
    apply bind_Some in Ha. destruct Ha as [sa1 [Ha1 Ha]].
    apply bind_Some in Hb. destruct Hb as [sb1 [Hb1 Hb]].
    apply cand_body_Some in Ha1, Hb1.
    destruct Ha1 as [j [Hj Ea]], Hb1 as [j' [Hj' Eb]].
    assert (j' = j) by congruence. subst j'.
    unfold record_match in Ea, Eb. rewrite <- Hbest in Eb.
    destruct (Qlt_bool (best_jaccard sa) j && Qle_bool (1 # 2) j).
    + assert (Hbest1 : best_jaccard sa1 = best_jaccard sb1)
        by (subst; reflexivity).
      destruct (IH _ _ _ _ Hbest1 Ha Hb) as [events [Hla Hlb]].
      exists (fst c :: events). subst sa1 sb1. simpl in Hla, Hlb. auto.
    + subst sa1 sb1. eauto.
Qed.

(** Processing one complex raises [highest_thresh] to the larger of its
    value before and the complex's own peak. *)
Lemma complex_body_peak max_thresh st item st' :
  (0 <= highest_thresh st)%Q ->
  complex_body max_thresh st item = Some st' ->
  largest_of (highest_thresh st') [highest_thresh st; peak max_thresh item].
Proof.
  intros Hpos H.
  destruct (complex_body_success _ _ _ H init_locals) as [si Hsi].
  unfold Matching.peak. rewrite Hsi.
  unfold Matching.complex_body in H, Hsi.
  destruct (length (Np.intersect1d (snd item) common_genes) <? 2).
  - inversion H. inversion Hsi. subst. simpl. split.
    + intros y [<-|[<-|[]]]; [apply Qle_refl|exact Hpos].
    + exists (highest_thresh st'). split; [now left|reflexivity].
  - rewrite thresh_loop_candidates in H, Hsi.
    pose proof (fun Hbest =>
                  cand_loop_sim (fst item) (snd item)
                    (candidates (thresholds max_thresh)) _ _ Hbest H Hsi)
      as Hsim.
    destruct (Hsim eq_refl)
      as [events [[Hua [ya [Hya Eya]]] [Hub [yb [Hyb Eyb]]]]].
    simpl in Hua, Hya, Hub, Hyb. split.
    + intros y [<-|[<-|[]]]; [apply Hua; now left|].
      rewrite Eyb. destruct Hyb as [<-|Hyb].
      * eapply Qle_trans; [exact Hpos|]. apply Hua. now left.
      * apply Hua. now right.
    + destruct Hya as [<-|Hya].
      * exists (highest_thresh st). split; [now left|exact Eya].
      * exists (highest_thresh si). split; [right; now left|].
        apply Qle_antisym.
        -- rewrite Eya. apply Hub. now right.
        -- rewrite Eyb. destruct Hyb as [<-|Hyb].
           ++ eapply Qle_trans; [exact Hpos|]. apply Hua. now left.
           ++ apply Hua. now right.
Qed.

Lemma complex_loop_peaks max_thresh cs :
  forall st st',
    (0 <= highest_thresh st)%Q ->
    foldM (complex_body max_thresh) cs st = Some st' ->
    largest_of (highest_thresh st')
      (highest_thresh st :: map (peak max_thresh) cs).
Proof.
  induction cs as [|item cs IH]; intros st st' Hpos H.
  - simpl in H. inversion H. subst. simpl. split.
    + intros y [<-|[]]. apply Qle_refl.
    + exists (highest_thresh st'). split; [now left|reflexivity].
  - simpl in H. apply bind_Some in H. destruct H as [s1 [H1 H2]].
    destruct (complex_body_peak max_thresh st item Hpos H1)
      as [Hu1 [y1 [Hy1 Ey1]]].
    assert (Hpos1 : (0 <= highest_thresh s1)%Q).
    { eapply Qle_trans; [exact Hpos|]. apply Hu1. now left. }
    destruct (IH _ _ Hpos1 H2) as [Hu [y [Hy Ey]]]. simpl. split.
    + intros z [<-|[<-|Hz]].
      * eapply Qle_trans; [apply Hu1; now left|]. apply Hu. now left.
      * eapply Qle_trans; [apply Hu1; right; now left|]. apply Hu. now left.
      * apply Hu. now right.
    + destruct Hy as [<-|Hy].
      * destruct Hy1 as [<-|[<-|[]]].
        -- exists (highest_thresh st). split; [now left|].
           now rewrite Ey.
        -- exists (peak max_thresh item). split; [right; now left|].
           now rewrite Ey.
      * exists y. split; [right; now right|exact Ey].
Qed.

Lemma largest_of_Permutation h h' x ys ys' :
  Permutation ys ys' ->
  largest_of h (x :: ys) -> largest_of h' (x :: ys') -> (h == h')%Q.
Proof.
  intros Hp [Hu [y [Hy Ey]]] [Hu' [y' [Hy' Ey']]].
  assert (Hp' : Permutation (x :: ys) (x :: ys')) by now apply perm_skip.
  apply Qle_antisym.
  - rewrite Ey. apply Hu'. exact (Permutation_in _ Hp' Hy).
  - rewrite Ey'. apply Hu. exact (Permutation_in _ (Permutation_sym Hp') Hy').
Qed.

(** *** Order of the complexes *)

Lemma winner_zero_Permutation asg asg' k :
  Permutation asg asg' -> winner asg k = 0 -> winner asg' k = 0.
Proof.
  unfold winner. intros Hp H. apply winner_from_zero.
  intros c idxs Hin. apply (proj1 (winner_from_zero 0 asg k) H c idxs).
  apply (Permutation_in _ (Permutation_sym Hp) Hin).
Qed.

Lemma combine_with_fallback_inv ga highest out :
  combine_with_fallback ga highest = Some out ->
  ga <> [] /\
  forall i, In i (Np.nonzero ga) ->
    i < length (fcluster link (highest + (1 # 10))%Q).
Proof.
  unfold Matching.combine_with_fallback. intros H.
  apply bind_Some in H. destruct H as [m [Hm H]].
  apply bind_Some in H. destruct H as [vals [Hvals H]].
  split; [intros ->; discriminate|].
  apply mapM_Some in Hvals.
  destruct (@put_many_spec _ _ _ ga _ H Hvals) as [Hlt _].
  intros i Hi. specialize (Hlt i Hi). now rewrite length_map in Hlt.
Qed.

Lemma combine_with_fallback_total' ga highest :
  ga <> [] ->
  (forall i, In i (Np.nonzero ga) ->
     i < length (fcluster link (highest + (1 # 10))%Q)) ->
  exists out, combine_with_fallback ga highest = Some out.
Proof.
  intros Hne Hlt. unfold Matching.combine_with_fallback.
  destruct ga as [|x ga']; [now elim Hne|].
  set (ga := x :: ga') in *. simpl Np.max. cbv beta iota. simpl bind.
  destruct (@take_total _ ga (Np.nonzero ga)) as [vals Hvals].
  { intros i Hi. apply nonzero_In in Hi. destruct Hi as [y [Hy _]].
    apply nth_error_Some. congruence. }
  rewrite Hvals. simpl bind. apply put_many_total.
  intros i Hi. rewrite length_map. now apply Hlt.
Qed.

(** C6. Processing the complexes in another order captures the same
    complexes with the same clusters, gives a nonzero pre-fallback
    assignment to the same items and ends with the same [highest_thresh].
    In either order the items with a nonzero assignment are exactly the
    items of the recorded clusters, and every item of a recorded cluster
    carries the number of the last processed complex whose cluster holds
    it: later writes overwrite earlier ones. When the cut of the
    linkage depends on the value of the threshold only, the two returned
    arrays have the same length and agree on every item that is not
    captured: only the numbers on captured items can differ. *)
Theorem captured_items_order_independent
    (complexes complexes' : list (string * list string)) (st : locals) :
  NoDup (map fst complexes) ->
  Permutation complexes complexes' ->
  scan_complexes complexes = Some st ->
  exists ga st' ga',
    label_captured (assignments st) = Some ga /\
    scan_complexes complexes' = Some st' /\
    label_captured (assignments st') = Some ga' /\
    Permutation (assignments st) (assignments st') /\
    (highest_thresh st == highest_thresh st')%Q /\
    (forall k, nth k ga 0 <> 0 <-> nth k ga' 0 <> 0) /\
    (forall k, nth k ga 0 <> 0 ->
       exists i complex idxs,
         nth_error (assignments st) i = Some (complex, idxs) /\
         In k idxs /\ nth k ga 0 = i + 1 /\
         forall i' complex' idxs',
           nth_error (assignments st) i' = Some (complex', idxs') ->
           In k idxs' -> i' <= i) /\
    written_by_last (assignments st) ga /\
    written_by_last (assignments st') ga' /\
    (forall out,
       (forall t t', (t == t')%Q -> fcluster link t = fcluster link t') ->
       get_first_level_clusters complexes = Some out ->
       exists out',
         get_first_level_clusters complexes' = Some out' /\
         length out' = length out /\
         forall k, k < length out -> nth k ga 0 = 0 ->
           nth k out' 0 = nth k out 0).
Proof.
  intros Hnd Hperm Hscan.
  destruct (scan_assignments _ Hscan Hnd) as [mt [Hmt [Hloop Hasg]]].
  assert (Hcap : forall item, In item complexes' ->
                   exists r, capture mt item = Some r).
  { intros item Hin. eapply complex_loop_captures; [exact Hloop|].
    apply (Permutation_in _ (Permutation_sym Hperm) Hin). }
  destruct (complex_loop_total mt complexes' Hcap init_locals) as [st' Hloop'].
  assert (Hscan' : scan_complexes complexes' = Some st').
  { unfold Matching.scan_complexes. rewrite Hmt. exact Hloop'. }
  assert (Hnd' : NoDup (map fst complexes')).
  { eapply Permutation_NoDup; [|exact Hnd]. now apply Permutation_map. }
  assert (Hasg' : assignments st' = captured_entries mt complexes').
  { apply complex_loop_assignments in Hloop'; auto. }
  assert (Hp : Permutation (assignments st) (assignments st')).
  { rewrite Hasg, Hasg'. unfold Matching.captured_entries.
    now apply Permutation_flat_map. }
  assert (Hhi : (highest_thresh st == highest_thresh st')%Q).
  { assert (H0 : (0 <= highest_thresh init_locals)%Q) by apply Qle_refl.
    eapply largest_of_Permutation;
      [|exact (complex_loop_peaks _ _ _ H0 Hloop)
       |exact (complex_loop_peaks _ _ _ H0 Hloop')].
    now apply Permutation_map. }
  destruct (label_captured_total (scan_recorded_ok _ Hscan)) as [ga Hga].
  destruct (label_captured_total (scan_recorded_ok _ Hscan')) as [ga' Hga'].
  exists ga, st', ga'. repeat (split; [assumption|]).
  destruct (label_captured_spec _ Hga) as [Hlen Hw].
  destruct (label_captured_spec _ Hga') as [Hlen' Hw'].
  assert (Hnz : forall k, nth k ga 0 <> 0 <-> nth k ga' 0 <> 0).
  { intros k. rewrite Hw, Hw'. split; intros H E; apply H.
    - exact (winner_zero_Permutation k (Permutation_sym Hp) E).
    - exact (winner_zero_Permutation k Hp E). }
  split; [exact Hnz|]. split; [|split; [|split]].
  - intros k Hk. rewrite Hw in Hk |- *.
    destruct (winner_from_last 0 (assignments st) k Hk)
      as [i [c [idxs [Ew [Hn [Hin Hlast]]]]]].
    exists i, c, idxs. unfold winner. rewrite Ew. auto.
  - apply winner_written. exact Hw.
  - apply winner_written. exact Hw'.
  - intros out Hproper Hout.
    assert (Hfc : fcluster link (highest_thresh st' + (1 # 10))%Q =
                  fcluster link (highest_thresh st + (1 # 10))%Q).
    { apply Hproper. now rewrite Hhi. }
    destruct (output_spec _ Hout) as [st0 [ga0 [Hs0 [Hg0 [_ [Hlo Hno]]]]]].
    assert (st0 = st) by congruence. subst st0.
    assert (ga0 = ga) by congruence. subst ga0.
    unfold Matching.get_first_level_clusters in Hout.
    rewrite Hscan in Hout. simpl in Hout. rewrite Hga in Hout. simpl in Hout.
    destruct (combine_with_fallback_inv _ _ Hout) as [Hne Hlt].
    destruct (@combine_with_fallback_total' ga' (highest_thresh st'))
      as [out' Hout'].
    { intros ->. simpl in Hlen'. rewrite <- Hlen' in Hlen.
      destruct ga; [now elim Hne|discriminate]. }
    { intros i Hi. rewrite Hfc. apply Hlt.
      apply nonzero_In in Hi. destruct Hi as [x [Hx Hx0]].
      apply nonzero_In. exists (nth i ga 0). split.
      - apply nth_error_nth'. rewrite Hlen, <- Hlen'.
        apply nth_error_Some. congruence.
      - apply Hnz. now rewrite (nth_error_nth _ _ 0 Hx). }
    assert (Hgf : get_first_level_clusters complexes' = Some out').
    { unfold Matching.get_first_level_clusters.
      rewrite Hscan'. simpl. rewrite Hga'. exact Hout'. }
    exists out'. split; [exact Hgf|].
    destruct (output_spec _ Hgf) as [st1 [ga1 [Hs1 [_ [_ [Hlo' Hno']]]]]].
    assert (st1 = st') by congruence. subst st1.
    split; [rewrite Hlo, Hlo', Hfc; reflexivity|].
    intros k Hk Hz.
    assert (Hk' : k < length out') by (rewrite Hlo', Hfc, <- Hlo; exact Hk).
    rewrite (Hno k Hk), (Hno' k Hk'), Hfc.
    rewrite Hw in Hz. rewrite Hz.
    rewrite (winner_zero_Permutation k Hp Hz). simpl.
    now rewrite (Permutation_length Hp).
Qed.

(** *** When nothing is captured *)

Lemma dict_set_not_nil k v d : dict_set k v d <> [].
Proof.
  destruct d as [|[k' v'] d]; simpl; [discriminate|].
  destruct (String.eqb k k'); discriminate.
Qed.

Lemma scan_empty_highest complexes st :
  scan_complexes complexes = Some st ->
  assignments st = [] -> highest_thresh st = 0%Q.
Proof.
  set (P := fun s : locals => assignments s = [] -> highest_thresh s = 0%Q).
  unfold Matching.scan_complexes. intros H. apply bind_Some in H.
  destruct H as [mt [_ H]]. revert H. apply (foldM_inv P).
  - intros s item s' _ Hs. unfold Matching.complex_body.
    destruct (length (Np.intersect1d (snd item) common_genes) <? 2).
    + intros E. inversion E. subst. exact Hs.
    + apply (foldM_inv P); [|exact Hs].
      intros s1 t s1' _ Hs1. unfold Matching.thresh_body.
      apply (foldM_inv P); [|exact Hs1].
      intros s2 label s2' _ Hs2 Hl. apply label_body_cases in Hl.
      destruct Hl as [->|[j ->]]; [exact Hs2|].
      destruct (record_match_cases (fst item)
                  (Np.argwhere_eq (fcluster link t) label) t j s2)
        as [[_ [_ ->]]|[_ ->]]; [|exact Hs2].
      intros E. simpl in E. now apply dict_set_not_nil in E.
  - intros _. reflexivity.
Qed.

Lemma nonzero_zeros n : Np.nonzero (Np.zeros n) = [].
Proof.
  destruct (Np.nonzero (Np.zeros n)) as [|i l] eqn:E; [reflexivity|].
  assert (Hi : In i (Np.nonzero (Np.zeros n))) by (rewrite E; now left).
  apply nonzero_In in Hi. destruct Hi as [x [Hx Hx0]].
  apply nth_error_In in Hx. unfold Np.zeros in Hx.
  apply repeat_spec in Hx. contradiction.
Qed.

Lemma max_zeros n : n <> 0 -> Np.max (Np.zeros n) = Some 0.
Proof.
  destruct n as [|n]; [intros H; now elim H|]. intros _. simpl.
  f_equal. induction n as [|n IH]; simpl; auto.
Qed.

(** C10. When no complex is captured, [highest_thresh] is still 0, the
    largest value of [gene_assignments] is 0, and the returned array is
    the flat clustering at threshold 0.1 with every label increased by
    one. *)
Theorem no_capture_output
    (complexes : list (string * list string)) (st : locals) :
  scan_complexes complexes = Some st ->
  assignments st = [] ->
  common_genes <> [] ->
  highest_thresh st = 0%Q /\
  label_captured (assignments st) = Some (Np.zeros (length common_genes)) /\
  Np.max (Np.zeros (length common_genes)) = Some 0 /\
  get_first_level_clusters complexes =
    Some (map (fun c => c + 1) (fcluster link (0 + (1 # 10))%Q)).
Proof.
  intros Hscan Hasg Hne.
  pose proof (scan_empty_highest _ Hscan Hasg) as Hhi.
  assert (Hn : length common_genes <> 0).
  { destruct common_genes; [now elim Hne|discriminate]. }
  split; [exact Hhi|]. rewrite Hasg.
  split; [reflexivity|]. split; [now apply max_zeros|].
  unfold Matching.get_first_level_clusters. rewrite Hscan. simpl bind.
  rewrite Hasg, Hhi.
  change (Matching.label_captured common_genes [])
    with (Some (Np.zeros (length common_genes))).
  simpl bind. unfold Matching.combine_with_fallback.
  rewrite (max_zeros Hn), nonzero_zeros. unfold Np.put_many. simpl.
  f_equal. apply map_ext. intros c. lia.
Qed.

End MatcherFacts.

(** C8. When the Jaccard denominator, the size of the union of the
    cluster's genes and the complex's genes, is zero, the score is 0, and
    the guarded update leaves the best score, [assignments] and
    [highest_thresh] as they were. *)
Theorem zero_denominator_never_captures
    (cluster_genes comp_genes : list string) (complex : string)
    (cluster : list nat) (thresh : Q) (st : locals) :
  length (Np.union1d cluster_genes comp_genes) = 0 ->
  (forall numer, jaccard_score numer 0 = 0%Q) /\
  cluster_jaccard cluster_genes comp_genes = 0%Q /\
  record_match complex cluster thresh
    (cluster_jaccard cluster_genes comp_genes) st = st.
Proof.
  intros Hden. split; [reflexivity|].
  assert (E : cluster_jaccard cluster_genes comp_genes = 0%Q).
  { unfold cluster_jaccard. rewrite Hden. reflexivity. }
  split; [exact E|]. rewrite E. unfold record_match.
  replace (Qle_bool (1 # 2) 0) with false by reflexivity.
  now rewrite andb_false_r.
Qed.

(** ** The SciPy model *)

Lemma scipy_upd_length (T : list nat) (i v : nat) :
  length (SciPy.upd T i v) = length T.
Proof.
  revert i. induction T as [|x T IH]; intros [|i]; simpl; auto.
Qed.

(** The model labels every item: the cut of a linkage with [n - 1] rows has
    [n] labels. *)
Lemma scipy_monocrit_length (Z : SciPy.linkage) (MD : list Q) (t : Q)
    (n : nat) :
  forall fuel node inside st,
    length (snd (SciPy.monocrit fuel Z MD t n node inside st)) =
    length (snd st).
Proof.
  assert (Hleaf : forall i b st,
             length (snd (SciPy.assign_leaf i b st)) = length (snd st)).
  { intros i b st. unfold SciPy.assign_leaf. simpl. apply scipy_upd_length. }
  induction fuel as [|fuel IH]; intros node inside st; simpl.
  - reflexivity.
  - destruct (nth_error Z (node - n)) as [[[[lc rc] d] sz]|]; [|reflexivity].
    destruct (n <=? lc); destruct (n <=? rc);
      destruct (lc <? n); destruct (rc <? n);
      rewrite ?Hleaf, ?IH; reflexivity.
Qed.

Lemma scipy_fcluster_length (Z : SciPy.linkage) (t : Q) :
  length (SciPy.fcluster Z t) = S (length Z).
Proof.
  unfold SciPy.fcluster. rewrite scipy_monocrit_length. simpl.
  now rewrite repeat_length.
Qed.

(** The cut of the model depends on the value of the threshold only. *)
Lemma scipy_monocrit_Qeq (Z : SciPy.linkage) (MD : list Q) (t t' : Q)
    (n : nat) :
  (t == t')%Q ->
  forall fuel node inside st,
    SciPy.monocrit fuel Z MD t n node inside st =
    SciPy.monocrit fuel Z MD t' n node inside st.
Proof.
  intros Ht. induction fuel as [|fuel IH]; intros node inside st; simpl.
  - reflexivity.
  - destruct (nth_error Z (node - n)) as [[[[lc rc] d] sz]|]; [|reflexivity].
    assert (E : Qle_bool (nth (node - n) MD 0%Q) t =
                Qle_bool (nth (node - n) MD 0%Q) t').
    { apply Qleb_comp; [reflexivity|exact Ht]. }
    rewrite E.
    destruct (n <=? lc); destruct (n <=? rc); rewrite ?IH; reflexivity.
Qed.

Lemma scipy_fcluster_Qeq (Z : SciPy.linkage) (t t' : Q) :
  (t == t')%Q -> SciPy.fcluster Z t = SciPy.fcluster Z t'.
Proof.
  intros Ht. unfold SciPy.fcluster. f_equal. now apply scipy_monocrit_Qeq.
Qed.

(** ** The demonstration linkages, evaluated *)

Module DemoFacts.
Import Demo.

Lemma maxdists5 : Np.maxQ (SciPy.maxdists link5) = Some (9 # 10)%Q.
Proof. vm_compute. reflexivity. Qed.

Lemma maxdists3 : Np.maxQ (SciPy.maxdists link3) = Some (9 # 10)%Q.
Proof. vm_compute. reflexivity. Qed.

(** The five-item scenario of the specification: the pair merged at 0.1 is
    captured with score 1 at the scanned threshold 0.1, and the other items
    get fallback labels from the cut at 0.2. *)
Lemma scan5 : SciPy.run_scan link5 genes5 complexes5 = Some st5.
Proof. vm_compute. reflexivity. Qed.

Lemma run5 : SciPy.run link5 genes5 complexes5 = Some [1; 1; 4; 4; 5].
Proof. vm_compute. reflexivity. Qed.

Lemma scan3 : SciPy.run_scan link3 genes3 complexes3 = Some st3.
Proof. vm_compute. reflexivity. Qed.

Lemma run3 : SciPy.run link3 genes3 complexes3 = Some [1; 1; 4].
Proof. vm_compute. reflexivity. Qed.

Lemma scan3n : SciPy.run_scan link3 genes3 complexes3n = Some st3n.
Proof. vm_compute. reflexivity. Qed.

Lemma run3n : SciPy.run link3 genes3 complexes3n = Some [2; 2; 2].
Proof. vm_compute. reflexivity. Qed.

Lemma run3n_rev : SciPy.run link3 genes3 (rev complexes3n) = Some [2; 2; 1].
Proof. vm_compute. reflexivity. Qed.

Lemma scan3a :
  SciPy.run_scan link3 genes3 complexes3a = Some init_locals.
Proof. vm_compute. reflexivity. Qed.

(** CPX-A stays below the gate at every scanned threshold. *)
Lemma gate3 :
  gate_fails genes3 genes_A
    (candidates SciPy.fcluster link3 (thresholds (9 # 10)%Q)) = true.
Proof. vm_compute. reflexivity. Qed.

Lemma gate3_all t cl j :
  In t (thresholds (9 # 10)%Q) -> cluster_at SciPy.fcluster link3 t cl ->
  cand_jaccard genes3 genes_A cl = Some j -> (j < 1 # 2)%Q.
Proof.
  intros Ht Hcl Hj.
  apply (proj1 (gate_fails_spec genes3 genes_A
                  (candidates SciPy.fcluster link3 (thresholds (9 # 10)%Q)))
           gate3 (t, cl) j); [|exact Hj].
  exact (proj2 (candidates_In SciPy.fcluster link3 (thresholds (9 # 10)%Q)
                  t cl) (conj Ht Hcl)).
Qed.

End DemoFacts.

(** ** The properties on the demonstration linkages *)

Module DemoTinyFacts.
Import Demo DemoTiny.


(** The double nearest to 1/10 is 0x1.999999999999ap-4. *)
Lemma to_double_tenth :
  Float64.of_double (Float64.to_double (1 # 10)) =
  (7205759403792794 # (2 ^ 56))%Q.
Proof. vm_compute. reflexivity. Qed.

Lemma grid_tiny_751 :
  nth_error (Float64.linspace 0 tiny 1000) 751 = Some (1502 # (2 ^ 1074))%Q.
Proof. vm_compute. reflexivity. Qed.



End DemoTinyFacts.


(** C3 as worded fails on [link3]: gene g0 of the never-captured complex
    CPX-A sits at item 0, which the captured complex CPX-B recorded, and
    carries CPX-B's label 1 in the returned array [1; 1; 4]. *)
Lemma uncaptured_gene_labelled :
  ~ uncaptured_genes_fall_back SciPy.fcluster SciPy.maxdists
      Demo.link3 Demo.genes3 Demo.complexes3.
Proof.
  intros H.
  apply (H Demo.st3 [1; 1; 4] (9 # 10)%Q "CPX-A"%string Demo.genes_A
           DemoFacts.maxdists3 DemoFacts.scan3 DemoFacts.run3
           (or_intror (or_introl eq_refl)) DemoFacts.gate3_all
           0 "g0"%string eq_refl (or_introl eq_refl)).
  simpl. left. reflexivity.
Qed.

(** C4 as worded fails on [link3] with two nested complexes: items 0 and 1
    are recorded for CPX-B, whose label is 1, and for CPX-C, processed
    later, whose label 2 they carry in the returned array [2; 2; 2]. *)
Lemma overlapping_captures_overwrite :
  ~ recorded_items_keep_label SciPy.fcluster SciPy.maxdists
      Demo.link3 Demo.genes3 Demo.complexes3n.
Proof.
  intros H.
  specialize (H Demo.st3n [2; 2; 2] "CPX-B"%string 1 [0; 1] 0
                DemoFacts.scan3n DemoFacts.run3n
                (or_introl eq_refl) eq_refl (or_introl eq_refl)).
  discriminate.
Qed.

Lemma capture_iff_two_genes_and_gate_witness :
  NoDup (map fst Demo.complexes5) /\
  Np.maxQ (SciPy.maxdists Demo.link5) = Some (9 # 10)%Q /\
  SciPy.run_scan Demo.link5 Demo.genes5 Demo.complexes5 = Some Demo.st5 /\
  (In "CPX-A"%string (dict_keys (assignments Demo.st5)) <->
   (exists g1 g2, g1 <> g2 /\
      In g1 ["g0"; "g1"]%string /\ In g1 Demo.genes5 /\
      In g2 ["g0"; "g1"]%string /\ In g2 Demo.genes5) /\
   (exists t cl j,
      In t (thresholds (9 # 10)%Q) /\
      cluster_at SciPy.fcluster Demo.link5 t cl /\
      cand_jaccard Demo.genes5 ["g0"; "g1"]%string cl = Some j /\
      (1 # 2 <= j)%Q)) /\
  exists ga,
    label_captured Demo.genes5 (assignments Demo.st5) = Some ga /\
    length ga = length Demo.genes5 /\
    written_by_last (assignments Demo.st5) ga.
Proof.
  assert (Hnd : NoDup (map fst Demo.complexes5)).
  { simpl. constructor; [intros []|constructor]. }
  split; [exact Hnd|]. split; [exact DemoFacts.maxdists5|].
  split; [exact DemoFacts.scan5|].
  destruct (@capture_iff_two_genes_and_gate SciPy.linkage SciPy.fcluster
              SciPy.maxdists Demo.link5 Demo.genes5 Demo.complexes5
              Demo.st5 (9 # 10)%Q Hnd DemoFacts.maxdists5 DemoFacts.scan5)
    as [Hiff [_ [_ [_ [_ Hga]]]]].
  split; [|exact Hga].
  exact (proj1 (Hiff "CPX-A"%string ["g0"; "g1"]%string (or_introl eq_refl))).
Defined.

Lemma recorded_match_is_first_best_witness :
  NoDup (map fst Demo.complexes5) /\
  Np.maxQ (SciPy.maxdists Demo.link5) = Some (9 # 10)%Q /\
  (0 <= 9 # 10)%Q /\
  SciPy.run_scan Demo.link5 Demo.genes5 Demo.complexes5 = Some Demo.st5 /\
  In ("CPX-A"%string, ["g0"; "g1"]%string) Demo.complexes5 /\
  dict_get "CPX-A"%string (assignments Demo.st5) = Some [0; 1] /\
  exists t j,
    In t (thresholds (9 # 10)%Q) /\
    cluster_at SciPy.fcluster Demo.link5 t [0; 1] /\
    cand_jaccard Demo.genes5 ["g0"; "g1"]%string [0; 1] = Some j /\
    (1 # 2 <= j)%Q /\
    forall t' cl' j',
      In t' (thresholds (9 # 10)%Q) ->
      cluster_at SciPy.fcluster Demo.link5 t' cl' ->
      cand_jaccard Demo.genes5 ["g0"; "g1"]%string cl' = Some j' ->
      (j' <= j)%Q /\ ((j' == j)%Q -> (t <= t')%Q).
Proof.
  assert (Hnd : NoDup (map fst Demo.complexes5)).
  { simpl. constructor; [intros []|constructor]. }
  assert (Hpos : (0 <= 9 # 10)%Q) by (unfold Qle; simpl; lia).
  split; [exact Hnd|]. split; [exact DemoFacts.maxdists5|].
  split; [exact Hpos|]. split; [exact DemoFacts.scan5|].
  split; [left; reflexivity|]. split; [reflexivity|].
  exact (@recorded_match_is_first_best SciPy.linkage SciPy.fcluster
           SciPy.maxdists Demo.link5 Demo.genes5 Demo.complexes5
           Demo.st5 (9 # 10)%Q "CPX-A"%string ["g0"; "g1"]%string [0; 1]
           Hnd DemoFacts.maxdists5 Hpos DemoFacts.scan5
           (or_introl eq_refl) eq_refl).
Defined.

Lemma uncaptured_complex_gets_no_label_witness :
  NoDup (map fst Demo.complexes3) /\
  Np.maxQ (SciPy.maxdists Demo.link3) = Some (9 # 10)%Q /\
  SciPy.run_scan Demo.link3 Demo.genes3 Demo.complexes3 = Some Demo.st3 /\
  SciPy.run Demo.link3 Demo.genes3 Demo.complexes3 = Some [1; 1; 4] /\
  In ("CPX-A"%string, Demo.genes_A) Demo.complexes3 /\
  (forall t cl j,
     In t (thresholds (9 # 10)%Q) ->
     cluster_at SciPy.fcluster Demo.link3 t cl ->
     cand_jaccard Demo.genes3 Demo.genes_A cl = Some j -> (j < 1 # 2)%Q) /\
  dict_get "CPX-A"%string (assignments Demo.st3) = None.
Proof.
  assert (Hnd : NoDup (map fst Demo.complexes3)).
  { simpl. constructor; [|constructor; [intros []|constructor]].
    intros [H|[]]. discriminate. }
  split; [exact Hnd|]. split; [exact DemoFacts.maxdists3|].
  split; [exact DemoFacts.scan3|]. split; [exact DemoFacts.run3|].
  split; [right; left; reflexivity|]. split; [exact DemoFacts.gate3_all|].
  exact (proj1 (@uncaptured_complex_gets_no_label SciPy.linkage SciPy.fcluster
                  SciPy.maxdists Demo.link3 Demo.genes3 Demo.complexes3
                  Demo.st3 [1; 1; 4] (9 # 10)%Q "CPX-A"%string
                  Demo.genes_A Hnd DemoFacts.maxdists3 DemoFacts.scan3
                  DemoFacts.run3 (or_intror (or_introl eq_refl))
                  DemoFacts.gate3_all)).
Defined.

Lemma every_item_labelled_witness :
  (forall t, length (SciPy.fcluster Demo.link3 t) = length Demo.genes3) /\
  Demo.genes3 <> [] /\
  SciPy.maxdists Demo.link3 <> [] /\
  exists st ga out,
    SciPy.run_scan Demo.link3 Demo.genes3 Demo.complexes3n = Some st /\
    label_captured Demo.genes3 (assignments st) = Some ga /\
    Np.max ga = Some (length (assignments st)) /\
    SciPy.run Demo.link3 Demo.genes3 Demo.complexes3n = Some out /\
    length out = length Demo.genes3.
Proof.
  assert (Hshape : forall t, length (SciPy.fcluster Demo.link3 t) =
                             length Demo.genes3).
  { intros t. apply scipy_fcluster_length. }
  assert (Hne : Demo.genes3 <> []) by discriminate.
  assert (Hmd : SciPy.maxdists Demo.link3 <> []) by discriminate.
  split; [exact Hshape|]. split; [exact Hne|]. split; [exact Hmd|].
  destruct (@every_item_labelled SciPy.linkage SciPy.fcluster SciPy.maxdists
              Demo.link3 Demo.genes3 Demo.complexes3n Hshape Hne Hmd)
    as [st [ga [out [H1 [H2 [H3 [H4 [H5 _]]]]]]]].
  exists st, ga, out. auto.
Defined.


Lemma captured_items_order_independent_witness :
  NoDup (map fst Demo.complexes3n) /\
  Permutation Demo.complexes3n (rev Demo.complexes3n) /\
  SciPy.run_scan Demo.link3 Demo.genes3 Demo.complexes3n = Some Demo.st3n /\
  exists ga st' ga' out',
    label_captured Demo.genes3 (assignments Demo.st3n) = Some ga /\
    SciPy.run_scan Demo.link3 Demo.genes3 (rev Demo.complexes3n) = Some st' /\
    label_captured Demo.genes3 (assignments st') = Some ga' /\
    Permutation (assignments Demo.st3n) (assignments st') /\
    (highest_thresh Demo.st3n == highest_thresh st')%Q /\
    (forall k, nth k ga 0 <> 0 <-> nth k ga' 0 <> 0) /\
    written_by_last (assignments Demo.st3n) ga /\
    written_by_last (assignments st') ga' /\
    SciPy.run Demo.link3 Demo.genes3 (rev Demo.complexes3n) = Some out' /\
    length out' = 3.
Proof.
  assert (Hnd : NoDup (map fst Demo.complexes3n)).
  { simpl. constructor; [|constructor; [intros []|constructor]].
    intros [H|[]]. discriminate. }
  assert (Hp : Permutation Demo.complexes3n (rev Demo.complexes3n)).
  { simpl. apply perm_swap. }
  split; [exact Hnd|]. split; [exact Hp|]. split; [exact DemoFacts.scan3n|].
  destruct (@captured_items_order_independent SciPy.linkage SciPy.fcluster
              SciPy.maxdists Demo.link3 Demo.genes3 Demo.complexes3n
              (rev Demo.complexes3n) Demo.st3n Hnd Hp DemoFacts.scan3n)
    as [ga [st' [ga' [H1 [H2 [H3 [H4 [H5 [H6 [_ [Hw1 [Hw2 H7]]]]]]]]]]]].
  destruct (H7 [2; 2; 2] (scipy_fcluster_Qeq Demo.link3) DemoFacts.run3n)
    as [out' [H8 [H9 _]]].
  exists ga, st', ga', out'. auto 12.
Defined.

Lemma zero_denominator_never_captures_witness :
  length (Np.union1d [] []) = 0 /\
  cluster_jaccard [] [] = 0%Q /\
  record_match "CPX-A"%string [0; 1] (1 # 10)%Q (cluster_jaccard [] [])
    init_locals = init_locals.
Proof.
  split; [reflexivity|].
  exact (proj2 (@zero_denominator_never_captures [] [] "CPX-A"%string [0; 1]
                  (1 # 10)%Q init_locals eq_refl)).
Defined.

Lemma no_capture_output_witness :
  SciPy.run_scan Demo.link3 Demo.genes3 Demo.complexes3a = Some init_locals /\
  assignments init_locals = [] /\
  Demo.genes3 <> [] /\
  SciPy.run Demo.link3 Demo.genes3 Demo.complexes3a =
    Some (map (fun c => c + 1) (SciPy.fcluster Demo.link3 (0 + (1 # 10))%Q)).
Proof.
  assert (Hne : Demo.genes3 <> []) by discriminate.
  split; [exact DemoFacts.scan3a|]. split; [reflexivity|].
  split; [exact Hne|].
  exact (proj2 (proj2 (proj2
           (@no_capture_output SciPy.linkage SciPy.fcluster SciPy.maxdists
              Demo.link3 Demo.genes3 Demo.complexes3a init_locals
              DemoFacts.scan3a eq_refl Hne)))).
Defined.

(** ** The nested-grouping serializer *)

Lemma NoDup_flat_map {A B : Type} (f : A -> list B) (l : list A) :
  NoDup l ->
  (forall x, In x l -> NoDup (f x)) ->
  (forall x y z, In x l -> In y l -> In z (f x) -> In z (f y) -> x = y) ->
  NoDup (flat_map f l).
Proof.
  induction l as [|a l IH]; simpl; intros Hnd Hf Hdisj.
  - constructor.
  - inversion Hnd as [|? ? Hnotin Hnd']; subst.
    assert (Hrest : NoDup (flat_map f l)).
    { apply IH; auto. intros x y z Hx Hy. apply Hdisj; now right. }
    assert (Ha : NoDup (f a)) by (apply Hf; now left).
    assert (Hsep : forall z, In z (f a) -> ~ In z (flat_map f l)).
    { intros z Hz Hin. apply in_flat_map in Hin. destruct Hin as [y [Hy Hzy]].
      assert (a = y)
        by (apply (Hdisj a y z); [now left|now right|exact Hz|exact Hzy]).
      subst y. contradiction. }
    revert Hsep Ha. generalize (f a) as fa.
    induction fa as [|b fa IHfa]; simpl; intros Hsep Ha; [exact Hrest|].
    inversion Ha; subst. constructor.
    + intros Hin. apply in_app_or in Hin. destruct Hin as [Hin|Hin].
      * contradiction.
      * apply (Hsep b); [now left|exact Hin].
    + apply IHfa; auto.
Qed.

Lemma map_flat_map {A B C : Type} (g : B -> C) (f : A -> list B) (l : list A) :
  map g (flat_map f l) = flat_map (fun x => map g (f x)) l.
Proof.
  induction l as [|a l IH]; simpl; [reflexivity|].
  now rewrite map_app, IH.
Qed.

Lemma map_nth_seq_from {A : Type} (d : A) (l pre : list A) :
  map (fun i => nth i (pre ++ l) d) (seq (length pre) (length l)) = l.
Proof.
  revert pre. induction l as [|x l IH]; intros pre; simpl; [reflexivity|].
  f_equal.
  - rewrite app_nth2 by lia. now rewrite Nat.sub_diag.
  - specialize (IH (pre ++ [x])). rewrite <- app_assoc in IH. simpl in IH.
    rewrite length_app in IH. simpl in IH. rewrite Nat.add_1_r in IH.
    exact IH.
Qed.

Lemma take_nth {A : Type} (d : A) (a : list A) (idxs : list nat) :
  (forall i, In i idxs -> i < length a) ->
  Np.take a idxs = Some (map (fun i => nth i a d) idxs).
Proof.
  unfold Np.take. induction idxs as [|i idxs IH]; simpl; intros H.
  - reflexivity.
  - rewrite (nth_error_nth' a d (H i (or_introl eq_refl))). simpl.
    rewrite IH by (intros j Hj; apply H; now right). reflexivity.
Qed.

Lemma leaves_leaf_list (names : list string) :
  flat_map leaves (map (fun name => Leaf name 1) names) =
  map (fun name => (name, 1)) names.
Proof.
  induction names as [|name names IH]; simpl; [reflexivity|]. now rewrite IH.
Qed.

(** *** The tree is the grouping of the specification *)

Lemma StronglySorted_lt_ext (l1 l2 : list nat) :
  StronglySorted lt l1 -> StronglySorted lt l2 ->
  (forall x, In x l1 <-> In x l2) -> l1 = l2.
Proof.
  revert l2. induction l1 as [|a l1 IH]; intros l2 H1 H2 Hmem.
  - destruct l2 as [|b l2]; [reflexivity|].
    exfalso. apply (proj2 (Hmem b)). left. reflexivity.
  - destruct l2 as [|b l2].
    { exfalso. apply (proj1 (Hmem a)). left. reflexivity. }
    apply StronglySorted_inv in H1. destruct H1 as [H1 Ha].
    apply StronglySorted_inv in H2. destruct H2 as [H2 Hb].
    rewrite Forall_forall in Ha, Hb.
    assert (a = b).
    { destruct (proj1 (Hmem a) (or_introl eq_refl)) as [E|Hin]; [auto|].
      destruct (proj2 (Hmem b) (or_introl eq_refl)) as [E|Hin']; [auto|].
      specialize (Hb a Hin). specialize (Ha b Hin'). lia. }
    subst b. f_equal. apply IH; [exact H1|exact H2|].
    intros x. split; intros Hx.
    + destruct (proj1 (Hmem x) (or_intror Hx)) as [E|Hin]; [|exact Hin].
      subst x. specialize (Ha a Hx). lia.
    + destruct (proj2 (Hmem x) (or_intror Hx)) as [E|Hin]; [|exact Hin].
      subst x. specialize (Hb a Hx). lia.
Qed.

Lemma StronglySorted_filter (p : nat -> bool) (l : list nat) :
  StronglySorted lt l -> StronglySorted lt (filter p l).
Proof.
  induction 1 as [|a l Hl IH Ha]; simpl; [constructor|].
  destruct (p a); [|exact IH].
  constructor; [exact IH|].
  rewrite Forall_forall in *. intros x Hx. apply filter_In in Hx.
  apply Ha. tauto.
Qed.

Lemma seq_StronglySorted (s n : nat) : StronglySorted lt (seq s n).
Proof.
  revert s. induction n as [|n IH]; intros s; simpl; constructor.
  - apply IH.
  - apply Forall_forall. intros x Hx. apply in_seq in Hx. lia.
Qed.

Lemma map_fst_filter_combine_seq_sorted {A : Type} (p : nat * A -> bool)
    (a : list A) (s : nat) :
  StronglySorted lt (map fst (filter p (combine (seq s (length a)) a))) /\
  forall x, In x (map fst (filter p (combine (seq s (length a)) a))) ->
    s <= x.
Proof.
  revert s. induction a as [|y a IH]; intros s; simpl.
  - split; [constructor|intros x []].
  - destruct (IH (S s)) as [Hs Hge].
    destruct (p (s, y)); simpl.
    + split.
      * constructor; [exact Hs|].
        apply Forall_forall. intros x Hx. specialize (Hge x Hx). lia.
      * intros x [<-|Hx]; [lia|]. specialize (Hge x Hx). lia.
    + split; [exact Hs|]. intros x Hx. specialize (Hge x Hx). lia.
Qed.

Lemma argwhere_eq_StronglySorted (a : list nat) (v : nat) :
  StronglySorted lt (Np.argwhere_eq a v).
Proof. apply map_fst_filter_combine_seq_sorted. Qed.

(** Within a subset that is closed under the level, the items of the whole
    level that carry a label of the subset are the items of the subset
    that carry it. *)
Lemma argwhere_eq_members (cluster subset : list nat) (label : nat) :
  StronglySorted lt subset ->
  (forall i, In i subset -> i < length cluster) ->
  (forall i j a, In i subset -> nth_error cluster i = Some a ->
     nth_error cluster j = Some a -> In j subset) ->
  In label (map (fun i => nth i cluster 0) subset) ->
  Np.argwhere_eq cluster label =
  filter (fun i => nth i cluster 0 =? label) subset.
Proof.
  intros Hs Hlt Hclosed Hlabel.
  apply StronglySorted_lt_ext.
  - apply argwhere_eq_StronglySorted.
  - apply StronglySorted_filter. exact Hs.
  - intros x. rewrite argwhere_eq_In, filter_In, Nat.eqb_eq. split.
    + intros Hx. apply in_map_iff in Hlabel.
      destruct Hlabel as [i [Hi Hin]]. split.
      * apply (Hclosed i x label Hin); [|exact Hx].
        rewrite <- Hi. apply nth_error_nth'. apply Hlt. exact Hin.
      * exact (nth_error_nth _ _ 0 Hx).
    + intros [Hin <-]. apply nth_error_nth'. apply Hlt. exact Hin.
Qed.

Section SerializerFacts.
Variable mapped_genes : list string.

Local Abbreviation build_levels := (build_levels mapped_genes).
Local Abbreviation item_leaf := (item_leaf mapped_genes).
Local Abbreviation children_of := (GroupingSpec.children_of mapped_genes).
Local Abbreviation group_value := (GroupingSpec.group_value mapped_genes).

(** The clusters of one level that meet a subset closed under the level
    tile the subset. *)
Lemma level_tiles_subset (cluster : list nat) (subset : list nat) :
  NoDup subset ->
  (forall i, In i subset -> i < length cluster) ->
  (forall i j a, In i subset -> nth_error cluster i = Some a ->
     nth_error cluster j = Some a -> In j subset) ->
  Permutation
    (flat_map (Np.argwhere_eq cluster)
       (Np.unique (map (fun i => nth i cluster 0) subset)))
    subset.
Proof.
  intros Hnd Hlt Hclosed. apply NoDup_Permutation; [|exact Hnd|].
  - apply NoDup_flat_map.
    + apply unique_NoDup.
    + intros x _. apply argwhere_eq_NoDup.
    + intros x y z _ _ Hx Hy. apply argwhere_eq_In in Hx, Hy. congruence.
  - intros j. rewrite in_flat_map. split.
    + intros [label [Hlab Hj]]. apply unique_In, in_map_iff in Hlab.
      destruct Hlab as [i [Hi Hin]]. apply argwhere_eq_In in Hj.
      apply (Hclosed i j label Hin); [|exact Hj].
      rewrite <- Hi. apply nth_error_nth'. now apply Hlt.
    + intros Hj. exists (nth j cluster 0). split.
      * apply unique_In, in_map_iff. exists j. auto.
      * apply argwhere_eq_In. apply nth_error_nth'. now apply Hlt.
Qed.

(** The children made for the labels of one level come in consecutive
    groups, one per label, and the leaves of a group are the items that
    carry its label. *)
Lemma children_loop (cluster : list nat) (rest : list (list nat))
    (labels : list nat) :
  (forall label, In label labels ->
     exists r,
       build_levels rest (Np.argwhere_eq cluster label) = Some r /\
       Permutation (leaves_of r)
         (map item_leaf (Np.argwhere_eq cluster label))) ->
  forall acc,
  exists groups,
    foldM
      (fun children label =>
         child <- build_levels rest (Np.argwhere_eq cluster label) ;;
         match child with
         | PyList items => Some (children ++ items)
         | PyDict node => Some (children ++ [node])
         end)
      labels acc = Some (acc ++ concat groups) /\
    Forall2
      (fun label group =>
         Permutation (flat_map leaves group)
           (map item_leaf (Np.argwhere_eq cluster label)))
      labels groups.
Proof.
  induction labels as [|label labels IH]; intros H acc; simpl.
  - exists []. simpl. rewrite app_nil_r. split; [reflexivity|constructor].
  - destruct (H label (or_introl eq_refl)) as [r [Hr Hp]]. rewrite Hr. simpl.
    assert (Hrest : forall l, In l labels ->
              exists r0,
                build_levels rest (Np.argwhere_eq cluster l) = Some r0 /\
                Permutation (leaves_of r0)
                  (map item_leaf (Np.argwhere_eq cluster l))).
    { intros l Hl. apply H. now right. }
    destruct r as [items|node].
    + destruct (IH Hrest (acc ++ items)) as [groups [Hc HF]].
      exists (items :: groups). simpl. rewrite Hc, <- app_assoc.
      split; [reflexivity|]. constructor; [exact Hp|exact HF].
    + destruct (IH Hrest (acc ++ [node])) as [groups [Hc HF]].
      exists ([node] :: groups). simpl. rewrite Hc, <- app_assoc.
      split; [reflexivity|]. constructor; [|exact HF].
      simpl. rewrite app_nil_r. exact Hp.
Qed.

Lemma groups_leaves (f : nat -> list (string * nat)) (labels : list nat)
    (groups : list (list tree)) :
  Forall2 (fun label group => Permutation (flat_map leaves group) (f label))
    labels groups ->
  Permutation (flat_map leaves (concat groups)) (flat_map f labels).
Proof.
  induction 1 as [|label group labels groups Hp _ IH]; simpl.
  - constructor.
  - rewrite flat_map_app. now apply Permutation_app.
Qed.

Lemma build_levels_leaves (levels : list (list nat)) :
  same_shape (length mapped_genes) levels ->
  hierarchy levels ->
  forall subset,
    NoDup subset ->
    (forall i, In i subset -> i < length mapped_genes) ->
    match levels with
    | cluster :: _ =>
        forall i j a, In i subset -> nth_error cluster i = Some a ->
          nth_error cluster j = Some a -> In j subset
    | [] => True
    end ->
    exists r,
      build_levels levels subset = Some r /\
      Permutation (leaves_of r) (map item_leaf subset) /\
      match levels with
      | cluster :: _ =>
          exists groups,
            r = PyDict (Node "" (concat groups)) /\
            Forall2
              (fun label group =>
                 Permutation (flat_map leaves group)
                   (map item_leaf (Np.argwhere_eq cluster label)))
              (Np.unique (map (fun i => nth i cluster 0) subset)) groups
      | [] => True
      end.
Proof.
  induction levels as [|cluster rest IH]; intros Hshape Hhier subset Hnd Hlt Hcl.
  - simpl. rewrite (take_nth ""%string mapped_genes subset Hlt). simpl.
    eexists. split; [reflexivity|]. split; [|exact I].
    simpl. rewrite leaves_leaf_list, map_map. apply Permutation_refl.
  - inversion Hshape as [|? ? Hlen Hshape']; subst.
    assert (Hlt' : forall i, In i subset -> i < length cluster).
    { intros i Hi. rewrite Hlen. now apply Hlt. }
    cbn [Grouping.build_levels].
    rewrite (take_nth 0 cluster subset Hlt'). simpl bind.
    set (labels := Np.unique (map (fun i => nth i cluster 0) subset)).
    assert (Hch : forall label, In label labels ->
              exists r,
                build_levels rest (Np.argwhere_eq cluster label) = Some r /\
                Permutation (leaves_of r)
                  (map item_leaf (Np.argwhere_eq cluster label))).
    { intros label _.
      destruct (IH Hshape') with (subset := Np.argwhere_eq cluster label)
        as [r [Hr [Hp _]]].
      - destruct rest; [exact I|]. simpl in Hhier. tauto.
      - apply argwhere_eq_NoDup.
      - intros i Hi. rewrite <- Hlen. now apply argwhere_eq_lt in Hi.
      - destruct rest as [|fine rest']; [exact I|].
        simpl in Hhier. destruct Hhier as [Href _].
        intros i j a Hi Hia Hja. apply argwhere_eq_In in Hi.
        apply argwhere_eq_In. exact (Href i j a label Hia Hja Hi).
      - eauto. }
    destruct (children_loop cluster rest labels Hch []) as [groups [Hc HF]].
    rewrite Hc. simpl bind. eexists. split; [reflexivity|].
    split; [|exists groups; split; [reflexivity|exact HF]]. simpl.
    eapply Permutation_trans; [exact (groups_leaves _ HF)|].
    rewrite <- map_flat_map. apply Permutation_map.
    now apply level_tiles_subset.
Qed.

Lemma children_spec_loop (cluster : list nat) (rest : list (list nat))
    (g : nat -> list tree) (labels : list nat) :
  (forall label, In label labels ->
     build_levels rest (Np.argwhere_eq cluster label) =
     Some (match rest with
           | [] => PyList (g label)
           | _ :: _ => PyDict (Node "" (g label))
           end)) ->
  forall acc,
    foldM
      (fun children label =>
         child <- build_levels rest (Np.argwhere_eq cluster label) ;;
         match child with
         | PyList items => Some (children ++ items)
         | PyDict node => Some (children ++ [node])
         end)
      labels acc =
    Some (acc ++
          flat_map
            (fun label =>
               match rest with
               | [] => g label
               | _ :: _ => [Node "" (g label)]
               end)
            labels).
Proof.
  induction labels as [|label labels IH]; intros H acc.
  - simpl. rewrite app_nil_r. reflexivity.
  - cbn [foldM flat_map]. rewrite (H label (or_introl eq_refl)).
    assert (Hrest : forall l, In l labels ->
              build_levels rest (Np.argwhere_eq cluster l) =
              Some (match rest with
                    | [] => PyList (g l)
                    | _ :: _ => PyDict (Node "" (g l))
                    end)).
    { intros l Hl. apply H. right. exact Hl. }
    destruct rest as [|fine rest']; cbn [bind];
      rewrite (IH Hrest), <- app_assoc; reflexivity.
Qed.

Lemma build_levels_grouping (levels : list (list nat)) :
  same_shape (length mapped_genes) levels ->
  hierarchy levels ->
  forall subset,
    StronglySorted lt subset ->
    (forall i, In i subset -> i < length mapped_genes) ->
    match levels with
    | cluster :: _ =>
        forall i j a, In i subset -> nth_error cluster i = Some a ->
          nth_error cluster j = Some a -> In j subset
    | [] => True
    end ->
    build_levels levels subset = Some (group_value levels subset).
Proof.
  induction levels as [|cluster rest IH];
    intros Hshape Hhier subset Hs Hlt Hcl.
  - simpl. rewrite (take_nth ""%string mapped_genes subset Hlt). simpl.
    rewrite map_map. reflexivity.
  - inversion Hshape as [|? ? Hlen Hshape']; subst.
    assert (Hlt' : forall i, In i subset -> i < length cluster).
    { intros i Hi. rewrite Hlen. apply Hlt. exact Hi. }
    cbn [Grouping.build_levels].
    rewrite (take_nth 0 cluster subset Hlt'). cbn [bind].
    set (labels := Np.unique (map (fun i => nth i cluster 0) subset)).
    assert (Hch : forall label, In label labels ->
              build_levels rest (Np.argwhere_eq cluster label) =
              Some (match rest with
                    | [] =>
                        PyList
                          (children_of rest
                             (filter (fun i => nth i cluster 0 =? label)
                                subset))
                    | _ :: _ =>
                        PyDict
                          (Node ""
                             (children_of rest
                                (filter (fun i => nth i cluster 0 =? label)
                                   subset)))
                    end)).
    { intros label Hlabel. unfold labels in Hlabel.
      rewrite unique_In in Hlabel.
      rewrite <- (@argwhere_eq_members cluster subset label Hs Hlt' Hcl Hlabel).
      rewrite (IH Hshape') with (subset := Np.argwhere_eq cluster label).
      - destruct rest; reflexivity.
      - destruct rest; [exact I|]. simpl in Hhier. tauto.
      - apply argwhere_eq_StronglySorted.
      - intros i Hi. rewrite <- Hlen. exact (argwhere_eq_lt _ _ _ Hi).
      - destruct rest as [|fine rest']; [exact I|].
        simpl in Hhier. destruct Hhier as [Href _].
        intros i j a Hi Hia Hja. apply argwhere_eq_In in Hi.
        apply argwhere_eq_In. exact (Href i j a label Hia Hja Hi). }
    rewrite (children_spec_loop cluster rest _ labels Hch []).
    cbn [bind app]. reflexivity.
Qed.

(** C7, as the code has it. [create_data_structure] reverses the list of
    levels and recurses from all items at index 0. When every level labels
    every item and the levels, read from coarsest to finest, form a
    hierarchy, the result is the tree of the specification's grouping:
    at every level the items of a group are split by their label at the
    next finer level, one node per label in ascending order, down to the
    leaves. In particular the children of its root come in
    consecutive groups, one per label of the coarsest level in ascending
    order, and the leaves of a group are the items carrying that label; and
    the leaves of the whole tree are, each exactly once, the items' display
    names with the value 1. *)
Theorem nested_levels_one_leaf_per_item (clusters : list (list nat)) :
  clusters <> [] ->
  same_shape (length mapped_genes) clusters ->
  hierarchy (rev clusters) ->
  create_data_structure mapped_genes clusters =
    create_data_structure_recursive mapped_genes (rev clusters)
      (seq 0 (length mapped_genes)) 0 /\
  create_data_structure mapped_genes clusters =
    Some (PyDict (GroupingSpec.grouped_tree mapped_genes (rev clusters))) /\
  exists groups,
    create_data_structure mapped_genes clusters =
      Some (PyDict (Node "" (concat groups))) /\
    Forall2
      (fun label group =>
         Permutation (flat_map leaves group)
           (map item_leaf (Np.argwhere_eq (last clusters []) label)))
      (Np.unique (last clusters [])) groups /\
    Permutation (leaves (Node "" (concat groups)))
      (map (fun name => (name, 1)) mapped_genes).
Proof.
  intros Hne Hshape Hhier.
  assert (Hshape' : same_shape (length mapped_genes) (rev clusters)).
  { unfold same_shape in *. now apply Forall_rev. }
  destruct (rev clusters) as [|first rest] eqn:E.
  { apply (f_equal (@rev (list nat))) in E. rewrite rev_involutive in E.
    now elim Hne. }
  assert (Hlast : last clusters [] = first).
  { apply (f_equal (@rev (list nat))) in E. rewrite rev_involutive in E.
    rewrite E. simpl. now rewrite last_last. }
  assert (Hlen : length first = length mapped_genes).
  { now inversion Hshape'. }
  assert (Hcds : create_data_structure mapped_genes clusters =
                 Grouping.build_levels mapped_genes (first :: rest)
                   (seq 0 (length mapped_genes))).
  { unfold create_data_structure, create_data_structure_recursive.
    rewrite E. simpl nth_error. simpl bind. simpl skipn.
    now rewrite Hlen. }
  split.
  { rewrite Hcds. reflexivity. }
  split.
  { rewrite Hcds.
    rewrite (build_levels_grouping Hshape' Hhier)
      with (subset := seq 0 (length mapped_genes)).
    - reflexivity.
    - apply seq_StronglySorted.
    - intros i Hi. apply in_seq in Hi. lia.
    - intros i j a _ _ Hj. apply in_seq. split; [lia|]. simpl.
      rewrite <- Hlen. apply nth_error_Some. congruence. }
  destruct (build_levels_leaves Hshape' Hhier)
    with (subset := seq 0 (length mapped_genes))
    as [r [Hr [Hp [groups [-> HF]]]]].
  - apply seq_NoDup.
  - intros i Hi. apply in_seq in Hi. lia.
  - intros i j a _ _ Hj. apply in_seq. split; [lia|]. simpl.
    rewrite <- Hlen. apply nth_error_Some. congruence.
  - exists groups. split; [now rewrite Hcds|].
    pose proof (map_nth_seq_from 0 first []) as Hseq0. simpl in Hseq0.
    rewrite <- Hlen, Hseq0 in HF. rewrite Hlast.
    split; [exact HF|].
    eapply Permutation_trans; [exact Hp|].
    unfold Grouping.item_leaf.
    rewrite <- (map_map (fun i => nth i mapped_genes ""%string)
                  (fun name => (name, 1))).
    pose proof (map_nth_seq_from ""%string mapped_genes []) as Hseq.
    simpl in Hseq. rewrite Hseq. apply Permutation_refl.
Qed.

End SerializerFacts.

(** C7 as worded fails on levels that cross: with [1; 1; 2] above
    [1; 2; 2], items B and C are leaves under both top-level groups. *)
Lemma crossing_levels_repeat_leaves :
  ~ each_item_one_leaf Demo.names3 Demo.crossing_levels.
Proof.
  intros H.
  specialize (H (PyDict
                   (Node ""
                      [Node "" [Leaf "A" 1; Leaf "B" 1; Leaf "C" 1];
                       Node "" [Leaf "B" 1; Leaf "C" 1]]))
                eq_refl).
  apply Permutation_length in H. discriminate.
Qed.

(** On the crossing levels the returned tree is not the grouping of the
    specification either, which has three leaves. *)
Lemma crossing_levels_not_grouped :
  create_data_structure Demo.names3 Demo.crossing_levels <>
  Some
    (PyDict
       (GroupingSpec.grouped_tree Demo.names3 (rev Demo.crossing_levels))).
Proof. vm_compute. discriminate. Qed.

Lemma nested_levels_one_leaf_per_item_witness :
  Demo.nested_levels <> [] /\
  same_shape (length Demo.names3) Demo.nested_levels /\
  hierarchy (rev Demo.nested_levels) /\
  create_data_structure Demo.names3 Demo.nested_levels =
    Some
      (PyDict
         (GroupingSpec.grouped_tree Demo.names3 (rev Demo.nested_levels))) /\
  exists groups,
    create_data_structure Demo.names3 Demo.nested_levels =
      Some (PyDict (Node "" (concat groups))) /\
    Forall2
      (fun label group =>
         Permutation (flat_map leaves group)
           (map (item_leaf Demo.names3)
              (Np.argwhere_eq (last Demo.nested_levels []) label)))
      (Np.unique (last Demo.nested_levels [])) groups /\
    Permutation (leaves (Node "" (concat groups)))
      (map (fun name => (name, 1)) Demo.names3).
Proof.
  assert (Hne : Demo.nested_levels <> []) by discriminate.
  assert (Hshape : same_shape (length Demo.names3) Demo.nested_levels).
  { repeat constructor. }
  assert (Hhier : hierarchy (rev Demo.nested_levels)).
  { simpl. split; [|split; [|exact I]]; unfold refines; refines_by_cases. }
  split; [exact Hne|]. split; [exact Hshape|]. split; [exact Hhier|].
  exact (proj2 (@nested_levels_one_leaf_per_item Demo.names3
                  Demo.nested_levels Hne Hshape Hhier)).
Defined.

(** ** The Jaccard score *)

Lemma jaccard_score_pos (numer denom : nat) :
  denom <> 0 ->
  (jaccard_score numer denom == Z.of_nat numer # Pos.of_nat denom)%Q.
Proof.
  intros Hd. unfold jaccard_score.
  destruct denom as [|d]; [congruence|].
  replace (S d =? 0) with false by reflexivity.
  unfold Qdiv, Qinv, Qmult, Qeq, inject_Z. 
  cbn [Qnum Qden].
  rewrite <- Pos.of_nat_succ. 
  destruct (Z.of_nat (S d)) eqn:E; try lia.
  cbn [Qnum Qden]. lia.
Qed.

Lemma Zpos_of_nat (d : nat) : d <> 0 -> Z.pos (Pos.of_nat d) = Z.of_nat d.
Proof. intros Hd. lia. Qed.

Lemma jaccard_score_ge (numer denom : nat) (a : Z) (p : positive) :
  denom <> 0 ->
  ((a # p <= jaccard_score numer denom)%Q <->
   (a * Z.of_nat denom <= Z.of_nat numer * Z.pos p)%Z).
Proof.
  intros Hd. rewrite (jaccard_score_pos numer Hd).
  unfold Qle. cbn [Qnum Qden]. rewrite (Zpos_of_nat Hd). reflexivity.
Qed.

Lemma jaccard_score_le (numer denom : nat) (a : Z) (p : positive) :
  denom <> 0 ->
  ((jaccard_score numer denom <= a # p)%Q <->
   (Z.of_nat numer * Z.pos p <= a * Z.of_nat denom)%Z).
Proof.
  intros Hd. rewrite (jaccard_score_pos numer Hd).
  unfold Qle. cbn [Qnum Qden]. rewrite (Zpos_of_nat Hd). reflexivity.
Qed.

Lemma intersect1d_NoDup (a b : list string) : NoDup (Np.intersect1d a b).
Proof. apply unique_str_NoDup. Qed.

Lemma union1d_NoDup (a b : list string) : NoDup (Np.union1d a b).
Proof. apply unique_str_NoDup. Qed.

Lemma intersect1d_le_union1d (a b : list string) :
  length (Np.intersect1d a b) <= length (Np.union1d a b).
Proof.
  apply NoDup_incl_length; [apply intersect1d_NoDup|].
  intros x Hx. apply intersect1d_In in Hx. apply union1d_In. tauto.
Qed.

Lemma same_members_length (l l' : list string) :
  NoDup l -> NoDup l' -> (forall x, In x l <-> In x l') -> length l = length l'.
Proof.
  intros Hl Hl' H. apply Permutation_length.
  apply NoDup_Permutation; assumption.
Qed.

(** X1. The Jaccard score the matcher computes lies between 0 and 1, and
    it is 1 exactly when the cluster and the complex hold the same genes
    and at least one. *)
Theorem cluster_jaccard_range (cluster_genes comp_genes : list string) :
  (0 <= cluster_jaccard cluster_genes comp_genes)%Q /\
  (cluster_jaccard cluster_genes comp_genes <= 1)%Q /\
  ((cluster_jaccard cluster_genes comp_genes == 1)%Q <->
   (exists g, In g cluster_genes) /\
   forall g, In g cluster_genes <-> In g comp_genes).
Proof.
  unfold cluster_jaccard.
  pose proof (intersect1d_le_union1d cluster_genes comp_genes) as Hle.
  set (numer := length (Np.intersect1d cluster_genes comp_genes)) in *.
  set (denom := length (Np.union1d cluster_genes comp_genes)) in *.
  destruct (Nat.eq_dec denom 0) as [Hz|Hnz].
  - (* both gene lists are empty *)
    assert (Hnil : forall g, ~ In g cluster_genes).
    { intros g Hg.
      assert (Hu : In g (Np.union1d cluster_genes comp_genes))
        by (apply union1d_In; auto).
      subst denom. destruct (Np.union1d cluster_genes comp_genes);
        [destruct Hu|discriminate]. }
    unfold jaccard_score. rewrite Hz. simpl.
    split; [apply Qle_refl|]. split; [discriminate|].
    split; [discriminate|].
    intros [[g Hg] _]. destruct (Hnil g Hg).
  - split; [|split; [|split]].
    + change 0%Q with (0 # 1)%Q. apply jaccard_score_ge; [exact Hnz|]. lia.
    + change 1%Q with (1 # 1)%Q. apply jaccard_score_le; [exact Hnz|]. lia.
    + intros Heq.
      assert (Hge : (1 # 1 <= jaccard_score numer denom)%Q).
      { rewrite Heq. apply Qle_refl. }
      apply jaccard_score_ge in Hge; [|exact Hnz].
      assert (Hnd : denom <= numer) by lia.
      assert (Hincl : incl (Np.union1d cluster_genes comp_genes)
                        (Np.intersect1d cluster_genes comp_genes)).
      { apply NoDup_length_incl; [apply intersect1d_NoDup|exact Hnd|].
        intros x Hx. apply intersect1d_In in Hx. apply union1d_In. tauto. }
      assert (Hsame : forall g, In g cluster_genes <-> In g comp_genes).
      { intros g. split; intros Hg.
        - assert (Hu : In g (Np.union1d cluster_genes comp_genes))
            by (apply union1d_In; auto).
          apply Hincl in Hu. apply intersect1d_In in Hu. tauto.
        - assert (Hu : In g (Np.union1d cluster_genes comp_genes))
            by (apply union1d_In; auto).
          apply Hincl in Hu. apply intersect1d_In in Hu. tauto. }
      split; [|exact Hsame].
      subst denom.
      destruct (Np.union1d cluster_genes comp_genes) as [|g u] eqn:Eu;
        [simpl in Hnz; congruence|].
      assert (Hg : In g (Np.union1d cluster_genes comp_genes))
        by (rewrite Eu; left; reflexivity).
      apply union1d_In in Hg. exists g. destruct Hg as [Hg|Hg]; [exact Hg|].
      apply Hsame. exact Hg.
    + intros [_ Hsame].
      assert (Hnum : numer = denom).
      { subst numer denom.
        apply same_members_length;
          [apply intersect1d_NoDup|apply union1d_NoDup|].
        intros x. rewrite intersect1d_In, union1d_In.
        specialize (Hsame x). tauto. }
      apply Qle_antisym.
      * change 1%Q with (1 # 1)%Q. apply jaccard_score_le; [exact Hnz|]. lia.
      * change 1%Q with (1 # 1)%Q. apply jaccard_score_ge; [exact Hnz|]. lia.
Qed.

(** X2. The Jaccard score depends only on the two sets of genes: neither
    the order nor a repetition in either list changes it, and exchanging
    the cluster and the complex gives the same score. *)
Theorem cluster_jaccard_of_gene_sets (a a' b b' : list string) :
  (forall g, In g a <-> In g a') ->
  (forall g, In g b <-> In g b') ->
  cluster_jaccard a b = cluster_jaccard a' b' /\
  cluster_jaccard a b = cluster_jaccard b' a'.
Proof.
  intros Ha Hb. unfold cluster_jaccard.
  assert (Hi : length (Np.intersect1d a b) = length (Np.intersect1d a' b')).
  { apply same_members_length; try apply intersect1d_NoDup.
    intros x. rewrite !intersect1d_In, (Ha x), (Hb x). tauto. }
  assert (Hu : length (Np.union1d a b) = length (Np.union1d a' b')).
  { apply same_members_length; try apply union1d_NoDup.
    intros x. rewrite !union1d_In, (Ha x), (Hb x). tauto. }
  assert (Hi' : length (Np.intersect1d a b) = length (Np.intersect1d b' a')).
  { apply same_members_length; try apply intersect1d_NoDup.
    intros x. rewrite !intersect1d_In, (Ha x), (Hb x). tauto. }
  assert (Hu' : length (Np.union1d a b) = length (Np.union1d b' a')).
  { apply same_members_length; try apply union1d_NoDup.
    intros x. rewrite !union1d_In, (Ha x), (Hb x). tauto. }
  split; [rewrite Hi, Hu|rewrite Hi', Hu']; reflexivity.
Qed.

Lemma cluster_jaccard_of_gene_sets_witness :
  (forall g, In g ["g0"; "g1"]%string <-> In g ["g1"; "g0"; "g0"]%string) /\
  (forall g, In g ["g1"; "g2"]%string <-> In g ["g2"; "g1"]%string) /\
  cluster_jaccard ["g0"; "g1"]%string ["g1"; "g2"]%string =
    cluster_jaccard ["g1"; "g0"; "g0"]%string ["g2"; "g1"]%string /\
  cluster_jaccard ["g0"; "g1"]%string ["g1"; "g2"]%string =
    cluster_jaccard ["g2"; "g1"]%string ["g1"; "g0"; "g0"]%string.
Proof.
  assert (Ha : forall g,
             In g ["g0"; "g1"]%string <-> In g ["g1"; "g0"; "g0"]%string).
  { intros g. simpl. tauto. }
  assert (Hb : forall g,
             In g ["g1"; "g2"]%string <-> In g ["g2"; "g1"]%string).
  { intros g. simpl. tauto. }
  split; [exact Ha|]. split; [exact Hb|].
  exact (cluster_jaccard_of_gene_sets _ _ _ _ Ha Hb).
Defined.

(** ** Inputs on which the matcher raises *)

Lemma foldM_const {A S : Type} (body : S -> A -> option S) (l : list A)
    (st : S) :
  (forall s a, In a l -> body s a = Some s) -> foldM body l st = Some st.
Proof.
  intros H. induction l as [|a l IH]; [reflexivity|].
  simpl. rewrite (H st a) by (left; reflexivity). simpl.
  apply IH. intros s b Hb. apply H. right. exact Hb.
Qed.

Lemma intersect1d_nil_r (a : list string) : Np.intersect1d a [] = [].
Proof.
  unfold Np.intersect1d.
  replace (filter (fun g => Np.mem_str g []) a) with (@nil string);
    [reflexivity|].
  induction a as [|x a IH]; [reflexivity|exact IH].
Qed.

(** X3. On an empty item set, and on a linkage without a merge, the
    matcher raises whatever the complexes are: [np.max] is applied to an
    empty array. *)
Theorem empty_inputs_raise (Linkage : Type)
    (fcluster : Linkage -> Q -> list nat) (maxdists : Linkage -> list Q)
    (link : Linkage) (common_genes : list string)
    (complexes : list (string * list string)) :
  common_genes = [] \/ maxdists link = [] ->
  get_first_level_clusters fcluster maxdists link common_genes complexes =
    None.
Proof.
  intros [H|H].
  - subst common_genes.
    unfold get_first_level_clusters, scan_complexes.
    destruct (Np.maxQ (maxdists link)) as [max_thresh|]; [|reflexivity].
    cbn [bind]. rewrite foldM_const; [reflexivity|].
    intros s item _. unfold complex_body.
    rewrite intersect1d_nil_r. reflexivity.
  - unfold get_first_level_clusters, scan_complexes.
    rewrite H. reflexivity.
Qed.

Lemma empty_inputs_raise_witness :
  (@nil string = [] \/ SciPy.maxdists Demo.link3 = []) /\
  SciPy.run Demo.link3 [] Demo.complexes3 = None.
Proof.
  assert (H : @nil string = [] \/ SciPy.maxdists Demo.link3 = [])
    by (left; reflexivity).
  split; [exact H|].
  exact (empty_inputs_raise SciPy.fcluster SciPy.maxdists Demo.link3
           Demo.complexes3 H).
Defined.

(** ** Indexing by an index array *)

Lemma take_length {A : Type} (a : list A) (idxs : list nat) (xs : list A) :
  Np.take a idxs = Some xs -> length xs = length idxs.
Proof.
  intros H. apply mapM_Some in H.
  symmetry. exact (Forall2_length H).
Qed.

Lemma take_NoDup {A : Type} (a : list A) (idxs : list nat) (xs : list A) :
  NoDup a -> NoDup idxs -> Np.take a idxs = Some xs -> NoDup xs.
Proof.
  intros Ha Hidxs H. apply mapM_Some in H.
  induction H as [|i x idxs xs Hix H IH]; [constructor|].
  inversion Hidxs as [|? ? Hni Hnd]; subst.
  constructor; [|apply IH; exact Hnd].
  intros Hin.
  assert (Hex : exists i', In i' idxs /\ nth_error a i' = Some x).
  { clear - H Hin. induction H as [|i' x' idxs xs Hix' H IH];
      [destruct Hin|].
    destruct Hin as [Hin|Hin].
    - subst. exists i'. split; [left; reflexivity|exact Hix'].
    - destruct (IH Hin) as [k [Hk Hkx]]. exists k. split; [right|]; auto. }
  destruct Hex as [i' [Hi' Hi'x]].
  assert (i = i').
  { apply (proj1 (NoDup_nth_error a) Ha).
    - apply nth_error_Some. congruence.
    - congruence. }
  subst. contradiction.
Qed.

Lemma take_In {A : Type} (a : list A) (idxs : list nat) (xs : list A) (x : A) :
  Np.take a idxs = Some xs -> In x xs -> In x a.
Proof.
  intros H. apply mapM_Some in H.
  induction H as [|i y idxs xs Hiy H IH]; intros Hin; [destruct Hin|].
  destruct Hin as [Hin|Hin]; [|exact (IH Hin)].
  subst. exact (nth_error_In _ _ Hiy).
Qed.

Lemma take_raises {A : Type} (a : list A) (idxs : list nat) :
  Np.take a idxs = None -> exists i, In i idxs /\ length a <= i.
Proof.
  unfold Np.take. induction idxs as [|i idxs IH]; [discriminate|].
  simpl. destruct (nth_error a i) as [x|] eqn:Ex.
  - simpl. destruct (mapM (nth_error a) idxs) as [xs|]; [discriminate|].
    intros _. destruct (IH eq_refl) as [k [Hk Hlen]].
    exists k. split; [right; exact Hk|exact Hlen].
  - intros _. exists i. split; [left; reflexivity|].
    apply nth_error_None. exact Ex.
Qed.

Section MatcherEdges.
Variable Linkage : Type.
Variable fcluster : Linkage -> Q -> list nat.
Variable maxdists : Linkage -> list Q.
Variable link : Linkage.
Variable common_genes : list string.
Local Abbreviation complex_body := (complex_body fcluster link common_genes).
Local Abbreviation scan_complexes :=
  (scan_complexes fcluster maxdists link common_genes).
Local Abbreviation cand_body := (cand_body common_genes).
Local Abbreviation cand_jaccard := (cand_jaccard common_genes).
Local Abbreviation candidates := (candidates fcluster link).
Local Abbreviation cluster_at := (cluster_at fcluster link).
Local Abbreviation first_best := (first_best common_genes).
Local Abbreviation capture := (capture fcluster link common_genes).
Local Abbreviation label_captured := (label_captured common_genes).
Local Abbreviation combine_with_fallback :=
  (combine_with_fallback fcluster link).
Local Abbreviation get_first_level_clusters :=
  (get_first_level_clusters fcluster maxdists link common_genes).

Lemma scan_max_thresh complexes st :
  scan_complexes complexes = Some st ->
  exists max_thresh,
    Np.maxQ (maxdists link) = Some max_thresh /\
    foldM (complex_body max_thresh) complexes init_locals = Some st.
Proof.
  unfold Matching.scan_complexes. intros H.
  apply bind_Some in H. exact H.
Qed.

(** *** Quality of a recorded cluster *)

(** X4. When the item set holds no gene twice, the cluster recorded for a
    captured complex consists for at least one half of genes of the
    complex, and it holds at least one half of the complex's distinct
    genes. *)
Theorem recorded_cluster_shares_half
    (complexes : list (string * list string)) (st : locals)
    (complex : string) (comp_genes : list string) (idxs : list nat) :
  NoDup common_genes ->
  NoDup (map fst complexes) ->
  scan_complexes complexes = Some st ->
  In (complex, comp_genes) complexes ->
  dict_get complex (assignments st) = Some idxs ->
  exists cluster_genes,
    Np.take common_genes idxs = Some cluster_genes /\
    length (Np.intersect1d cluster_genes comp_genes) <= length idxs /\
    length idxs <= 2 * length (Np.intersect1d cluster_genes comp_genes) /\
    length (Np.unique_str comp_genes) <=
      2 * length (Np.intersect1d cluster_genes comp_genes).
Proof.
  intros Hgenes Hkeys Hscan Hin Hget.
  destruct (@scan_max_thresh complexes st Hscan) as [max_thresh [Hmax _]].
  destruct (scan_captured_iff fcluster maxdists link common_genes complexes
              complex comp_genes Hkeys Hmax Hscan Hin) as [r [Hcap Hr]].
  rewrite Hget in Hr. subst r.
  apply capture_spec in Hcap. cbn [fst snd] in Hcap.
  destruct Hcap as [_ [t [j Hfb]]].
  destruct Hfb as [pre [post [Hcs [Hj [Hhalf _]]]]].
  assert (Hcand : In (t, idxs) (candidates (thresholds max_thresh))).
  { rewrite Hcs. apply in_or_app. right. left. reflexivity. }
  apply candidates_In in Hcand. destruct Hcand as [_ [label [_ [Hcl _]]]].
  assert (Hnd : NoDup idxs) by (rewrite Hcl; apply argwhere_eq_NoDup).
  unfold Matching.cand_jaccard in Hj. apply bind_Some in Hj.
  destruct Hj as [cluster_genes [Htake Hj]].
  injection Hj as Hj. exists cluster_genes. split; [exact Htake|].
  pose proof (@take_length _ common_genes idxs cluster_genes Htake) as Hlen.
  pose proof (@take_NoDup _ common_genes idxs cluster_genes Hgenes Hnd Htake)
    as Hcg.
  unfold cluster_jaccard in Hj.
  set (numer := length (Np.intersect1d cluster_genes comp_genes)) in *.
  set (denom := length (Np.union1d cluster_genes comp_genes)) in *.
  assert (Hd : denom <> 0).
  { intros Hz. unfold jaccard_score in Hj. rewrite Hz in Hj. simpl in Hj.
    subst j. revert Hhalf. unfold Qle. simpl. lia. }
  rewrite <- Hj in Hhalf. apply jaccard_score_ge in Hhalf; [|exact Hd].
  assert (H1 : length cluster_genes <= denom).
  { apply NoDup_incl_length; [exact Hcg|].
    intros x Hx. apply union1d_In. left. exact Hx. }
  assert (H2 : length (Np.unique_str comp_genes) <= denom).
  { apply NoDup_incl_length; [apply unique_str_NoDup|].
    intros x Hx. rewrite unique_str_In in Hx. apply union1d_In. right.
    exact Hx. }
  assert (H3 : numer <= length cluster_genes).
  { apply NoDup_incl_length; [apply intersect1d_NoDup|].
    intros x Hx. apply intersect1d_In in Hx. tauto. }
  lia.
Qed.


(** *** Items that share a returned label *)

(** X5. Two items carry the same returned label exactly when the same
    captured complex wrote both last, or no captured complex holds either
    and the fallback clustering puts them in one cluster. *)
Theorem returned_labels_group_items
    (complexes : list (string * list string)) (st : locals)
    (out : list nat) (i j : nat) :
  scan_complexes complexes = Some st ->
  get_first_level_clusters complexes = Some out ->
  i < length out -> j < length out ->
  (nth i out 0 = nth j out 0 <->
   winner (assignments st) i = winner (assignments st) j /\
   (winner (assignments st) i = 0 ->
    nth i (fcluster link (highest_thresh st + (1 # 10))%Q) 0 =
    nth j (fcluster link (highest_thresh st + (1 # 10))%Q) 0)).
Proof.
  intros Hscan Hout Hi Hj.
  destruct (output_spec fcluster maxdists link common_genes complexes Hout)
    as [st' [ga [Hscan' [_ [_ [_ Hnth]]]]]].
  rewrite Hscan in Hscan'. injection Hscan' as <-.
  rewrite (Hnth i Hi), (Hnth j Hj).
  pose proof (winner_bound (assignments st) i) as Hbi.
  pose proof (winner_bound (assignments st) j) as Hbj.
  destruct (Nat.eqb_spec (winner (assignments st) i) 0) as [Ei|Ei];
    destruct (Nat.eqb_spec (winner (assignments st) j) 0) as [Ej|Ej].
  - split.
    + intros H. split; [congruence|]. intros _. lia.
    + intros [_ H]. rewrite (H Ei). reflexivity.
  - split; [intros H; lia|intros [H _]; congruence].
  - split; [intros H; lia|intros [H _]; congruence].
  - split; [intros H; split; [exact H|intros; contradiction]|tauto].
Qed.

(** *** Complexes that are not captured *)

Lemma complex_body_uncaptured max_thresh st item st' :
  complex_body max_thresh st item = Some st' ->
  capture max_thresh item = Some None ->
  assignments st' = assignments st /\ highest_thresh st' = highest_thresh st.
Proof.
  intros Hbody Hcap.
  apply capture_spec in Hcap.
  apply complex_body_spec in Hbody.
  destruct Hbody as [[_ ->]|[H2 [_ [[_ [Ha Hh]]|[t [cl [j [Hfb _]]]]]]]].
  - split; reflexivity.
  - split; assumption.
  - exfalso. destruct Hcap as [Hlt|Hgate]; [lia|].
    destruct Hfb as [pre [post [Hcs [Hj [Hhalf _]]]]].
    assert (Hin : In (t, cl) (candidates (thresholds max_thresh))).
    { rewrite Hcs. apply in_or_app. right. left. reflexivity. }
    specialize (Hgate (t, cl) j Hin Hj).
    exact (Qlt_not_le _ _ Hgate Hhalf).
Qed.

Lemma complex_body_same_start max_thresh sa sb item sa' :
  assignments sb = assignments sa ->
  highest_thresh sb = highest_thresh sa ->
  complex_body max_thresh sa item = Some sa' ->
  exists sb',
    complex_body max_thresh sb item = Some sb' /\
    assignments sb' = assignments sa' /\
    highest_thresh sb' = highest_thresh sa'.
Proof.
  intros Ha Hh. unfold Matching.complex_body.
  destruct (length (Np.intersect1d (snd item) common_genes) <? 2).
  - intros H. injection H as <-. exists sb. auto.
  - rewrite Ha, Hh. intros H. exists sa'. auto.
Qed.

Lemma complex_loop_filter max_thresh (keep : string * list string -> bool) cs :
  (forall item, In item cs -> keep item = false ->
     capture max_thresh item = Some None) ->
  forall sa sb sa',
    assignments sb = assignments sa ->
    highest_thresh sb = highest_thresh sa ->
    foldM (complex_body max_thresh) cs sa = Some sa' ->
    exists sb',
      foldM (complex_body max_thresh) (filter keep cs) sb = Some sb' /\
      assignments sb' = assignments sa' /\
      highest_thresh sb' = highest_thresh sa'.
Proof.
  induction cs as [|item cs IH]; intros Hkeep sa sb sa' Ha Hh Hloop.
  - simpl in Hloop. injection Hloop as <-. exists sb. auto.
  - simpl in Hloop. apply bind_Some in Hloop.
    destruct Hloop as [s1 [Hbody Hloop]].
    assert (Hkeep' : forall it, In it cs -> keep it = false ->
                       capture max_thresh it = Some None).
    { intros it Hit. apply Hkeep. right. exact Hit. }
    simpl. destruct (keep item) eqn:Ek.
    + destruct (@complex_body_same_start max_thresh sa sb item s1 Ha Hh Hbody)
        as [s1' [Hbody' [Ha' Hh']]].
      simpl. rewrite Hbody'. simpl.
      exact (IH Hkeep' s1 s1' sa' Ha' Hh' Hloop).
    + destruct (@complex_body_uncaptured max_thresh sa item s1 Hbody
                  (Hkeep item (or_introl eq_refl) Ek)) as [Ha1 Hh1].
      apply (IH Hkeep' s1 sb sa'); [congruence|congruence|exact Hloop].
Qed.

(** X6. The complexes that end without an entry in [assignments] have no
    effect on the result: the matcher returns the same array, or raises
    alike, when they are removed from the mapping. *)
Theorem uncaptured_complexes_are_inert
    (complexes : list (string * list string)) (st : locals) :
  NoDup (map fst complexes) ->
  scan_complexes complexes = Some st ->
  get_first_level_clusters
    (filter
       (fun item => Np.mem_str (fst item) (dict_keys (assignments st)))
       complexes) =
  get_first_level_clusters complexes.
Proof.
  intros Hkeys Hscan.
  destruct (@scan_max_thresh complexes st Hscan) as [max_thresh [Hmax Hloop]].
  assert (Hkeep : forall item, In item complexes ->
            Np.mem_str (fst item) (dict_keys (assignments st)) = false ->
            capture max_thresh item = Some None).
  { intros [complex comp_genes] Hin Hmem.
    destruct (scan_captured_iff fcluster maxdists link common_genes complexes
                complex comp_genes Hkeys Hmax Hscan Hin) as [r [Hcap Hr]].
    rewrite Hcap. f_equal. rewrite <- Hr.
    destruct (dict_get complex (assignments st)) as [v|] eqn:Eg;
      [|reflexivity].
    exfalso.
    assert (Hk : In complex (dict_keys (assignments st))).
    { apply dict_get_In. exists v. exact Eg. }
    apply mem_str_In in Hk. cbn [fst] in Hmem. congruence. }
  destruct (@complex_loop_filter max_thresh _ complexes Hkeep
              init_locals init_locals st eq_refl eq_refl Hloop)
    as [st' [Hloop' [Ha Hh]]].
  unfold Matching.get_first_level_clusters, Matching.scan_complexes.
  rewrite Hmax. cbn [bind]. rewrite Hloop', Hloop. cbn [bind].
  rewrite Ha, Hh. reflexivity.
Qed.

(** *** When the scan raises *)

Lemma complex_loop_raises max_thresh cs st :
  foldM (complex_body max_thresh) cs st = None ->
  exists item, In item cs /\ capture max_thresh item = None.
Proof.
  revert st. induction cs as [|item cs IH]; intros st H; [discriminate|].
  simpl in H.
  destruct (complex_body max_thresh st item) as [s1|] eqn:Eb.
  - simpl in H. destruct (IH s1 H) as [it [Hit Hcap]].
    exists it. split; [right; exact Hit|exact Hcap].
  - exists item. split; [left; reflexivity|].
    destruct (capture max_thresh item) as [r|] eqn:Ec; [|reflexivity].
    destruct (capture_total fcluster link common_genes max_thresh item Ec st)
      as [s1 Hs1].
    congruence.
Qed.

Lemma cand_loop_raises complex comp_genes cs st :
  foldM (cand_body complex comp_genes) cs st = None ->
  exists c, In c cs /\ cand_jaccard comp_genes (snd c) = None.
Proof.
  revert st. induction cs as [|c cs IH]; intros st H; [discriminate|].
  simpl in H.
  destruct (cand_jaccard comp_genes (snd c)) as [j|] eqn:Ej.
  - unfold Matching.cand_body in H at 1. rewrite Ej in H. simpl in H.
    destruct (IH _ H) as [c' [Hc' Hn]].
    exists c'. split; [right; exact Hc'|exact Hn].
  - exists c. split; [left; reflexivity|exact Ej].
Qed.

(** X7. With [fcluster] and [maxdists] returning, the scan over the
    complexes raises in exactly two cases: the linkage has no merge, or a
    complex with two genes in the item set meets, at a scanned threshold, a
    cluster of two or more items one of which lies beyond the end of the
    item set. *)
Theorem scan_raises_iff (complexes : list (string * list string)) :
  scan_complexes complexes = None <->
  maxdists link = [] \/
  exists max_thresh complex comp_genes t cl i,
    Np.maxQ (maxdists link) = Some max_thresh /\
    In (complex, comp_genes) complexes /\
    2 <= length (Np.intersect1d comp_genes common_genes) /\
    In t (thresholds max_thresh) /\
    cluster_at t cl /\
    In i cl /\ length common_genes <= i.
Proof.
  split.
  - unfold Matching.scan_complexes.
    destruct (Np.maxQ (maxdists link)) as [max_thresh|] eqn:Emax.
    + cbn [bind]. intros Hloop. right.
      destruct (@complex_loop_raises max_thresh complexes init_locals Hloop)
        as [[complex comp_genes] [Hin Hcap]].
      unfold Matching.capture, Matching.complex_body in Hcap.
      cbn [fst snd] in Hcap.
      destruct (length (Np.intersect1d comp_genes common_genes) <? 2) eqn:E2;
        [discriminate|].
      apply Nat.ltb_ge in E2.
      rewrite thresh_loop_candidates in Hcap.
      destruct (foldM (cand_body complex comp_genes)
                  (candidates (thresholds max_thresh))
                  {| assignments := assignments init_locals;
                     highest_thresh := highest_thresh init_locals;
                     best_jaccard := 0 |}) as [s|] eqn:Ef;
        [discriminate|].
      destruct (@cand_loop_raises complex comp_genes _ _ Ef)
        as [[t cl] [Hc Hj]].
      apply candidates_In in Hc. destruct Hc as [Ht Hcl].
      cbn [snd] in Hj. unfold Matching.cand_jaccard in Hj.
      destruct (Np.take common_genes cl) as [cluster_genes|] eqn:Et;
        [discriminate|].
      destruct (@take_raises _ common_genes cl Et) as [i [Hi Hlen]].
      exists max_thresh, complex, comp_genes, t, cl, i. auto 10.
    + intros _. left. destruct (maxdists link); [reflexivity|discriminate].
  - intros [Hnil|H].
    + unfold Matching.scan_complexes. rewrite Hnil. reflexivity.
    + destruct H as [max_thresh [complex [comp_genes [t [cl [i H]]]]]].
      destruct H as [Hmax [Hin [H2 [Ht [Hcl [Hi Hlen]]]]]].
      destruct (scan_complexes complexes) as [st|] eqn:Hscan; [|reflexivity].
      exfalso.
      destruct (@scan_max_thresh complexes st Hscan) as [mt [Hmax' Hloop]].
      rewrite Hmax in Hmax'. injection Hmax' as <-.
      destruct (complex_loop_captures fcluster link common_genes max_thresh
                  complexes init_locals Hloop (complex, comp_genes) Hin)
        as [r Hcap].
      destruct (capture_total fcluster link common_genes max_thresh
                  (complex, comp_genes) Hcap init_locals) as [s Hbody].
      apply complex_body_spec in Hbody. cbn [fst snd] in Hbody.
      destruct Hbody as [[Hlt _]|[_ [Hall _]]]; [lia|].
      assert (Hc : In (t, cl) (candidates (thresholds max_thresh))).
      { apply candidates_In. split; assumption. }
      destruct (Hall _ Hc) as [j Hj]. cbn [snd] in Hj.
      unfold Matching.cand_jaccard in Hj. apply bind_Some in Hj.
      destruct Hj as [cluster_genes [Htake _]].
      pose proof (take_Some _ _ Htake i Hi). lia.
Qed.

(** *** When the final merge raises *)

(** X8. Once the scan has returned, the function raises only in its last
    step, and exactly when the item set is empty or an item of a recorded
    cluster lies beyond the end of the fallback clustering. *)
Theorem merge_raises_iff (complexes : list (string * list string))
    (st : locals) :
  scan_complexes complexes = Some st ->
  (get_first_level_clusters complexes = None <->
   common_genes = [] \/
   exists k,
     winner (assignments st) k <> 0 /\
     length (fcluster link (highest_thresh st + (1 # 10))%Q) <= k).
Proof.
  intros Hscan.
  pose proof (scan_recorded_ok fcluster maxdists link common_genes complexes
                Hscan) as Hok.
  destruct (label_captured_total common_genes Hok) as [ga Hga].
  destruct (label_captured_spec common_genes _ Hga) as [Hlen Hnth].
  unfold Matching.get_first_level_clusters. rewrite Hscan. cbn [bind].
  rewrite Hga. cbn [bind].
  set (fallback := fcluster link (highest_thresh st + (1 # 10))%Q).
  assert (Hnz : forall i, In i (Np.nonzero ga) <->
                          winner (assignments st) i <> 0).
  { intros i. rewrite nonzero_In. split.
    - intros [x [Hx Hx0]]. rewrite <- Hnth.
      rewrite (nth_error_nth _ _ 0 Hx). exact Hx0.
    - intros Hw. rewrite <- Hnth in Hw.
      destruct (nth_error ga i) as [x|] eqn:Ex.
      + exists x. split; [reflexivity|].
        rewrite (nth_error_nth _ _ 0 Ex) in Hw. exact Hw.
      + apply nth_error_None in Ex. rewrite nth_overflow in Hw by exact Ex.
        congruence. }
  split.
  - intros Hnone.
    destruct common_genes as [|g genes] eqn:Eg; [left; reflexivity|right].
    assert (Hne : ga <> []).
    { intros ->. simpl in Hlen. discriminate. }
    destruct (Forall_Exists_dec (fun i => i < length fallback)
                (fun i => lt_dec i (length fallback)) (Np.nonzero ga))
      as [Hall|Hex].
    + exfalso.
      destruct (combine_with_fallback_total' fcluster link
                  (highest_thresh st) Hne
                  (fun i Hi => proj1 (Forall_forall _ _) Hall i Hi))
        as [out Hout].
      fold fallback in Hout. congruence.
    + apply Exists_exists in Hex. destruct Hex as [k [Hk Hge]].
      exists k. split; [apply Hnz; exact Hk|lia].
  - intros H.
    destruct (combine_with_fallback ga (highest_thresh st)) as [out|] eqn:Ec;
      [|reflexivity].
    exfalso.
    destruct (combine_with_fallback_inv fcluster link ga (highest_thresh st)
                Ec) as [Hne Hall].
    destruct H as [Hnil|[k [Hw Hk]]].
    + rewrite Hnil in Hlen. destruct ga; [congruence|discriminate].
    + apply Hnz in Hw. specialize (Hall k Hw). fold fallback in Hall. lia.
Qed.

End MatcherEdges.

(** ** The serializer on arbitrary levels *)

Section SerializerShape.
Variable mapped_genes : list string.
Local Abbreviation build_levels := (build_levels mapped_genes).
Local Abbreviation item_leaf := (item_leaf mapped_genes).

Lemma build_levels_well_formed (levels : list (list nat)) :
  forall subset r,
    build_levels levels subset = Some r ->
    match r with
    | PyList items =>
        levels = [] /\ forallb (well_formed mapped_genes 0) items = true
    | PyDict node =>
        levels <> [] /\ well_formed mapped_genes (length levels) node = true
    end.
Proof.
  induction levels as [|cluster rest IH]; intros subset r Hr.
  - simpl in Hr. apply bind_Some in Hr. destruct Hr as [names [Htake Hr]].
    injection Hr as <-. split; [reflexivity|].
    apply forallb_forall. intros t Ht. apply in_map_iff in Ht.
    destruct Ht as [name [<- Hname]]. simpl.
    apply mem_str_In.
    exact (@take_In _ mapped_genes subset names name Htake Hname).
  - cbn [Grouping.build_levels] in Hr.
    apply bind_Some in Hr. destruct Hr as [cluster_ [_ Hr]].
    apply bind_Some in Hr. destruct Hr as [children [Hloop Hr]].
    injection Hr as <-. split; [discriminate|].
    cbn [well_formed length]. simpl String.eqb. cbn [andb].
    revert Hloop.
    apply (foldM_inv
             (fun children =>
                forallb (well_formed mapped_genes (length rest)) children =
                true));
      [|reflexivity].
    intros acc label acc' _ Hacc Hbody.
    apply bind_Some in Hbody. destruct Hbody as [child [Hchild Hbody]].
    specialize (IH _ _ Hchild).
    destruct child as [items|node]; injection Hbody as <-;
      rewrite forallb_app, Hacc; cbn [andb].
    + destruct IH as [-> Hitems]. exact Hitems.
    + destruct IH as [_ Hnode]. simpl. rewrite Hnode. reflexivity.
Qed.

Lemma create_data_structure_unfold (clusters : list (list nat)) :
  create_data_structure mapped_genes clusters =
  match rev clusters with
  | [] => None
  | first :: rest => build_levels (first :: rest) (seq 0 (length first))
  end.
Proof.
  unfold create_data_structure, create_data_structure_recursive.
  destruct (rev clusters); reflexivity.
Qed.

(** X9. Whatever the levels are, a tree that [create_data_structure]
    returns is in the format of the packing layout: the root and every
    inner node are named by the empty string, every leaf lies exactly as
    many levels below the root as there are levels, carries the value 1,
    and its name is one of the display names. *)
Theorem returned_tree_is_well_formed (clusters : list (list nat))
    (r : py_value) :
  create_data_structure mapped_genes clusters = Some r ->
  exists node,
    r = PyDict node /\ well_formed mapped_genes (length clusters) node = true.
Proof.
  rewrite create_data_structure_unfold. intros Hr.
  destruct (rev clusters) as [|first rest] eqn:E; [discriminate|].
  pose proof (build_levels_well_formed _ _ Hr) as Hwf.
  destruct r as [items|node].
  - destruct Hwf as [Hnil _]. discriminate.
  - exists node. split; [reflexivity|].
    destruct Hwf as [_ Hwf]. rewrite <- E, length_rev in Hwf. exact Hwf.
Qed.

Lemma children_leaves (cluster : list nat) (rest : list (list nat))
    (labels : list nat) :
  (forall label, In label labels ->
     exists r, build_levels rest (Np.argwhere_eq cluster label) = Some r) ->
  forall acc,
  exists children,
    foldM
      (fun children label =>
         child <- build_levels rest (Np.argwhere_eq cluster label) ;;
         match child with
         | PyList items => Some (children ++ items)
         | PyDict node => Some (children ++ [node])
         end)
      labels acc = Some children /\
    forall x,
      In x (flat_map leaves children) <->
      In x (flat_map leaves acc) \/
      exists label r,
        In label labels /\
        build_levels rest (Np.argwhere_eq cluster label) = Some r /\
        In x (leaves_of r).
Proof.
  induction labels as [|label labels IH]; intros H acc.
  - exists acc. split; [reflexivity|]. intros x. split; [auto|].
    intros [Hx|[label [r [[] _]]]]. exact Hx.
  - destruct (H label (or_introl eq_refl)) as [r Hr].
    assert (Hrest : forall l, In l labels ->
              exists r0,
                build_levels rest (Np.argwhere_eq cluster l) = Some r0).
    { intros l Hl. apply H. right. exact Hl. }
    set (acc' := match r with
                 | PyList items => acc ++ items
                 | PyDict node => acc ++ [node]
                 end).
    destruct (IH Hrest acc') as [children [Hloop Hx]].
    exists children. split.
    + cbn [foldM]. rewrite Hr. cbn [bind].
      destruct r; cbn [bind]; exact Hloop.
    + assert (Hacc' : forall x, In x (flat_map leaves acc') <->
                        In x (flat_map leaves acc) \/ In x (leaves_of r)).
      { intros x. subst acc'. destruct r as [items|node];
          rewrite flat_map_app, in_app_iff; [reflexivity|].
        simpl. rewrite app_nil_r. reflexivity. }
      intros x. rewrite Hx, Hacc'. split.
      * intros [[Hin|Hin]|[l [r0 [Hl [Hr0 Hin]]]]].
        -- left. exact Hin.
        -- right. exists label, r.
           split; [left; reflexivity|split; assumption].
        -- right. exists l, r0.
           split; [right; exact Hl|split; assumption].
      * intros [Hin|[l [r0 [[El|Hl] [Hr0 Hin]]]]].
        -- left. left. exact Hin.
        -- left. right. subst l. rewrite Hr in Hr0. injection Hr0 as <-.
           exact Hin.
        -- right. exists l, r0. auto.
Qed.

Lemma build_levels_covers (levels : list (list nat)) :
  same_shape (length mapped_genes) levels ->
  forall subset,
    (forall i, In i subset -> i < length mapped_genes) ->
    exists r,
      build_levels levels subset = Some r /\
      (forall i, In i subset -> In (item_leaf i) (leaves_of r)) /\
      (forall leaf, In leaf (leaves_of r) ->
         exists name, In name mapped_genes /\ leaf = (name, 1)).
Proof.
  induction levels as [|cluster rest IH]; intros Hshape subset Hlt.
  - simpl. rewrite (take_nth ""%string mapped_genes subset Hlt). simpl.
    eexists. split; [reflexivity|].
    simpl. rewrite leaves_leaf_list, map_map. split.
    + intros i Hi. apply in_map_iff. exists i. auto.
    + intros leaf Hleaf. apply in_map_iff in Hleaf.
      destruct Hleaf as [i [<- Hi]].
      exists (nth i mapped_genes ""%string). split; [|reflexivity].
      apply nth_In. apply Hlt. exact Hi.
  - inversion Hshape as [|? ? Hlen Hshape']; subst.
    assert (Hlt' : forall i, In i subset -> i < length cluster).
    { intros i Hi. rewrite Hlen. apply Hlt. exact Hi. }
    assert (Hsub : forall label i,
              In i (Np.argwhere_eq cluster label) -> i < length mapped_genes).
    { intros label i Hi. rewrite <- Hlen. exact (argwhere_eq_lt _ _ _ Hi). }
    cbn [Grouping.build_levels].
    rewrite (take_nth 0 cluster subset Hlt'). cbn [bind].
    set (labels := Np.unique (map (fun i => nth i cluster 0) subset)).
    assert (Hch : forall label, In label labels ->
              exists r,
                build_levels rest (Np.argwhere_eq cluster label) = Some r).
    { intros label _.
      destruct (IH Hshape' (Np.argwhere_eq cluster label) (Hsub label))
        as [r [Hr _]].
      exists r. exact Hr. }
    destruct (children_leaves cluster rest labels Hch [])
      as [children [Hloop Hx]].
    rewrite Hloop. cbn [bind]. eexists. split; [reflexivity|].
    cbn [leaves_of leaves]. split.
    + intros i Hi. apply Hx. right.
      set (label := nth i cluster 0).
      assert (Hil : In i (Np.argwhere_eq cluster label)).
      { apply argwhere_eq_In. apply nth_error_nth'. apply Hlt'. exact Hi. }
      destruct (IH Hshape' (Np.argwhere_eq cluster label) (Hsub label))
        as [r [Hr [Hcover _]]].
      exists label, r. split; [|split; [exact Hr|exact (Hcover i Hil)]].
      apply unique_In. apply in_map_iff. exists i. auto.
    + intros leaf Hleaf. apply Hx in Hleaf.
      destruct Hleaf as [[]|[label [r [_ [Hr Hin]]]]].
      destruct (IH Hshape' (Np.argwhere_eq cluster label) (Hsub label))
        as [r' [Hr' [_ Hnames]]].
      rewrite Hr in Hr'. injection Hr' as <-. exact (Hnames leaf Hin).
Qed.

(** X10. The levels need not be nested for the serializer to return:
    whenever there is at least one level and every level labels every
    item, the result is a dict whose leaves are, as a set, exactly the
    display names with the value 1, so no item is lost. *)
Theorem same_shape_levels_keep_every_item (clusters : list (list nat)) :
  clusters <> [] ->
  same_shape (length mapped_genes) clusters ->
  exists node,
    create_data_structure mapped_genes clusters = Some (PyDict node) /\
    forall leaf,
      In leaf (leaves node) <->
      exists name, In name mapped_genes /\ leaf = (name, 1).
Proof.
  intros Hne Hshape.
  assert (Hshape' : same_shape (length mapped_genes) (rev clusters)).
  { unfold same_shape in *. apply Forall_rev. exact Hshape. }
  rewrite create_data_structure_unfold.
  destruct (rev clusters) as [|first rest] eqn:E.
  { apply (f_equal (@rev (list nat))) in E. rewrite rev_involutive in E.
    contradiction. }
  assert (Hlen : length first = length mapped_genes).
  { inversion Hshape'. assumption. }
  destruct (build_levels_covers Hshape' (seq 0 (length first)))
    as [r [Hr [Hcover Hnames]]].
  { intros i Hi. apply in_seq in Hi. lia. }
  pose proof (build_levels_well_formed _ _ Hr) as Hwf.
  destruct r as [items|node]; [destruct Hwf; discriminate|].
  exists node. split; [exact Hr|].
  intros leaf. split; [apply Hnames|].
  intros [name [Hname ->]].
  destruct (In_nth _ _ ""%string Hname) as [i [Hi Hnth]].
  rewrite <- Hnth. apply (Hcover i). apply in_seq. lia.
Qed.

End SerializerShape.

(** ** The cells around the two routines *)

Section NotebookFacts.
Variable Linkage : Type.
Variable fcluster : Linkage -> Q -> list nat.
Variable maxdists : Linkage -> list Q.
Variable link : Linkage.
Variable genes : list string.
Variable orf2name_mapper : list (string * string).

(** X11. The cells compose: when [fcluster] labels every item at every
    cut, the item set is not empty and the linkage has a merge, the matcher
    returns, its array goes between the cut at 0 and the cut at 0.9, and
    [data] is a well-formed tree of three levels in which every display
    name is a leaf. *)
Theorem notebook_data_is_a_three_level_tree
    (complexes : list (string * list string)) :
  (forall t, length (fcluster link t) = length genes) ->
  genes <> [] ->
  maxdists link <> [] ->
  exists first_level_clusters node,
    get_first_level_clusters fcluster maxdists link genes complexes =
      Some first_level_clusters /\
    Notebook.clusters fcluster maxdists link genes complexes =
      Some [fcluster link 0%Q; first_level_clusters;
            fcluster link (9 # 10)%Q] /\
    Notebook.data fcluster maxdists link genes orf2name_mapper complexes =
      Some (PyDict node) /\
    well_formed (Notebook.mapped_genes orf2name_mapper genes) 3 node = true /\
    forall name,
      In name (Notebook.mapped_genes orf2name_mapper genes) ->
      In (name, 1) (leaves node).
Proof.
  intros Hshape Hne Hmd.
  destruct (get_first_level_clusters_returns fcluster maxdists link complexes
              Hshape Hne Hmd) as [st [out [_ Hout]]].
  destruct (output_spec fcluster maxdists link genes complexes Hout)
    as [st' [ga [_ [_ [_ [Hlen _]]]]]].
  rewrite Hshape in Hlen.
  assert (Hclusters :
            Notebook.clusters fcluster maxdists link genes complexes =
            Some [fcluster link 0%Q; out; fcluster link (9 # 10)%Q]).
  { unfold Notebook.clusters. rewrite Hout. reflexivity. }
  set (names := Notebook.mapped_genes orf2name_mapper genes).
  assert (Hnames : length names = length genes).
  { unfold names, Notebook.mapped_genes. apply length_map. }
  assert (Hss : same_shape (length names)
                  [fcluster link (9 # 10)%Q; out; fcluster link 0%Q]).
  { rewrite Hnames. repeat constructor; auto. }
  destruct (@build_levels_covers names _ Hss
              (seq 0 (length (fcluster link (9 # 10)%Q))))
    as [r [Hr [Hcover Hleaves]]].
  { intros i Hi. apply in_seq in Hi. rewrite Hnames, <- (Hshape (9 # 10)%Q).
    lia. }
  pose proof (@build_levels_well_formed names _ _ _ Hr) as Hwf.
  destruct r as [items|node]; [destruct Hwf; discriminate|].
  destruct Hwf as [_ Hwf].
  exists out, node. split; [exact Hout|]. split; [exact Hclusters|].
  split; [unfold Notebook.data; rewrite Hclusters; exact Hr|].
  split; [exact Hwf|].
  intros name Hname.
  destruct (In_nth _ _ ""%string Hname) as [i [Hi Hnth]].
  rewrite <- Hnth. apply (Hcover i). apply in_seq.
  rewrite (Hshape (9 # 10)%Q), <- Hnames. lia.
Qed.

End NotebookFacts.

(** ** Node subsampling *)

Lemma fold_union1d_In (rest : list (list string)) (first : list string)
    (x : string) :
  In x (fold_left Np.union1d rest first) <->
  In x first \/ exists l, In l rest /\ In x l.
Proof.
  revert first. induction rest as [|l rest IH]; intros first; simpl.
  - split; [auto|]. intros [H|[l [[] _]]]. exact H.
  - rewrite IH, union1d_In. split.
    + intros [[H|H]|[l' [Hl' H]]].
      * left. exact H.
      * right. exists l. auto.
      * right. exists l'. auto.
    + intros [H|[l' [[<-|Hl'] H]]].
      * left. left. exact H.
      * left. right. exact H.
      * right. exists l'. auto.
Qed.

Lemma fold_union1d_NoDup (rest : list (list string)) (first : list string) :
  NoDup first -> NoDup (fold_left Np.union1d rest first).
Proof.
  revert first. induction rest as [|l rest IH]; intros first Hnd; simpl.
  - exact Hnd.
  - apply IH. apply union1d_NoDup.
Qed.

Lemma reduce_union1d_spec (lists : list (list string)) (u : list string) :
  Forall (@NoDup string) lists ->
  Sampling.reduce_union1d lists = Some u ->
  NoDup u /\ forall x, In x u <-> exists l, In l lists /\ In x l.
Proof.
  intros Hnd. destruct lists as [|first rest]; [discriminate|].
  simpl. intros H. injection H as <-.
  inversion Hnd as [|? ? Hfirst _]; subst. split.
  - apply fold_union1d_NoDup. exact Hfirst.
  - intros x. rewrite fold_union1d_In. split.
    + intros [H|[l [Hl H]]]; [exists first|exists l]; auto.
    + intros [l [[<-|Hl] H]]; [left; exact H|right; exists l; auto].
Qed.

Lemma subsampled_net_In (net node_sample : list string) (v : string) :
  In v (Sampling.subgraph_nodes net (Np.intersect1d node_sample net)) <->
  In v net /\ In v node_sample.
Proof.
  unfold Sampling.subgraph_nodes.
  rewrite filter_In, mem_str_In, intersect1d_In. tauto.
Qed.

(** X12. In the node subsampling of the scaling experiment, every
    subsampled network keeps exactly those of its nodes that were sampled,
    and the subsampled networks together hold exactly the sampled nodes:
    the printed total is the sample size. *)
Theorem subsampled_nets_hold_the_sample
    (nets : list (list string)) (node_union : list string) (n_nodes : nat)
    (node_sample : list string) :
  Forall (@NoDup string) nets ->
  Sampling.reduce_union1d nets = Some node_union ->
  Sampling.sample_of node_union n_nodes node_sample ->
  Forall2
    (fun net sampled => forall v, In v sampled <-> In v net /\ In v node_sample)
    nets (Sampling.subsample nets node_sample) /\
  Sampling.total_nodes (Sampling.subsample nets node_sample) = Some n_nodes.
Proof.
  intros Hnets Hunion [Hlen [unused Hperm]].
  destruct (reduce_union1d_spec Hnets Hunion) as [Hnd Hmem].
  assert (Hs : NoDup node_sample).
  { apply (NoDup_app_remove_r node_sample unused).
    apply (Permutation_NoDup (Permutation_sym Hperm) Hnd). }
  assert (Hincl : forall v, In v node_sample -> In v node_union).
  { intros v Hv. apply (Permutation_in v Hperm). apply in_or_app. auto. }
  split.
  - unfold Sampling.subsample. clear. induction nets as [|net nets IH].
    + constructor.
    + simpl. constructor; [|exact IH].
      intros v. apply subsampled_net_In.
  - unfold Sampling.total_nodes.
    assert (Hsub : Forall (@NoDup string)
                     (Sampling.subsample nets node_sample)).
    { unfold Sampling.subsample. apply Forall_forall. intros l Hl.
      apply in_map_iff in Hl. destruct Hl as [net [<- Hnet]].
      apply NoDup_filter.
      exact (proj1 (Forall_forall _ _) Hnets net Hnet). }
    destruct (Sampling.reduce_union1d (Sampling.subsample nets node_sample))
      as [total|] eqn:Et.
    + cbn [bind]. f_equal. rewrite <- Hlen.
      destruct (reduce_union1d_spec Hsub Et) as [Htot Htmem].
      apply same_members_length; [exact Htot|exact Hs|].
      intros v. rewrite Htmem. split.
      * intros [l [Hl Hv]]. unfold Sampling.subsample in Hl.
        apply in_map_iff in Hl. destruct Hl as [net [<- Hnet]].
        apply subsampled_net_In in Hv. tauto.
      * intros Hv. destruct (proj1 (Hmem v) (Hincl v Hv)) as [net [Hnet Hvn]].
        exists (Sampling.subgraph_nodes net (Np.intersect1d node_sample net)).
        split.
        -- unfold Sampling.subsample. apply in_map_iff. exists net. auto.
        -- apply subsampled_net_In. auto.
    + exfalso. destruct nets; discriminate.
Qed.

(** ** Train / test splits *)

Lemma py_set_fresh {V : Type} (k : string) (v : V) (d : list (string * V)) :
  ~ In k (map fst d) -> Splitting.py_set k v d = d ++ [(k, v)].
Proof.
  induction d as [|[k' v'] d IH]; intros Hk; [reflexivity|].
  simpl. destruct (String.eqb_spec k k') as [->|Hne].
  - exfalso. apply Hk. left. reflexivity.
  - rewrite IH; [reflexivity|]. intros H. apply Hk. right. exact H.
Qed.

Lemma filter_keys {V : Type} (p : string * V -> bool) (l : list (string * V))
    (k : string) :
  In k (map fst (filter p l)) -> In k (map fst l).
Proof.
  intros H. apply in_map_iff in H. destruct H as [item [<- Hitem]].
  apply filter_In in Hitem. apply in_map. tauto.
Qed.

Lemma comprehension_from {V : Type} (keep : string -> bool)
    (standard acc : list (string * V)) :
  NoDup (map fst standard) ->
  (forall k, In k (map fst standard) -> ~ In k (map fst acc)) ->
  fold_left
    (fun d item =>
       if keep (fst item) then Splitting.py_set (fst item) (snd item) d
       else d)
    standard acc =
  acc ++ filter (fun item => keep (fst item)) standard.
Proof.
  revert acc. induction standard as [|[k v] standard IH]; intros acc Hnd Hfresh.
  - simpl. rewrite app_nil_r. reflexivity.
  - simpl in Hnd. inversion Hnd as [|? ? Hk Hnd']; subst.
    cbn [fold_left filter fst snd]. destruct (keep k).
    + rewrite py_set_fresh by (apply Hfresh; left; reflexivity).
      rewrite IH; [rewrite <- app_assoc; reflexivity|exact Hnd'|].
      intros k' Hk' Hin. rewrite map_app, in_app_iff in Hin.
      destruct Hin as [Hin|[<-|[]]].
      * apply (Hfresh k'); [right; exact Hk'|exact Hin].
      * contradiction.
    + apply IH; [exact Hnd'|].
      intros k' Hk'. apply Hfresh. right. exact Hk'.
Qed.

Lemma comprehension_filter {V : Type} (keep : string -> bool)
    (standard : list (string * V)) :
  NoDup (map fst standard) ->
  Splitting.comprehension keep standard =
  filter (fun item => keep (fst item)) standard.
Proof.
  intros Hnd. unfold Splitting.comprehension.
  rewrite comprehension_from; [reflexivity|exact Hnd|].
  intros k _ [].
Qed.

Lemma filter_negb_Permutation {A : Type} (p : A -> bool) (l : list A) :
  Permutation (filter p l ++ filter (fun x => negb (p x)) l) l.
Proof.
  induction l as [|a l IH]; [constructor|].
  simpl. destruct (p a); simpl.
  - constructor. exact IH.
  - apply Permutation_sym. apply Permutation_cons_app.
    apply Permutation_sym. exact IH.
Qed.

(** X13. [split_supervised] partitions the standard: a gene with its
    labels goes to the test standard exactly when it is a test gene and to
    the training standard exactly when it is not, both keep the order of
    the standard, and together they hold every entry once. *)
Theorem split_supervised_partitions
    (standard : list (string * list string)) (test_genes : list string) :
  NoDup (map fst standard) ->
  let test_standard :=
    fst (Splitting.split_supervised standard test_genes) in
  let train_standard :=
    snd (Splitting.split_supervised standard test_genes) in
  test_standard =
    filter (fun item => Np.mem_str (fst item) test_genes) standard /\
  train_standard =
    filter (fun item => negb (Np.mem_str (fst item) test_genes)) standard /\
  Permutation (test_standard ++ train_standard) standard /\
  (forall gene, In gene (map fst test_standard) -> In gene test_genes) /\
  (forall gene, In gene (map fst train_standard) -> ~ In gene test_genes).
Proof.
  intros Hnd. cbn zeta. unfold Splitting.split_supervised. cbn [fst snd].
  rewrite !comprehension_filter by exact Hnd.
  split; [reflexivity|]. split; [reflexivity|].
  split; [apply filter_negb_Permutation|]. split.
  - intros gene H. apply in_map_iff in H. destruct H as [item [<- Hitem]].
    apply filter_In in Hitem. apply mem_str_In. tauto.
  - intros gene H Hin. apply in_map_iff in H. destruct H as [item [<- Hitem]].
    apply filter_In in Hitem. destruct Hitem as [_ Hneg].
    apply mem_str_In in Hin. rewrite Hin in Hneg. discriminate.
Qed.

Lemma shares_gene_test (test_genes genes : list string) :
  (0 <? length (filter (fun g => Np.mem_str g test_genes)
                  (nodup string_dec genes))) =
  existsb (fun g => Np.mem_str g test_genes) genes.
Proof.
  apply eq_true_iff_eq. rewrite Nat.ltb_lt, existsb_exists. split.
  - intros Hlen.
    destruct (filter (fun g => Np.mem_str g test_genes)
                (nodup string_dec genes)) as [|g l] eqn:E;
      [simpl in Hlen; lia|].
    assert (Hg : In g (filter (fun g => Np.mem_str g test_genes)
                         (nodup string_dec genes)))
      by (rewrite E; left; reflexivity).
    apply filter_In in Hg. destruct Hg as [Hg Hmem].
    apply nodup_In in Hg. exists g. auto.
  - intros [g [Hg Hmem]].
    assert (Hin : In g (filter (fun g => Np.mem_str g test_genes)
                          (nodup string_dec genes))).
    { apply filter_In. split; [apply nodup_In; exact Hg|exact Hmem]. }
    destruct (filter (fun g => Np.mem_str g test_genes)
                (nodup string_dec genes)); [destruct Hin|simpl; lia].
Qed.

Lemma split_module_from (test_genes : list string)
    (standard : list (string * list string))
    (st : list (string * list string) * list string) :
  NoDup (map fst standard) ->
  (forall k, In k (map fst standard) -> ~ In k (map fst (fst st))) ->
  fst (fold_left (Splitting.split_module_body test_genes) standard st) =
  fst st ++
  filter
    (fun item => existsb (fun g => Np.mem_str g test_genes) (snd item))
    standard.
Proof.
  revert st. induction standard as [|[m genes] standard IH];
    intros st Hnd Hfresh.
  - simpl. rewrite app_nil_r. reflexivity.
  - simpl in Hnd. inversion Hnd as [|? ? Hk Hnd']; subst.
    cbn [fold_left filter snd]. unfold Splitting.split_module_body at 2.
    cbn [fst snd]. rewrite shares_gene_test.
    destruct (existsb (fun g => Np.mem_str g test_genes) genes).
    + rewrite IH; [|exact Hnd'|].
      * cbn [fst]. rewrite py_set_fresh by (apply Hfresh; left; reflexivity).
        rewrite <- app_assoc. reflexivity.
      * cbn [fst]. rewrite py_set_fresh by (apply Hfresh; left; reflexivity).
        intros k' Hk' Hin. rewrite map_app, in_app_iff in Hin.
        destruct Hin as [Hin|[<-|[]]].
        -- apply (Hfresh k'); [right; exact Hk'|exact Hin].
        -- contradiction.
    + rewrite IH; [reflexivity|exact Hnd'|].
      cbn [fst]. intros k' Hk'. apply Hfresh. right. exact Hk'.
Qed.

(** X14. [split_module] keeps a module in the test standard exactly when
    one of its genes is a test gene; a kept module keeps its whole gene
    list, training genes included, and the kept modules stay in the order
    of the standard. *)
Theorem split_module_keeps_touched_modules
    (standard : list (string * list string)) (test_genes : list string) :
  NoDup (map fst standard) ->
  Splitting.split_module standard test_genes =
    filter
      (fun item => existsb (fun g => Np.mem_str g test_genes) (snd item))
      standard /\
  forall module genes,
    In (module, genes) (Splitting.split_module standard test_genes) <->
    In (module, genes) standard /\
    exists g, In g genes /\ In g test_genes.
Proof.
  intros Hnd.
  assert (E : Splitting.split_module standard test_genes =
              filter
                (fun item =>
                   existsb (fun g => Np.mem_str g test_genes) (snd item))
                standard).
  { unfold Splitting.split_module.
    rewrite split_module_from; [reflexivity|exact Hnd|].
    intros k _ []. }
  split; [exact E|].
  intros module genes. rewrite E, filter_In. cbn [snd].
  rewrite existsb_exists.
  split; intros [H [g [Hg Hm]]]; (split; [exact H|]); exists g;
    (split; [exact Hg|]); apply mem_str_In; exact Hm.
Qed.

Lemma split_coannotation_from (test_genes : list string)
    (standard acc : list (list string)) :
  (forall row, In row standard -> 2 <= length row) ->
  foldM
    (fun test_standard row =>
       gene_1 <- nth_error row 0 ;;
       gene_2 <- nth_error row 1 ;;
       if Np.mem_str gene_1 test_genes || Np.mem_str gene_2 test_genes
       then Some (test_standard ++ [row])
       else Some test_standard)
    standard acc =
  Some
    (acc ++
     filter
       (fun row =>
          Np.mem_str (nth 0 row ""%string) test_genes ||
          Np.mem_str (nth 1 row ""%string) test_genes)
       standard).
Proof.
  revert acc. induction standard as [|row standard IH]; intros acc Hrows.
  - simpl. rewrite app_nil_r. reflexivity.
  - assert (Hrow : 2 <= length row) by (apply Hrows; left; reflexivity).
    destruct row as [|gene_1 [|gene_2 rest]]; try (simpl in Hrow; lia).
    cbn [foldM filter nth_error nth bind].
    destruct (Np.mem_str gene_1 test_genes || Np.mem_str gene_2 test_genes);
      cbn [bind].
    + rewrite IH; [rewrite <- app_assoc; reflexivity|].
      intros r Hr. apply Hrows. right. exact Hr.
    + apply IH. intros r Hr. apply Hrows. right. exact Hr.
Qed.

(** X15. [split_coannotation] keeps, in the order of the table, the rows
    in which one of the two genes is a test gene, and no other row; it
    returns whenever every row has its two gene columns. *)
Theorem split_coannotation_keeps_touched_rows
    (standard : list (list string)) (test_genes : list string) :
  (forall row, In row standard -> 2 <= length row) ->
  exists test_standard,
    Splitting.split_coannotation standard test_genes = Some test_standard /\
    test_standard =
      filter
        (fun row =>
           Np.mem_str (nth 0 row ""%string) test_genes ||
           Np.mem_str (nth 1 row ""%string) test_genes)
        standard /\
    forall row,
      In row test_standard <->
      In row standard /\
      (In (nth 0 row ""%string) test_genes \/
       In (nth 1 row ""%string) test_genes).
Proof.
  intros Hrows. eexists. split; [|split; [reflexivity|]].
  - unfold Splitting.split_coannotation.
    rewrite split_coannotation_from by exact Hrows. reflexivity.
  - intros row. rewrite filter_In, orb_true_iff, !mem_str_In. reflexivity.
Qed.

(** *** One trial *)

Lemma train_size_eq (len : nat) : Splitting.train_size len = 4 * len / 5.
Proof.
  unfold Splitting.train_size, Splitting.test_size.
  unfold Qfloor, Qmult, Qminus, Qplus, Qopp, inject_Z. cbn [Qnum Qden].
  match goal with
  | |- Z.to_nat (?a / ?b) = _ =>
      replace a with (2 * Z.of_nat (4 * len))%Z by lia;
      change b with (2 * 5)%Z
  end.
  rewrite Z.div_mul_cancel_l by lia.
  change 5%Z with (Z.of_nat 5).
  rewrite <- Znat.Nat2Z.inj_div. apply Znat.Nat2Z.id.
Qed.

Lemma NoDup_app_disjoint {A : Type} (l1 l2 : list A) :
  NoDup (l1 ++ l2) -> forall x, In x l1 -> ~ In x l2.
Proof.
  induction l1 as [|a l1 IH]; intros Hnd x Hx; [destruct Hx|].
  simpl in Hnd. inversion Hnd as [|? ? Ha Hnd']; subst.
  destruct Hx as [<-|Hx].
  - intros H. apply Ha. apply in_or_app. right. exact H.
  - exact (IH Hnd' x Hx).
Qed.

Lemma map_fst_filter_keys {V : Type} (p : string -> bool)
    (l : list (string * V)) :
  map fst (filter (fun item => p (fst item)) l) = filter p (map fst l).
Proof.
  induction l as [|[k v] l IH]; [reflexivity|].
  simpl. destruct (p k); simpl; rewrite IH; reflexivity.
Qed.

(** X16. One trial on the gene function standard. The shuffled genes are
    cut after [floor(0.8 * n)] of the [n] genes; the genes of the training
    standard are the genes before the cut and the genes of the test
    standard those after it, so the two standards share no gene, the test
    standard holds [n - floor(0.8 * n)] genes, and that is at least one
    fifth of them. *)
Theorem supervised_trial_sizes
    (supervised : list (string * list string))
    (shuffled_genes : list string) :
  NoDup (map fst supervised) ->
  Permutation shuffled_genes (map fst supervised) ->
  let n := length supervised in
  let train_genes := fst (Splitting.split_genes shuffled_genes) in
  let test_genes := snd (Splitting.split_genes shuffled_genes) in
  let test_standard :=
    fst (Splitting.supervised_trial supervised shuffled_genes) in
  let train_standard :=
    snd (Splitting.supervised_trial supervised shuffled_genes) in
  Permutation (map fst test_standard) test_genes /\
  Permutation (map fst train_standard) train_genes /\
  (forall gene, In gene (map fst test_standard) ->
     ~ In gene (map fst train_standard)) /\
  length train_standard = 4 * n / 5 /\
  length test_standard = n - 4 * n / 5 /\
  n <= 5 * length test_standard.
Proof.
  intros Hnd Hperm. cbn zeta.
  unfold Splitting.supervised_trial, Splitting.split_supervised,
    Splitting.split_genes.
  cbn [fst snd]. rewrite !comprehension_filter by exact Hnd.
  pose proof (Permutation_length Hperm) as Hlen. rewrite length_map in Hlen.
  rewrite train_size_eq, Hlen.
  set (n := length supervised) in *.
  set (k := 4 * n / 5).
  cbv beta.
  assert (E1 : map fst
                 (filter
                    (fun item =>
                       Np.mem_str (fst item) (skipn k shuffled_genes))
                    supervised) =
               filter (fun gene => Np.mem_str gene (skipn k shuffled_genes))
                 (map fst supervised)).
  { apply (map_fst_filter_keys
             (fun gene => Np.mem_str gene (skipn k shuffled_genes))). }
  assert (E2 : map fst
                 (filter
                    (fun item =>
                       negb (Np.mem_str (fst item) (skipn k shuffled_genes)))
                    supervised) =
               filter
                 (fun gene =>
                    negb (Np.mem_str gene (skipn k shuffled_genes)))
                 (map fst supervised)).
  { apply (map_fst_filter_keys
             (fun gene =>
                negb (Np.mem_str gene (skipn k shuffled_genes)))). }
  rewrite E1, E2.
  assert (Hk : k <= n).
  { subst k. apply Nat.Div0.div_le_upper_bound. lia. }
  assert (Hk5 : n <= 5 * (n - k)).
  { subst k. pose proof (Nat.Div0.mul_div_le (4 * n) 5). lia. }
  assert (Hsh : NoDup shuffled_genes).
  { apply (Permutation_NoDup (Permutation_sym Hperm) Hnd). }
  rewrite <- (firstn_skipn k shuffled_genes) in Hsh.
  assert (Hlf : length (firstn k shuffled_genes) = k).
  { rewrite length_firstn. lia. }
  assert (Hls : length (skipn k shuffled_genes) = n - k).
  { rewrite length_skipn. lia. }
  assert (Hin : forall x, In x (map fst supervised) <->
                  In x (firstn k shuffled_genes) \/
                  In x (skipn k shuffled_genes)).
  { intros x. rewrite <- in_app_iff, firstn_skipn. split.
    - apply Permutation_in. apply Permutation_sym. exact Hperm.
    - apply Permutation_in. exact Hperm. }
  assert (Hdisj : forall x, In x (firstn k shuffled_genes) ->
                    ~ In x (skipn k shuffled_genes)).
  { intros x. exact (NoDup_app_disjoint _ _ Hsh x). }
  assert (Htest :
            Permutation
              (filter (fun gene => Np.mem_str gene (skipn k shuffled_genes))
                 (map fst supervised))
              (skipn k shuffled_genes)).
  { apply NoDup_Permutation.
    - apply NoDup_filter. exact Hnd.
    - exact (NoDup_app_remove_l _ _ Hsh).
    - intros x. rewrite filter_In, mem_str_In, Hin. tauto. }
  assert (Htrain :
            Permutation
              (filter
                 (fun gene =>
                    negb (Np.mem_str gene (skipn k shuffled_genes)))
                 (map fst supervised))
              (firstn k shuffled_genes)).
  { apply NoDup_Permutation.
    - apply NoDup_filter. exact Hnd.
    - exact (NoDup_app_remove_r _ _ Hsh).
    - intros x. rewrite filter_In, negb_true_iff, Hin.
      rewrite <- not_true_iff_false, mem_str_In.
      specialize (Hdisj x).
      destruct (in_dec string_dec x (skipn k shuffled_genes)); tauto. }
  split; [exact Htest|]. split; [exact Htrain|]. split.
  - intros gene Ht Htr.
    apply (Permutation_in _ Htest) in Ht.
    apply (Permutation_in _ Htrain) in Htr.
    exact (Hdisj gene Htr Ht).
  - rewrite <- E1 in Htest. rewrite <- E2 in Htrain.
    apply Permutation_length in Htest, Htrain.
    rewrite length_map in Htest, Htrain.
    rewrite Htest, Htrain, Hlf, Hls. auto.
Qed.

(** ** The added properties on concrete inputs *)

Module DemoFacts2.
Import Demo Demo2.

Lemma genes3_NoDup : NoDup genes3.
Proof.
  repeat (constructor; [simpl; intuition discriminate|]). constructor.
Qed.

Lemma complexes3_keys : NoDup (map fst complexes3).
Proof.
  repeat (constructor; [simpl; intuition discriminate|]). constructor.
Qed.

Lemma get3 : dict_get "CPX-B" (assignments st3) = Some [0; 1].
Proof. reflexivity. Qed.

Lemma common_genes3 :
  Notebook.common_genes ts_genes bioprocess_genes index = genes3.
Proof. vm_compute. reflexivity. Qed.

Lemma shape3 (t : Q) :
  length (SciPy.fcluster link3 t) =
  length (Notebook.common_genes ts_genes bioprocess_genes index).
Proof. rewrite scipy_fcluster_length, common_genes3. reflexivity. Qed.

Lemma common_genes3_not_nil :
  Notebook.common_genes ts_genes bioprocess_genes index <> [].
Proof. rewrite common_genes3. discriminate. Qed.

Lemma maxdists3_not_nil : SciPy.maxdists link3 <> [].
Proof. discriminate. Qed.

Lemma nets_NoDup : Forall (@NoDup string) nets.
Proof.
  repeat (constructor;
          [repeat (constructor; [simpl; intuition discriminate|]);
           constructor|]).
  constructor.
Qed.

Lemma nets_union :
  Sampling.reduce_union1d nets = Some ["a"; "b"; "c"; "d"; "e"]%string.
Proof. vm_compute. reflexivity. Qed.

Lemma node_sample_ok :
  Sampling.sample_of ["a"; "b"; "c"; "d"; "e"]%string 3 node_sample.
Proof.
  split; [reflexivity|]. exists ["c"; "d"]%string.
  apply NoDup_Permutation.
  - repeat (constructor; [simpl; intuition discriminate|]). constructor.
  - repeat (constructor; [simpl; intuition discriminate|]). constructor.
  - intros x. simpl. tauto.
Qed.

Lemma modules_keys : NoDup (map fst modules).
Proof.
  repeat (constructor; [simpl; intuition discriminate|]). constructor.
Qed.

Lemma supervised_keys : NoDup (map fst supervised).
Proof.
  repeat (constructor; [simpl; intuition discriminate|]). constructor.
Qed.

Lemma shuffled_ok : Permutation shuffled_genes (map fst supervised).
Proof.
  apply NoDup_Permutation.
  - repeat (constructor; [simpl; intuition discriminate|]). constructor.
  - exact supervised_keys.
  - intros x. simpl. tauto.
Qed.

Lemma coannotation_rows (row : list string) :
  In row coannotation -> 2 <= length row.
Proof.
  simpl. intros [<-|[<-|[<-|[]]]]; simpl; lia.
Qed.

Lemma nested_tree_built :
  create_data_structure names3 nested_levels = Some (PyDict nested_tree).
Proof. reflexivity. Qed.

Lemma same_shape_crossing : same_shape (length names3) crossing_levels.
Proof. repeat constructor. Qed.

End DemoFacts2.

Lemma recorded_cluster_shares_half_witness :
  NoDup Demo.genes3 /\
  NoDup (map fst Demo.complexes3) /\
  SciPy.run_scan Demo.link3 Demo.genes3 Demo.complexes3 = Some Demo.st3 /\
  In ("CPX-B"%string, ["g0"; "g1"]%string) Demo.complexes3 /\
  dict_get "CPX-B" (assignments Demo.st3) = Some [0; 1] /\
  exists cluster_genes,
    Np.take Demo.genes3 [0; 1] = Some cluster_genes /\
    length (Np.intersect1d cluster_genes ["g0"; "g1"]%string) <=
      length [0; 1] /\
    length [0; 1] <=
      2 * length (Np.intersect1d cluster_genes ["g0"; "g1"]%string) /\
    length (Np.unique_str ["g0"; "g1"]%string) <=
      2 * length (Np.intersect1d cluster_genes ["g0"; "g1"]%string).
Proof.
  split; [exact DemoFacts2.genes3_NoDup|].
  split; [exact DemoFacts2.complexes3_keys|].
  split; [exact DemoFacts.scan3|].
  split; [left; reflexivity|].
  split; [exact DemoFacts2.get3|].
  exact (@recorded_cluster_shares_half SciPy.linkage SciPy.fcluster
           SciPy.maxdists Demo.link3 Demo.genes3 Demo.complexes3 Demo.st3
           "CPX-B"%string ["g0"; "g1"]%string [0; 1]
           DemoFacts2.genes3_NoDup DemoFacts2.complexes3_keys DemoFacts.scan3
           (or_introl eq_refl) DemoFacts2.get3).
Defined.

Lemma returned_labels_group_items_witness :
  SciPy.run_scan Demo.link3 Demo.genes3 Demo.complexes3 = Some Demo.st3 /\
  SciPy.run Demo.link3 Demo.genes3 Demo.complexes3 = Some [1; 1; 4] /\
  0 < length [1; 1; 4] /\
  2 < length [1; 1; 4] /\
  (nth 0 [1; 1; 4] 0 = nth 2 [1; 1; 4] 0 <->
   winner (assignments Demo.st3) 0 = winner (assignments Demo.st3) 2 /\
   (winner (assignments Demo.st3) 0 = 0 ->
    nth 0
      (SciPy.fcluster Demo.link3 (highest_thresh Demo.st3 + (1 # 10))%Q) 0 =
    nth 2
      (SciPy.fcluster Demo.link3 (highest_thresh Demo.st3 + (1 # 10))%Q) 0)).
Proof.
  assert (H0 : 0 < length [1; 1; 4]) by (simpl; lia).
  assert (H2 : 2 < length [1; 1; 4]) by (simpl; lia).
  split; [exact DemoFacts.scan3|]. split; [exact DemoFacts.run3|].
  split; [exact H0|]. split; [exact H2|].
  exact (@returned_labels_group_items SciPy.linkage SciPy.fcluster
           SciPy.maxdists Demo.link3 Demo.genes3 Demo.complexes3 Demo.st3
           [1; 1; 4] 0 2 DemoFacts.scan3 DemoFacts.run3 H0 H2).
Defined.

Lemma uncaptured_complexes_are_inert_witness :
  NoDup (map fst Demo.complexes3) /\
  SciPy.run_scan Demo.link3 Demo.genes3 Demo.complexes3 = Some Demo.st3 /\
  SciPy.run Demo.link3 Demo.genes3
    (filter
       (fun item => Np.mem_str (fst item) (dict_keys (assignments Demo.st3)))
       Demo.complexes3) =
  SciPy.run Demo.link3 Demo.genes3 Demo.complexes3.
Proof.
  split; [exact DemoFacts2.complexes3_keys|].
  split; [exact DemoFacts.scan3|].
  exact (@uncaptured_complexes_are_inert SciPy.linkage SciPy.fcluster
           SciPy.maxdists Demo.link3 Demo.genes3 Demo.complexes3 Demo.st3
           DemoFacts2.complexes3_keys DemoFacts.scan3).
Defined.

Lemma merge_raises_iff_witness :
  SciPy.run_scan Demo.link3 Demo.genes3 Demo.complexes3 = Some Demo.st3 /\
  (SciPy.run Demo.link3 Demo.genes3 Demo.complexes3 = None <->
   Demo.genes3 = [] \/
   exists k,
     winner (assignments Demo.st3) k <> 0 /\
     length
       (SciPy.fcluster Demo.link3 (highest_thresh Demo.st3 + (1 # 10))%Q) <=
     k).
Proof.
  split; [exact DemoFacts.scan3|].
  exact (@merge_raises_iff SciPy.linkage SciPy.fcluster SciPy.maxdists
           Demo.link3 Demo.genes3 Demo.complexes3 Demo.st3 DemoFacts.scan3).
Defined.

Lemma returned_tree_is_well_formed_witness :
  create_data_structure Demo.names3 Demo.nested_levels =
    Some (PyDict Demo2.nested_tree) /\
  exists node,
    PyDict Demo2.nested_tree = PyDict node /\
    well_formed Demo.names3 (length Demo.nested_levels) node = true.
Proof.
  split; [exact DemoFacts2.nested_tree_built|].
  exact (@returned_tree_is_well_formed Demo.names3 Demo.nested_levels
           (PyDict Demo2.nested_tree) DemoFacts2.nested_tree_built).
Defined.

Lemma same_shape_levels_keep_every_item_witness :
  Demo.crossing_levels <> [] /\
  same_shape (length Demo.names3) Demo.crossing_levels /\
  exists node,
    create_data_structure Demo.names3 Demo.crossing_levels =
      Some (PyDict node) /\
    forall leaf,
      In leaf (leaves node) <->
      exists name, In name Demo.names3 /\ leaf = (name, 1).
Proof.
  assert (Hne : Demo.crossing_levels <> []) by discriminate.
  split; [exact Hne|]. split; [exact DemoFacts2.same_shape_crossing|].
  exact (@same_shape_levels_keep_every_item Demo.names3 Demo.crossing_levels
           Hne DemoFacts2.same_shape_crossing).
Defined.

Lemma notebook_data_is_a_three_level_tree_witness :
  (forall t,
     length (SciPy.fcluster Demo.link3 t) =
     length
       (Notebook.common_genes Demo2.ts_genes Demo2.bioprocess_genes
          Demo2.index)) /\
  Notebook.common_genes Demo2.ts_genes Demo2.bioprocess_genes Demo2.index
    <> [] /\
  SciPy.maxdists Demo.link3 <> [] /\
  exists first_level_clusters node,
    SciPy.run Demo.link3
      (Notebook.common_genes Demo2.ts_genes Demo2.bioprocess_genes
         Demo2.index)
      Demo.complexes3 = Some first_level_clusters /\
    Notebook.clusters SciPy.fcluster SciPy.maxdists Demo.link3
      (Notebook.common_genes Demo2.ts_genes Demo2.bioprocess_genes
         Demo2.index)
      Demo.complexes3 =
      Some [SciPy.fcluster Demo.link3 0%Q; first_level_clusters;
            SciPy.fcluster Demo.link3 (9 # 10)%Q] /\
    Notebook.data SciPy.fcluster SciPy.maxdists Demo.link3
      (Notebook.common_genes Demo2.ts_genes Demo2.bioprocess_genes
         Demo2.index)
      Demo2.orf2name_mapper Demo.complexes3 = Some (PyDict node) /\
    well_formed
      (Notebook.mapped_genes Demo2.orf2name_mapper
         (Notebook.common_genes Demo2.ts_genes Demo2.bioprocess_genes
            Demo2.index))
      3 node = true /\
    forall name,
      In name
        (Notebook.mapped_genes Demo2.orf2name_mapper
           (Notebook.common_genes Demo2.ts_genes Demo2.bioprocess_genes
              Demo2.index)) ->
      In (name, 1) (leaves node).
Proof.
  split; [exact DemoFacts2.shape3|].
  split; [exact DemoFacts2.common_genes3_not_nil|].
  split; [exact DemoFacts2.maxdists3_not_nil|].
  exact (@notebook_data_is_a_three_level_tree SciPy.linkage SciPy.fcluster
           SciPy.maxdists Demo.link3
           (Notebook.common_genes Demo2.ts_genes Demo2.bioprocess_genes
              Demo2.index)
           Demo2.orf2name_mapper Demo.complexes3 DemoFacts2.shape3
           DemoFacts2.common_genes3_not_nil DemoFacts2.maxdists3_not_nil).
Defined.

Lemma subsampled_nets_hold_the_sample_witness :
  Forall (@NoDup string) Demo2.nets /\
  Sampling.reduce_union1d Demo2.nets =
    Some ["a"; "b"; "c"; "d"; "e"]%string /\
  Sampling.sample_of ["a"; "b"; "c"; "d"; "e"]%string 3 Demo2.node_sample /\
  Forall2
    (fun net sampled =>
       forall v, In v sampled <-> In v net /\ In v Demo2.node_sample)
    Demo2.nets (Sampling.subsample Demo2.nets Demo2.node_sample) /\
  Sampling.total_nodes (Sampling.subsample Demo2.nets Demo2.node_sample) =
    Some 3.
Proof.
  split; [exact DemoFacts2.nets_NoDup|].
  split; [exact DemoFacts2.nets_union|].
  split; [exact DemoFacts2.node_sample_ok|].
  exact (@subsampled_nets_hold_the_sample Demo2.nets
           ["a"; "b"; "c"; "d"; "e"]%string 3 Demo2.node_sample
           DemoFacts2.nets_NoDup DemoFacts2.nets_union
           DemoFacts2.node_sample_ok).
Defined.

Lemma split_supervised_partitions_witness :
  NoDup (map fst Demo2.supervised) /\
  let test_standard :=
    fst (Splitting.split_supervised Demo2.supervised ["g4"; "g1"]%string) in
  let train_standard :=
    snd (Splitting.split_supervised Demo2.supervised ["g4"; "g1"]%string) in
  test_standard =
    filter (fun item => Np.mem_str (fst item) ["g4"; "g1"]%string)
      Demo2.supervised /\
  train_standard =
    filter (fun item => negb (Np.mem_str (fst item) ["g4"; "g1"]%string))
      Demo2.supervised /\
  Permutation (test_standard ++ train_standard) Demo2.supervised /\
  (forall gene, In gene (map fst test_standard) ->
     In gene ["g4"; "g1"]%string) /\
  (forall gene, In gene (map fst train_standard) ->
     ~ In gene ["g4"; "g1"]%string).
Proof.
  split; [exact DemoFacts2.supervised_keys|].
  exact (@split_supervised_partitions Demo2.supervised ["g4"; "g1"]%string
           DemoFacts2.supervised_keys).
Defined.

Lemma split_module_keeps_touched_modules_witness :
  NoDup (map fst Demo2.modules) /\
  Splitting.split_module Demo2.modules ["g4"; "g9"]%string =
    filter
      (fun item =>
         existsb (fun g => Np.mem_str g ["g4"; "g9"]%string) (snd item))
      Demo2.modules /\
  forall module genes,
    In (module, genes)
      (Splitting.split_module Demo2.modules ["g4"; "g9"]%string) <->
    In (module, genes) Demo2.modules /\
    exists g, In g genes /\ In g ["g4"; "g9"]%string.
Proof.
  split; [exact DemoFacts2.modules_keys|].
  exact (@split_module_keeps_touched_modules Demo2.modules
           ["g4"; "g9"]%string DemoFacts2.modules_keys).
Defined.

Lemma split_coannotation_keeps_touched_rows_witness :
  (forall row, In row Demo2.coannotation -> 2 <= length row) /\
  exists test_standard,
    Splitting.split_coannotation Demo2.coannotation ["g4"; "g3"]%string =
      Some test_standard /\
    test_standard =
      filter
        (fun row =>
           Np.mem_str (nth 0 row ""%string) ["g4"; "g3"]%string ||
           Np.mem_str (nth 1 row ""%string) ["g4"; "g3"]%string)
        Demo2.coannotation /\
    forall row,
      In row test_standard <->
      In row Demo2.coannotation /\
      (In (nth 0 row ""%string) ["g4"; "g3"]%string \/
       In (nth 1 row ""%string) ["g4"; "g3"]%string).
Proof.
  split; [exact DemoFacts2.coannotation_rows|].
  exact (@split_coannotation_keeps_touched_rows Demo2.coannotation
           ["g4"; "g3"]%string DemoFacts2.coannotation_rows).
Defined.

Lemma supervised_trial_sizes_witness :
  NoDup (map fst Demo2.supervised) /\
  Permutation Demo2.shuffled_genes (map fst Demo2.supervised) /\
  let n := length Demo2.supervised in
  let train_genes := fst (Splitting.split_genes Demo2.shuffled_genes) in
  let test_genes := snd (Splitting.split_genes Demo2.shuffled_genes) in
  let test_standard :=
    fst (Splitting.supervised_trial Demo2.supervised Demo2.shuffled_genes) in
  let train_standard :=
    snd (Splitting.supervised_trial Demo2.supervised Demo2.shuffled_genes) in
  Permutation (map fst test_standard) test_genes /\
  Permutation (map fst train_standard) train_genes /\
  (forall gene, In gene (map fst test_standard) ->
     ~ In gene (map fst train_standard)) /\
  length train_standard = 4 * n / 5 /\
  length test_standard = n - 4 * n / 5 /\
  n <= 5 * length test_standard.
Proof.
  split; [exact DemoFacts2.supervised_keys|].
  split; [exact DemoFacts2.shuffled_ok|].
  exact (@supervised_trial_sizes Demo2.supervised Demo2.shuffled_genes
           DemoFacts2.supervised_keys DemoFacts2.shuffled_ok).
Defined.
